(** * devio-seed: dependency-ordered seed generation for a Prisma schema

    A shallow embedding of [src/index.ts]: the dependency graph builder, the
    cycle-tolerant topological ordering, payload assembly, the multi-pass
    creation loop, the self-relation step and the entry operation
    [generateSeedData], followed by the properties established about them.

    Conventions of the embedding.
    - A plain JavaScript object used as a map is an association list whose keys
      are pairwise distinct and listed in insertion order ([JsObj]); this is
      the order of [Object.keys] and of [for ... in] for keys that are schema
      identifiers (they start with a letter, so none is an array index, and
      none is assumed to name a member of [Object.prototype]).
    - A JavaScript [Set] of names is a duplicate-free list in insertion order.
    - [async]/[await] is sequential: a promise that resolves is a returned
      value, a promise that rejects is a thrown exception. *)

From Stdlib Require Import String List ZArith Bool Lia Arith Permutation Relations.
From Stdlib Require Import DecimalString.
Import ListNotations.
Local Open Scope string_scope.
Local Open Scope list_scope.

Set Implicit Arguments.

(** ** JavaScript objects used as insertion-ordered maps *)

Module JsObj.

Definition t (V : Type) : Type := list (string * V).

Definition empty {V : Type} : t V := [].

(** [o[k]], [None] standing for [undefined]. *)
Fixpoint get {V : Type} (o : t V) (k : string) : option V :=
  match o with
  | [] => None
  | (k', v) :: o' => if String.eqb k' k then Some v else get o' k
  end.

(** [o[k] = v]: an existing key keeps its position, a new key goes last. *)
Fixpoint set {V : Type} (o : t V) (k : string) (v : V) : t V :=
  match o with
  | [] => [(k, v)]
  | (k', v') :: o' =>
      if String.eqb k' k then (k, v) :: o' else (k', v') :: set o' k v
  end.

(** [Object.keys(o)]. *)
Definition keys {V : Type} (o : t V) : list string := map fst o.

(** In-place mutation of the object stored under [k] (nothing to mutate when
    the key is absent). *)
Definition update {V : Type} (o : t V) (k : string) (f : V -> V) : t V :=
  match get o k with
  | Some v => set o k (f v)
  | None => o
  end.

End JsObj.

(** Membership test on lists of names ([Array.prototype.includes],
    [Set.prototype.has]). *)
Definition mem (x : string) (l : list string) : bool :=
  existsb (String.eqb x) l.

(** [Set.prototype.add]: insertion order, no duplicates. *)
Definition set_add (x : string) (s : list string) : list string :=
  if mem x s then s else s ++ [x].

(** ** Schema metadata (DMMF) *)

Inductive FieldKind : Type :=
| KScalar
| KObject
| KEnum
| KUnsupported.

Definition FieldKind_eqb (a b : FieldKind) : bool :=
  match a, b with
  | KScalar, KScalar | KObject, KObject | KEnum, KEnum
  | KUnsupported, KUnsupported => true
  | _, _ => false
  end.

(** A field descriptor.  [relationFromFields] and [relationToFields] are
    [None] when the property is [undefined]. *)
Record Field : Type := mkField {
  fname : string;
  kind : FieldKind;
  ftype : string;
  isList : bool;
  isRequired : bool;
  isId : bool;
  isUnique : bool;
  isReadOnly : bool;
  relationFromFields : option (list string);
  relationToFields : option (list string)
}.

Record Model : Type := mkModel {
  mname : string;
  fields : list Field
}.

(** ** Dependency graph *)

Record Node : Type := mkNode {
  nname : string;
  dependsOn : list string;
  referencedBy : list string
}.

Definition Graph : Type := JsObj.t Node.

Definition add_dependsOn (x : string) (n : Node) : Node :=
  mkNode (nname n) (set_add x (dependsOn n)) (referencedBy n).

Definition add_referencedBy (x : string) (n : Node) : Node :=
  mkNode (nname n) (dependsOn n) (set_add x (referencedBy n)).

(** First loop of [buildDependencyGraph]: one fresh node per descriptor. *)
Definition initGraph (models : list Model) : Graph :=
  fold_left
    (fun g m => JsObj.set g (mname m) (mkNode (mname m) [] []))
    models JsObj.empty.

(** The test [field.kind === "object" && !field.isList && field.isRequired]. *)
Definition isDependencyField (f : Field) : bool :=
  FieldKind_eqb (kind f) KObject && negb (isList f) && isRequired f.

(** Body of the inner loop: wire [owner -> field.type] when the target is a
    node of the graph. *)
Definition wireField (owner : string) (g : Graph) (f : Field) : Graph :=
  if isDependencyField f then
    let dependsOnModel := ftype f in
    match JsObj.get g dependsOnModel with
    | Some _ =>
        let g1 := JsObj.update g owner (add_dependsOn dependsOnModel) in
        JsObj.update g1 dependsOnModel (add_referencedBy owner)
    | None => g
    end
  else g.

Definition wireModel (g : Graph) (m : Model) : Graph :=
  fold_left (wireField (mname m)) (fields m) g.

Definition buildDependencyGraph (models : list Model) : Graph :=
  fold_left wireModel models (initGraph models).

(** ** Results of computations *)

Inductive exn : Type :=
| TypeError (msg : string)
| Rejected (reason : string).

Inductive outcome (A : Type) : Type :=
| Ret (a : A)
| Throw (e : exn)
| OutOfFuel.

Arguments Ret {A} a.
Arguments Throw {A} e.
Arguments OutOfFuel {A}.

(** ** Topological ordering (Kahn's algorithm) *)

(** A JavaScript number holding a counter: an integer, or [NaN] (the result of
    decrementing [undefined]). *)
Inductive num : Type :=
| Num (z : Z)
| NaN.

Definition decr (n : option num) : num :=
  match n with
  | Some (Num z) => Num (z - 1)
  | Some NaN => NaN
  | None => NaN
  end.

(** [inDegree[m] === 0] *)
Definition isZero (inDegree : JsObj.t num) (m : string) : bool :=
  match JsObj.get inDegree m with
  | Some (Num z) => (z =? 0)%Z
  | _ => false
  end.

(** [inDegree[m] > 0] *)
Definition isPositive (inDegree : JsObj.t num) (m : string) : bool :=
  match JsObj.get inDegree m with
  | Some (Num z) => (0 <? z)%Z
  | _ => false
  end.

(** [inDegree[modelName] = graph[modelName].dependsOn.size] for every key (the
    keys of an object are distinct: going through its entries is going through
    [Object.keys(graph)] and reading [graph[modelName]]). *)
Definition initInDegree (graph : Graph) : JsObj.t num :=
  fold_left
    (fun acc kn => JsObj.set acc (fst kn) (Num (Z.of_nat (length (dependsOn (snd kn))))))
    graph JsObj.empty.

(** Body of [for (const ref of graph[current].referencedBy)]. *)
Definition visit (st : JsObj.t num * list string) (ref : string)
  : JsObj.t num * list string :=
  let inDegree := JsObj.set (fst st) ref (decr (JsObj.get (fst st) ref)) in
  (inDegree, if isZero inDegree ref then snd st ++ [ref] else snd st).

(** The [while (queue.length)] loop.  [fuel] bounds the number of iterations;
    [kahn_returns] shows that the number of keys is always enough. *)
Fixpoint kahn (fuel : nat) (graph : Graph) (inDegree : JsObj.t num)
  (queue sorted : list string) : outcome (JsObj.t num * list string) :=
  match queue with
  | [] => Ret (inDegree, sorted)
  | current :: queue' =>
      match fuel with
      | O => OutOfFuel
      | S fuel' =>
          match JsObj.get graph current with
          | None => Throw (TypeError "graph[current] is undefined")
          | Some node =>
              let st := fold_left visit (referencedBy node) (inDegree, queue') in
              kahn fuel' graph (fst st) (snd st) (sorted ++ [current])
          end
      end
  end.

Definition topologicalSort (graph : Graph) : outcome (list string) :=
  let inDegree := initInDegree graph in
  let queue := filter (isZero inDegree) (JsObj.keys inDegree) in
  match kahn (length (JsObj.keys graph)) graph inDegree queue [] with
  | Ret (inDegree', sorted) =>
      if (length sorted <? length (JsObj.keys graph))%nat then
        let remaining := filter (isPositive inDegree') (JsObj.keys inDegree') in
        Ret (sorted ++ remaining)
      else Ret sorted
  | Throw e => Throw e
  | OutOfFuel => OutOfFuel
  end.

(** ** JavaScript values, payloads and records *)

(** Numbers are decimal literals [mantissa * 10^-decimals]; a [Date] carries
    its time value in milliseconds, [None] for an invalid date. *)
#[local] Unset Elimination Schemes.
Inductive Value : Type :=
| VUndefined
| VNull
| VBool (b : bool)
| VNum (mantissa : Z) (decimals : nat)
| VStr (s : string)
| VDate (t : option Z)
| VArr (items : list Value)
| VObj (props : list (string * Value)).
#[local] Set Elimination Schemes.

(** A created record and a creation payload are both plain objects. *)
Definition Obj : Type := JsObj.t Value.

(** [o[k]] read as a value. *)
Definition prop (o : Obj) (k : string) : Value :=
  match JsObj.get o k with
  | Some v => v
  | None => VUndefined
  end.

(** ** Per-entity-type run state *)

Record ModelData : Type := mkModelData {
  model : Model;
  createdRecords : list Obj;
  created : bool
}.

Definition ModelDataMap : Type := JsObj.t ModelData.

(** [entry.createdRecords.push(r)] *)
Definition pushRecord (r : Obj) (d : ModelData) : ModelData :=
  mkModelData (model d) (createdRecords d ++ [r]) (created d).

(** [entry.created = true] *)
Definition markCreated (d : ModelData) : ModelData :=
  mkModelData (model d) (createdRecords d) true.

(** ** Collaborators and observable events *)

(** What the engine takes from outside, over a state [W] of the outside world
    (store contents, clock, random source).  Every call returns: a resolved
    promise is [inl], a rejected one is [inr] and carries an [Error] object. *)
Record Env (W : Type) : Type := mkEnv {
  (** [loadDMMF(seedPath)], giving [dmmf.datamodel.models] *)
  load_schema : string -> W -> (list Model + exn) * W;
  (** [prisma[modelName].create({ data })] *)
  prisma_create : string -> Obj -> W -> (Obj + exn) * W;
  (** [prisma[modelName].update({ where, data })] *)
  prisma_update : string -> Obj -> Obj -> W -> (Obj + exn) * W;
  (** [prisma.$disconnect()] *)
  prisma_disconnect : W -> (unit + exn) * W;
  (** [Math.random().toString(36).slice(2, 10)] *)
  random_token : W -> string * W;
  (** the time value of [new Date()] *)
  clock : W -> Z * W;
  (** the time value of [new Date(v)] for a [v] that is not a [Date] *)
  parse_date : Value -> option Z
}.

(** Calls to the collaborators, with their results, and the console lines that
    mark the progress of the pass loop.  The remaining console output is
    advisory text and is left out. *)
Inductive Event : Type :=
| CallLoad (seedPath : string)
| CallCreate (modelName : string) (data : Obj) (result : Obj + exn)
| CallUpdate (modelName : string) (where_ data : Obj) (result : Obj + exn)
| CallDisconnect
| LogPassStart (pass : Z)
| LogNoProgress
| LogSeedDone
| LogSeedError (e : exn).

Record Sys (W : Type) : Type := mkSys {
  ext : W;
  trace : list Event
}.

(** ** The monad of the engine: state, exceptions, fuel *)

Section Monad.

Variable W : Type.

Definition M (A : Type) : Type := Sys W -> outcome A * Sys W.

Definition ret {A : Type} (a : A) : M A := fun s => (Ret a, s).

Definition throw {A : Type} (e : exn) : M A := fun s => (Throw e, s).

Definition bind {A B : Type} (m : M A) (k : A -> M B) : M B :=
  fun s =>
    match m s with
    | (Ret a, s') => k a s'
    | (Throw e, s') => (Throw e, s')
    | (OutOfFuel, s') => (OutOfFuel, s')
    end.

Definition lift {A : Type} (o : outcome A) : M A := fun s => (o, s).

Definition emit (e : Event) : M unit :=
  fun s => (Ret tt, mkSys (ext s) (trace s ++ [e])).

(** [try { m } catch (err) { h err }] *)
Definition tryCatch {A : Type} (m : M A) (h : exn -> M A) : M A :=
  fun s =>
    match m s with
    | (Throw e, s') => h e s'
    | r => r
    end.

(** [try { m } finally { f }]: [f] runs whether [m] returned or threw, and an
    exception of [f] replaces the result of [m]. *)
Definition tryFinally {A : Type} (m : M A) (f : M unit) : M A :=
  fun s =>
    match m s with
    | (OutOfFuel, s') => (OutOfFuel, s')
    | (r, s') =>
        match f s' with
        | (Ret _, s'') => (r, s'')
        | (Throw e, s'') => (Throw e, s'')
        | (OutOfFuel, s'') => (OutOfFuel, s'')
        end
    end.

(** [for (const x of xs)] threading an accumulator. *)
Fixpoint forEach {A S : Type} (body : S -> A -> M S) (xs : list A) (acc : S) : M S :=
  match xs with
  | [] => ret acc
  | x :: xs' => bind (body acc x) (forEach body xs')
  end.

End Monad.

Arguments ret {W A} a.
Arguments throw {W A} e.
Arguments lift {W A} o.
Arguments emit {W} e.

Declare Scope engine_scope.
Delimit Scope engine_scope with engine.
Notation "x <- c1 ;; c2" := (bind c1 (fun x => c2))
  (at level 61, c1 at next level, right associativity) : engine_scope.
Notation "' pat <- c1 ;; c2" :=
  (bind c1 (fun x => match x with pat => c2 end))
  (at level 61, pat pattern, c1 at next level, right associativity) : engine_scope.
Notation "c1 ;; c2" := (bind c1 (fun _ => c2))
  (at level 61, right associativity) : engine_scope.
Local Open Scope engine_scope.

(** ** The engine *)

(** [timeClip] of ECMAScript: a time value outside the representable range
    makes an invalid date. *)
Definition timeClip (t : Z) : option Z :=
  if (Z.abs t <=? 8640000000000000)%Z then Some t else None.

(** The code shared by payload assembly and the self-relation step:
    [{ connect: {} }] filled with [connect[k] = record[k]] for the keys of
    [relationToFields].  Reading [forEach] of an undefined [relationToFields],
    or a property of an undefined record, is a [TypeError]. *)
Definition connectByKey (relationToFields : option (list string))
  (record : option Obj) : outcome Value :=
  match relationToFields with
  | None => Throw (TypeError "relationToFields is undefined")
  | Some [] => Ret (VObj [("connect", VObj [])])
  | Some rks =>
      match record with
      | None => Throw (TypeError "record is undefined")
      | Some r =>
          Ret (VObj [("connect",
                      VObj (fold_left (fun c rk => JsObj.set c rk (prop r rk)) rks []))])
      end
  end.

(** [isForeignKey] of [buildCreationData]. *)
Definition isForeignKey (m : Model) (field : Field) : bool :=
  existsb
    (fun f =>
       FieldKind_eqb (kind f) KObject &&
       match relationFromFields f with
       | Some from => mem (fname field) from
       | None => false
       end)
    (fields m).

(** [anyFKrequired] of [buildCreationData]. *)
Definition anyFKrequired (m : Model) (from : list string) : bool :=
  existsb
    (fun fkFieldName =>
       match find (fun f => String.eqb (fname f) fkFieldName) (fields m) with
       | Some fkDef => isRequired fkDef
       | None => false
       end)
    from.

(** Body of the relation loop of [buildCreationData]. *)
Definition relationStep (modelDataMap : ModelDataMap) (modelName : string)
  (m : Model) (data : Obj) (field : Field) : outcome Obj :=
  if negb (FieldKind_eqb (kind field) KObject) then Ret data
  else if String.eqb (ftype field) modelName then Ret data
  else if isList field then Ret data
  else
    match relationFromFields field with
    | None | Some [] => Ret data
    | Some from =>
        match JsObj.get modelDataMap (ftype field) with
        | None =>
            Ret (if anyFKrequired m from
                 then JsObj.set data (fname field) VUndefined
                 else data)
        | Some relatedModelData =>
            match createdRecords relatedModelData with
            | relatedRecord :: _ =>
                match connectByKey (relationToFields field) (Some relatedRecord) with
                | Ret c => Ret (JsObj.set data (fname field) c)
                | Throw e => Throw e
                | OutOfFuel => OutOfFuel
                end
            | [] => Ret (JsObj.set data (fname field) VUndefined)
            end
        end
    end.

(** [isSelfRelationModel] *)
Definition isSelfRelationField (modelName : string) (f : Field) : bool :=
  FieldKind_eqb (kind f) KObject && String.eqb (ftype f) modelName && negb (isList f).

Definition isSelfRelationModel (m : Model) : bool :=
  existsb (isSelfRelationField (mname m)) (fields m).

(** [new Date(firstCreatedAt.getTime() - 1000)] *)
Definition oneSecondBefore (firstCreatedAt : option Z) : Value :=
  match firstCreatedAt with
  | Some t => VDate (timeClip (t - 1000))
  | None => VDate None
  end.

Section Engine.

Variable W : Type.
Variable env : Env W.

Definition callLoad (seedPath : string) : M W (list Model) :=
  fun s =>
    let '(r, w) := load_schema env seedPath (ext s) in
    (match r with inl ms => Ret ms | inr e => Throw e end,
     mkSys w (trace s ++ [CallLoad seedPath])).

Definition callCreate (modelName : string) (data : Obj) : M W Obj :=
  fun s =>
    let '(r, w) := prisma_create env modelName data (ext s) in
    (match r with inl rec => Ret rec | inr e => Throw e end,
     mkSys w (trace s ++ [CallCreate modelName data r])).

Definition callUpdate (modelName : string) (where_ data : Obj) : M W Obj :=
  fun s =>
    let '(r, w) := prisma_update env modelName where_ data (ext s) in
    (match r with inl rec => Ret rec | inr e => Throw e end,
     mkSys w (trace s ++ [CallUpdate modelName where_ data r])).

Definition callDisconnect : M W unit :=
  fun s =>
    let '(r, w) := prisma_disconnect env (ext s) in
    (match r with inl u => Ret u | inr e => Throw e end,
     mkSys w (trace s ++ [CallDisconnect])).

Definition randomToken : M W string :=
  fun s => let '(tok, w) := random_token env (ext s) in (Ret tok, mkSys w (trace s)).

Definition currentTime : M W Z :=
  fun s => let '(t, w) := clock env (ext s) in (Ret t, mkSys w (trace s)).

(** [generateFakeValueForField] *)
Definition generateFakeValueForField (field : Field) : M W Value :=
  if isList field then ret (VArr [])
  else if String.eqb (ftype field) "String" then
    if isId field then ret VUndefined
    else if isUnique field then
      tok <- randomToken ;; ret (VStr (String.append "unique_" tok))
    else ret (VStr (String.append "fake_" (fname field)))
  else if String.eqb (ftype field) "Int" then ret (VNum 123 0)
  else if String.eqb (ftype field) "Float" then ret (VNum 123 2)
  else if String.eqb (ftype field) "Boolean" then ret (VBool false)
  else if String.eqb (ftype field) "DateTime" then
    t <- currentTime ;; ret (VDate (Some t))
  else if String.eqb (ftype field) "Json" then ret (VObj [("example", VStr "data")])
  else ret (if isRequired field
            then VStr (String.append "fake_" (fname field))
            else VNull).

(** Body of the scalar loop of [buildCreationData]. *)
Definition scalarStep (m : Model) (data : Obj) (field : Field) : M W Obj :=
  if FieldKind_eqb (kind field) KScalar && negb (isReadOnly field) then
    if isForeignKey m field then ret data
    else v <- generateFakeValueForField field ;; ret (JsObj.set data (fname field) v)
  else ret data.

(** [buildCreationData] *)
Definition buildCreationData (modelDataMap : ModelDataMap) (modelName : string)
  : M W Obj :=
  match JsObj.get modelDataMap modelName with
  | None => throw (TypeError "modelDataMap[modelName] is undefined")
  | Some entry =>
      let m := model entry in
      data <- forEach (scalarStep m) (fields m) JsObj.empty ;;
      forEach (fun d f => lift (relationStep modelDataMap modelName m d f))
              (fields m) data
  end.

Section PassLoop.

(** The pass loop and [tryCreateOneRecord] are embedded once for the variants
    of the file, over the payload assembly [assemble] each of them uses:
    [buildCreationData] in the first two, the inlined loops of
    [tryCreateOneRecord] in the third ([assembleInline] below). *)
Variable assemble : ModelDataMap -> string -> M W Obj.

(** [tryCreateOneRecord]: the result carries the success flag and the run
    state after the call. *)
Definition tryCreateOneRecord (modelDataMap : ModelDataMap) (modelName : string)
  : M W (bool * ModelDataMap) :=
  data <- assemble modelDataMap modelName ;;
  tryCatch
    (created <- callCreate modelName data ;;
     ret (true, JsObj.update modelDataMap modelName (pushRecord created)))
    (fun err => ret (false, modelDataMap)).

(** Body of [for (const modelName of sortedModelNames)]; the accumulator is the
    run state and [createdAlgoNestaPassada]. *)
Definition attemptModel (acc : ModelDataMap * bool) (modelName : string)
  : M W (ModelDataMap * bool) :=
  match JsObj.get (fst acc) modelName with
  | None => throw (TypeError "modelDataMap[modelName] is undefined")
  | Some entry =>
      if created entry then ret acc
      else
        '(success, modelDataMap) <- tryCreateOneRecord (fst acc) modelName ;;
        if success : bool
        then ret (JsObj.update modelDataMap modelName markCreated, true)
        else ret (modelDataMap, snd acc)
  end.

(** One pass over the sorted names. *)
Definition runPass (sortedModelNames : list string) (modelDataMap : ModelDataMap)
  : M W (ModelDataMap * bool) :=
  forEach attemptModel sortedModelNames (modelDataMap, false).

(** [while (pass <= maxPasses)].  [fuel] bounds the number of iterations. *)
Fixpoint passLoop (fuel : nat) (sortedModelNames : list string) (maxPasses pass : Z)
  (modelDataMap : ModelDataMap) : M W ModelDataMap :=
  if (pass <=? maxPasses)%Z then
    match fuel with
    | O => lift OutOfFuel
    | S fuel' =>
        emit (LogPassStart pass) ;;
        '(modelDataMap', createdAlgoNestaPassada) <-
          runPass sortedModelNames modelDataMap ;;
        if negb createdAlgoNestaPassada
        then emit LogNoProgress ;; ret modelDataMap'
        else passLoop fuel' sortedModelNames maxPasses (pass + 1) modelDataMap'
    end
  else ret modelDataMap.

(** The run state at the start: no record, nothing created. *)
Definition initModelDataMap (models : list Model) : ModelDataMap :=
  fold_left
    (fun acc m => JsObj.set acc (mname m) (mkModelData m [] false))
    models JsObj.empty.

(** [multiPassCreate(dmmf, maxPasses)] *)
Definition multiPassCreate (models : list Model) (maxPasses : Z)
  : M W ModelDataMap :=
  let graph := buildDependencyGraph models in
  sortedModelNames <- lift (topologicalSort graph) ;;
  passLoop (Z.to_nat maxPasses) sortedModelNames maxPasses 1
           (initModelDataMap models).

End PassLoop.

(** [createAdditionalSelfRelationRecord]: returns the run state after the
    call.  [createdRecords] aliases [modelDataMap[modelName].createdRecords],
    so it is read again after [tryCreateOneRecord]. *)
Definition createAdditionalSelfRelationRecord (modelDataMap : ModelDataMap)
  (modelName : string) : M W ModelDataMap :=
  match JsObj.get modelDataMap modelName with
  | None => throw (TypeError "modelDataMap[modelName] is undefined")
  | Some entry =>
      '(success, modelDataMap1) <-
        (if (length (createdRecords entry) =? 0)%nat
         then tryCreateOneRecord buildCreationData modelDataMap modelName
         else ret (true, modelDataMap)) ;;
      if negb success then ret modelDataMap1
      else
        let firstRecord :=
          match JsObj.get modelDataMap1 modelName with
          | Some entry1 => hd_error (createdRecords entry1)
          | None => None
          end in
        data <- buildCreationData modelDataMap1 modelName ;;
        data' <-
          match find (isSelfRelationField modelName) (fields (model entry)) with
          | Some selfRelationField =>
              c <- lift (connectByKey (relationToFields selfRelationField) firstRecord) ;;
              ret (JsObj.set data (fname selfRelationField) c)
          | None => ret data
          end ;;
        tryCatch
          (secondRecord <- callCreate modelName data' ;;
           first <- match firstRecord with
                    | Some r => ret r
                    | None => throw (TypeError "firstRecord is undefined")
                    end ;;
           let firstCreatedAt :=
             match prop first "createdAt" with
             | VDate t => t
             | v => parse_date env v
             end in
           secondRecord' <-
             callUpdate modelName
               [("id", prop secondRecord "id")]
               [("createdAt", oneSecondBefore firstCreatedAt)] ;;
           ret (JsObj.update modelDataMap1 modelName (pushRecord secondRecord')))
          (fun err => ret modelDataMap1)
  end.

(** Body of [for (const modelName in modelDataMap)] of [generateSeedData]. *)
Definition resolveSelfRelation (modelDataMap : ModelDataMap) (modelName : string)
  : M W ModelDataMap :=
  match JsObj.get modelDataMap modelName with
  | None => throw (TypeError "modelDataMap[modelName] is undefined")
  | Some entry =>
      if isSelfRelationModel (model entry)
         && (length (createdRecords entry) <? 2)%nat
      then createAdditionalSelfRelationRecord modelDataMap modelName
      else ret modelDataMap
  end.

(** [generateSeedData(seedPath)] *)
Definition generateSeedData (seedPath : string) : M W unit :=
  tryFinally
    (tryCatch
       (models <- callLoad seedPath ;;
        modelDataMap <- multiPassCreate buildCreationData models 5 ;;
        forEach resolveSelfRelation (JsObj.keys modelDataMap) modelDataMap ;;
        emit LogSeedDone)
       (fun error => emit (LogSeedError error) ;; throw error))
    callDisconnect.

(** *** The third variant of the file *)

(** Its scalar loop keeps foreign-key fields. *)
Definition scalarStepInline (data : Obj) (field : Field) : M W Obj :=
  if FieldKind_eqb (kind field) KScalar && negb (isReadOnly field) then
    v <- generateFakeValueForField field ;; ret (JsObj.set data (fname field) v)
  else ret data.

(** Its relation loop has no test on [field.type === modelName]. *)
Definition relationStepInline (modelDataMap : ModelDataMap) (m : Model)
  (data : Obj) (field : Field) : outcome Obj :=
  if negb (FieldKind_eqb (kind field) KObject) then Ret data
  else if isList field then Ret data
  else
    match relationFromFields field with
    | None | Some [] => Ret data
    | Some from =>
        match JsObj.get modelDataMap (ftype field) with
        | None =>
            Ret (if anyFKrequired m from
                 then JsObj.set data (fname field) VUndefined
                 else data)
        | Some relatedModelData =>
            match createdRecords relatedModelData with
            | firstRecord :: _ =>
                match connectByKey (relationToFields field) (Some firstRecord) with
                | Ret c => Ret (JsObj.set data (fname field) c)
                | Throw e => Throw e
                | OutOfFuel => OutOfFuel
                end
            | [] => Ret (JsObj.set data (fname field) VUndefined)
            end
        end
    end.

(** The payload assembly inlined in the third variant's [tryCreateOneRecord]. *)
Definition assembleInline (modelDataMap : ModelDataMap) (modelName : string)
  : M W Obj :=
  match JsObj.get modelDataMap modelName with
  | None => throw (TypeError "modelDataMap[modelName] is undefined")
  | Some entry =>
      let m := model entry in
      data <- forEach scalarStepInline (fields m) JsObj.empty ;;
      forEach (fun d f => lift (relationStepInline modelDataMap m d f))
              (fields m) data
  end.

End Engine.

(** ** A reference store and example schemas *)

(** [true] on a [{ connect: ... }] instruction. *)
Definition isConnect (v : Value) : bool :=
  match v with
  | VObj props =>
      match JsObj.get props "connect" with
      | Some _ => true
      | None => false
      end
  | _ => false
  end.

(** The payload connects every required, non-list relation of [m]. *)
Definition requiredConnected (m : Model) (data : Obj) : bool :=
  forallb
    (fun f => implb (isDependencyField f) (isConnect (prop data (fname f))))
    (fields m).

(** A store that knows [schema] and accepts a creation exactly when all the
    required connections are present; the record it returns carries a fresh
    integer [id].  Its state is the next [id]. *)
Definition strictStore (schema : list Model) : Env nat :=
  {| load_schema := fun _ w => (inl schema, w);
     prisma_create := fun modelName data w =>
       match find (fun m => String.eqb (mname m) modelName) schema with
       | Some m =>
           if requiredConnected m data
           then (inl [("id", VNum (Z.of_nat w) 0)], S w)
           else (inr (Rejected "required relation missing"), w)
       | None => (inr (Rejected "unknown model"), w)
       end;
     prisma_update := fun _ where_ data w =>
       (inl (fold_left (fun o kv => JsObj.set o (fst kv) (snd kv)) data where_), w);
     prisma_disconnect := fun w => (inl tt, w);
     random_token := fun w => ("k3x9q2ab", w);
     clock := fun w => (0%Z, w);
     parse_date := fun _ => None |}.

(** A store whose schema cannot be read and whose session cannot be closed. *)
Definition brokenStore : Env unit :=
  {| load_schema := fun _ w => (inr (Rejected "schema not found"), w);
     prisma_create := fun _ _ w => (inr (Rejected "no connection"), w);
     prisma_update := fun _ _ _ w => (inr (Rejected "no connection"), w);
     prisma_disconnect := fun w => (inl tt, w);
     random_token := fun w => ("", w);
     clock := fun w => (0%Z, w);
     parse_date := fun _ => None |}.

Definition start {W : Type} (w : W) : Sys W := mkSys w [].

Definition scalarField (name type : string) (id required : bool) : Field :=
  mkField name KScalar type false required id false false None None.

Definition relationField (name target : string) (required : bool)
  (from to : list string) : Field :=
  mkField name KObject target false required false false false (Some from) (Some to).

Definition listRelationField (name target : string) : Field :=
  mkField name KObject target true true false false false (Some []) (Some []).

(** A category tree whose parent link is mandatory. *)
Definition categoryModel : Model :=
  mkModel "Category"
    [ scalarField "id" "Int" true true;
      scalarField "parentId" "Int" false true;
      relationField "parent" "Category" true ["parentId"] ["id"];
      listRelationField "children" "Category" ].

Definition levelModel : Model :=
  mkModel "Level" [ scalarField "id" "Int" true true;
                    listRelationField "users" "User" ].

Definition userModel : Model :=
  mkModel "User"
    [ scalarField "id" "Int" true true;
      scalarField "levelId" "Int" false true;
      relationField "level" "Level" true ["levelId"] ["id"];
      listRelationField "posts" "Post" ].

Definition postModel : Model :=
  mkModel "Post"
    [ scalarField "id" "Int" true true;
      scalarField "authorId" "Int" false true;
      relationField "author" "User" true ["authorId"] ["id"] ].

Definition blogSchema : list Model := [postModel; userModel; levelModel].

(** Linear chains of required relations: [T1] has no relation, and every
    [T(i+1)] requires [Ti]. *)
Definition typeName (i : nat) : string :=
  String.append "T" (NilEmpty.string_of_uint (Nat.to_uint i)).

Definition chainModel (i : nat) : Model :=
  mkModel (typeName i)
    (match i with
     | 0 | 1 => [ scalarField "id" "Int" true true ]
     | S j =>
         [ scalarField "id" "Int" true true;
           scalarField "prevId" "Int" false true;
           relationField "prev" (typeName j) true ["prevId"] ["id"] ]
     end).

Definition chain (depth : nat) : list Model := map chainModel (seq 1 depth).

(** The [created] flag and the number of records of a type in a run state. *)
Definition isCreated (modelDataMap : ModelDataMap) (modelName : string) : bool :=
  match JsObj.get modelDataMap modelName with
  | Some entry => created entry
  | None => false
  end.

Definition recordCount (modelDataMap : ModelDataMap) (modelName : string) : nat :=
  match JsObj.get modelDataMap modelName with
  | Some entry => length (createdRecords entry)
  | None => 0
  end.

(** The passes of a trace: for each [LogPassStart], the events up to the next
    one. *)
Fixpoint passEvents (t : list Event) : list Event :=
  match t with
  | [] => []
  | LogPassStart _ :: _ => []
  | e :: t' => e :: passEvents t'
  end.

Fixpoint passesOf (t : list Event) : list (list Event) :=
  match t with
  | [] => []
  | LogPassStart _ :: t' => passEvents t' :: passesOf t'
  | _ :: t' => passesOf t'
  end.

(** A creation that the store accepted. *)
Definition isCreation (e : Event) : bool :=
  match e with
  | CallCreate _ _ (inl _) => true
  | _ => false
  end.

Definition isDisconnect (e : Event) : bool :=
  match e with
  | CallDisconnect => true
  | _ => false
  end.

(** ** Vocabulary of the statements *)

(** [a] depends on [b]: [b] is in [graph[a].dependsOn]. *)
Definition edge (g : Graph) (a b : string) : Prop :=
  exists n, JsObj.get g a = Some n /\ In b (dependsOn n).

(** [a] is in [graph[b].referencedBy]. *)
Definition backEdge (g : Graph) (b a : string) : Prop :=
  exists n, JsObj.get g b = Some n /\ In a (referencedBy n).

(** No type depends on itself through a chain of [dependsOn] edges. *)
Definition acyclic (g : Graph) : Prop :=
  forall a, ~ clos_trans string (edge g) a a.

Fixpoint nodupb (l : list string) : bool :=
  match l with
  | [] => true
  | x :: l' => negb (mem x l') && nodupb l'
  end.

(** The shape of a dependency graph: distinct keys, [dependsOn] and
    [referencedBy] are sets of keys of the graph, and each is the inverse of
    the other. *)
Definition wellFormedNode (g : Graph) (kn : string * Node) : bool :=
  nodupb (dependsOn (snd kn)) && nodupb (referencedBy (snd kn)) &&
  forallb
    (fun b => match JsObj.get g b with
              | Some nb => mem (fst kn) (referencedBy nb)
              | None => false
              end)
    (dependsOn (snd kn)) &&
  forallb
    (fun a => match JsObj.get g a with
              | Some na => mem (fst kn) (dependsOn na)
              | None => false
              end)
    (referencedBy (snd kn)).

Definition wellFormedGraph (g : Graph) : bool :=
  nodupb (JsObj.keys g) && forallb (wellFormedNode g) g.

(** [x] occurs in [l] at a position before an occurrence of [y]. *)
Definition before (x y : string) (l : list string) : Prop :=
  exists l1 l2 l3, l = l1 ++ x :: l2 ++ y :: l3.

(** The descriptor has a required, non-list relation to its own type. *)
Definition requiresItself (m : Model) : bool :=
  existsb (fun f => isDependencyField f && String.eqb (ftype f) (mname m)) (fields m).

(** The new edge of [wireField], if any. *)
Definition wires (owner : string) (g : Graph) (f : Field) (a b : string) : Prop :=
  isDependencyField f = true /\ In owner (JsObj.keys g) /\ In b (JsObj.keys g) /\
  a = owner /\ b = ftype f.

(** The schema declares that [a] requires [b]: a descriptor named [a] has a
    required, non-list relation field of type [b], and [b] is a declared type. *)
Definition declares (models : list Model) (a b : string) : Prop :=
  exists m f, In m models /\ mname m = a /\ In f (fields m) /\
              isDependencyField f = true /\ ftype f = b /\
              In b (map mname models).

(** Reading of [wellFormedGraph] as propositions. *)
Record GraphShape (g : Graph) : Prop := mkGraphShape {
  shape_keys : NoDup (JsObj.keys g);
  shape_sets : forall k n, JsObj.get g k = Some n ->
                 NoDup (dependsOn n) /\ NoDup (referencedBy n);
  shape_closed : forall a b, edge g a b -> In b (JsObj.keys g);
  shape_inverse : forall a b, backEdge g b a <-> edge g a b
}.

(** *** Invariants of Kahn's loop *)

(** [seen] lists the names dequeued or still queued.  The counters that are
    numbers are those of the keys of the graph, and a name has been seen
    exactly when its counter is no longer positive. *)
Record KahnInv (g : Graph) (inDegree : JsObj.t num) (seen : list string) : Prop :=
  mkKahnInv {
  ki_keys : NoDup (JsObj.keys inDegree);
  ki_numeric : forall k,
    (exists z, JsObj.get inDegree k = Some (Num z)) <-> In k (JsObj.keys g);
  ki_nodup : NoDup seen;
  ki_seen : forall k,
    In k seen <-> exists z, JsObj.get inDegree k = Some (Num z) /\ (z <= 0)%Z
}.

(** The dependencies of a node that are not in [sorted] yet. *)
Definition unmet (sorted : list string) (n : Node) : list string :=
  filter (fun b => negb (mem b sorted)) (dependsOn n).

Definition indicator (b : bool) : Z := if b then 1%Z else 0%Z.

(** While the names [visited] referencing the current node have been
    decremented: every counter is the number of unmet dependencies, less one
    for a visited name. *)
Definition DegreeInv (g : Graph) (inDegree : JsObj.t num)
  (sorted visited : list string) : Prop :=
  forall a n, JsObj.get g a = Some n ->
    JsObj.get inDegree a
    = Some (Num (Z.of_nat (length (unmet sorted n)) - indicator (mem a visited))).

(** Every name was appended after all the names it depends on. *)
Inductive Ordered (g : Graph) : list string -> Prop :=
| Ordered_nil : Ordered g []
| Ordered_snoc l a :
    Ordered g l -> (forall b, edge g a b -> In b l) -> Ordered g (l ++ [a]).

(** A walk along [dependsOn] edges starting at [a]. *)
Inductive walk (g : Graph) : string -> list string -> Prop :=
| walk_nil a : walk g a []
| walk_cons a b l : edge g a b -> walk g b l -> walk g a (b :: l).

(** A ranking that decreases along every edge. *)
Definition rankedb (g : Graph) (rank : string -> nat) : bool :=
  forallb
    (fun kn => forallb (fun b => (rank b <? rank (fst kn))%nat) (dependsOn (snd kn)))
    g.

(** The queue at the start of [topologicalSort]. *)
Definition initQueue (graph : Graph) : list string :=
  filter (isZero (initInDegree graph)) (JsObj.keys (initInDegree graph)).

(** Two types that require each other, next to the blog types. *)
Definition husbandModel : Model :=
  mkModel "Husband"
    [ scalarField "id" "Int" true true;
      scalarField "wifeId" "Int" false true;
      relationField "wife" "Wife" true ["wifeId"] ["id"] ].

Definition wifeModel : Model :=
  mkModel "Wife"
    [ scalarField "id" "Int" true true;
      scalarField "husbandId" "Int" false true;
      relationField "husband" "Husband" true ["husbandId"] ["id"] ].

Definition cyclicSchema : list Model :=
  [husbandModel; postModel; wifeModel; userModel; levelModel].

(** A ranking of the blog types along their dependencies. *)
Definition blogRank (name : string) : nat :=
  if String.eqb name "Post" then 2
  else if String.eqb name "User" then 1
  else 0.

(** *** Vocabulary for the engine *)

Section EngineVocabulary.

Variable W : Type.

(** [m] returns or throws, and leaves the trace as it is. *)
Definition quiet {A : Type} (m : M W A) : Prop :=
  forall s, fst (m s) <> OutOfFuel /\ trace (snd (m s)) = trace s.

(** [m] returns or throws, and extends the trace by events that satisfy [P]. *)
Definition emitsOnly (P : Event -> Prop) {A : Type} (m : M W A) : Prop :=
  forall s, fst (m s) <> OutOfFuel /\
            exists t, trace (snd (m s)) = trace s ++ t /\ Forall P t.

End EngineVocabulary.

Arguments quiet {W A} m.
Arguments emitsOnly {W} P {A} m.

Definition notPassStart (e : Event) : Prop :=
  match e with
  | LogPassStart _ => False
  | _ => True
  end.

Definition notDisconnect (e : Event) : Prop := isDisconnect e = false.

(** The run-state invariant: the flag says whether a record exists, and there
    is at most one record. *)
Definition entryOk (entry : ModelData) : Prop :=
  (created entry = true <-> createdRecords entry <> []) /\
  length (createdRecords entry) <= 1.

Definition runStateOk (modelDataMap : ModelDataMap) : Prop :=
  forall name entry, JsObj.get modelDataMap name = Some entry -> entryOk entry.

(** The payload gives no connect instruction to a relation field of [m] whose
    target is [modelName] itself. *)
Definition noSelfConnect (modelName : string) (m : Model) (data : Obj) : Prop :=
  forall f, In f (fields m) -> kind f = KObject -> ftype f = modelName ->
            isConnect (prop data (fname f)) = false.

(** What a trace says about the passes of the loop: it starts with a pass (or
    is empty), holds at most [n] passes, and every pass that is followed by
    another one has created a record. *)
Definition PassLog (n : nat) (t : list Event) : Prop :=
  passEvents t = [] /\
  length (passesOf t) <= n /\
  forall i, S i < length (passesOf t) ->
            existsb isCreation (nth i (passesOf t) []) = true.

(** The ways an attempt of the pass loop on [name] can go, from the run state
    [mdm], the flag [flag] of the pass and the state [s]. *)
Inductive attemptSpec {W : Type} (env : Env W)
  (assemble : ModelDataMap -> string -> M W Obj)
  (mdm : ModelDataMap) (flag : bool) (name : string) (s : Sys W)
  : outcome (ModelDataMap * bool) * Sys W -> Prop :=
| attempt_missing e :
    JsObj.get mdm name = None ->
    attemptSpec env assemble mdm flag name s (Throw e, s)
| attempt_skipped entry :
    JsObj.get mdm name = Some entry -> created entry = true ->
    attemptSpec env assemble mdm flag name s (Ret (mdm, flag), s)
| attempt_unassembled entry e s1 :
    JsObj.get mdm name = Some entry -> created entry = false ->
    assemble mdm name s = (Throw e, s1) ->
    attemptSpec env assemble mdm flag name s (Throw e, s1)
| attempt_created entry data s1 rec w :
    JsObj.get mdm name = Some entry -> created entry = false ->
    assemble mdm name s = (Ret data, s1) ->
    prisma_create env name data (ext s1) = (inl rec, w) ->
    attemptSpec env assemble mdm flag name s
      (Ret (JsObj.update (JsObj.update mdm name (pushRecord rec)) name markCreated, true),
       mkSys w (trace s1 ++ [CallCreate name data (inl rec)]))
| attempt_deferred entry data s1 e w :
    JsObj.get mdm name = Some entry -> created entry = false ->
    assemble mdm name s = (Ret data, s1) ->
    prisma_create env name data (ext s1) = (inr e, w) ->
    attemptSpec env assemble mdm flag name s
      (Ret (mdm, flag), mkSys w (trace s1 ++ [CallCreate name data (inr e)])).

(** The events the pass loop itself may add to those of the attempts. *)
Definition loopEvent (P : Event -> Prop) (e : Event) : Prop :=
  P e \/ e = LogNoProgress \/ exists pass, e = LogPassStart pass.

(** The events of an attempt: calls to [create], nothing else. *)
Definition attemptEvent (e : Event) : Prop :=
  match e with
  | CallCreate _ _ _ => True
  | _ => False
  end.

(** [m] returns a value, whatever the state. *)
Definition returns {W A : Type} (m : M W A) : Prop :=
  forall s, exists a s', m s = (Ret a, s').

(** The [connect] object built from the keys [rks] and the record [r]. *)
Definition connectObject (rks : list string) (r : Obj) : Obj :=
  fold_left (fun c rk => JsObj.set c rk (prop r rk)) rks [].

(** A call to [create] of the main loop whose payload connects no relation
    field to the type itself, for the descriptor stored under its name in
    [mdm0]. *)
Definition selfFree (mdm0 : ModelDataMap) (e : Event) : Prop :=
  match e with
  | CallCreate name data _ =>
      forall entry, JsObj.get mdm0 name = Some entry ->
                    noSelfConnect name (model entry) data
  | _ => False
  end.

(** The run state still holds the descriptors of [mdm0]. *)
Definition sameModels (mdm0 mdm : ModelDataMap) : Prop :=
  forall k entry, JsObj.get mdm k = Some entry ->
                  exists entry0, JsObj.get mdm0 k = Some entry0 /\
                                 model entry = model entry0.

(** An employee and an optional manager: a self-relation that the store does
    not require. *)
Definition employeeModel : Model :=
  mkModel "Employee"
    [ scalarField "id" "Int" true true;
      scalarField "managerId" "Int" false false;
      relationField "manager" "Employee" false ["managerId"] ["id"];
      listRelationField "reports" "Employee" ].

(** All the orders in which a list can be written. *)
Fixpoint insertions {A : Type} (x : A) (l : list A) : list (list A) :=
  match l with
  | [] => [[x]]
  | y :: l' => (x :: l) :: map (cons y) (insertions x l')
  end.

Fixpoint orderings {A : Type} (l : list A) : list (list A) :=
  match l with
  | [] => [[]]
  | x :: l' => flat_map (insertions x) (orderings l')
  end.

(** A run of the main loop on [models], against the reference store for
    [models]: every name of [names] ends up created with one record, the
    passes are [passes] (whether each created a record), and all the
    creations happen in the first pass. *)
Definition allCreatedInFirstPass (models : list Model) (names : list string)
  (maxPasses : Z) : bool :=
  let env := strictStore models in
  let r := multiPassCreate env (buildCreationData env) models maxPasses (start 0) in
  match fst r with
  | Ret mdm =>
      forallb (fun k => isCreated mdm k && (recordCount mdm k =? 1)%nat) names &&
      match passesOf (trace (snd r)) with
      | [first; second] =>
          (length (filter isCreation first) =? length names)%nat &&
          negb (existsb isCreation second)
      | _ => false
      end
  | _ => false
  end.

(** The invariant of the main loop: the run-state invariant, on the
    descriptors of [mdm0]. *)
Definition mainLoopInv (mdm0 mdm : ModelDataMap) : Prop :=
  runStateOk mdm /\ sameModels mdm0 mdm.

(** Case analysis on every test of the goal. *)
Ltac split_ifs :=
  repeat match goal with
         | |- context [if ?c then _ else _] => destruct c
         end.

(** ** The other variants of the self-relation step and of the entry operation *)

Section Variants.

Variable W : Type.
Variable env : Env W.

(** [updateSelfRelationForAllRecords] of the second variant: one update per
    created record, each inside its own [try ... catch]; the updated records
    are not kept. *)
Definition updateSelfRelationForAllRecords (modelDataMap : ModelDataMap)
  (modelName : string) : M W unit :=
  match JsObj.get modelDataMap modelName with
  | None => throw (TypeError "modelDataMap[modelName] is undefined")
  | Some entry =>
      match createdRecords entry with
      | [] => ret tt
      | firstRecord :: _ =>
          match find (isSelfRelationField modelName) (fields (model entry)) with
          | None => ret tt
          | Some selfRelationField =>
              forEach
                (fun (_ : unit) record =>
                   tryCatch
                     (c <- lift (connectByKey (relationToFields selfRelationField)
                                              (Some firstRecord)) ;;
                      callUpdate env modelName
                        [("id", prop record "id")]
                        [(fname selfRelationField, c)] ;;
                      ret tt)
                     (fun err => ret tt))
                (createdRecords entry) tt
          end
      end
  end.

(** Body of [for (const modelName in modelDataMap)] in the second variant. *)
Definition refreshSelfRelation (modelDataMap : ModelDataMap) (_ : unit)
  (modelName : string) : M W unit :=
  match JsObj.get modelDataMap modelName with
  | None => throw (TypeError "modelDataMap[modelName] is undefined")
  | Some entry =>
      if isSelfRelationModel (model entry)
      then updateSelfRelationForAllRecords modelDataMap modelName
      else ret tt
  end.

(** [generateSeedData] of the second variant. *)
Definition generateSeedData2 (seedPath : string) : M W unit :=
  tryFinally
    (tryCatch
       (models <- callLoad env seedPath ;;
        modelDataMap <- multiPassCreate env (buildCreationData env) models 5 ;;
        forEach (refreshSelfRelation modelDataMap) (JsObj.keys modelDataMap) tt ;;
        emit LogSeedDone)
       (fun error => emit (LogSeedError error) ;; throw error))
    (callDisconnect env).

(** [generateSeedData] of the third variant: no self-relation step. *)
Definition generateSeedData3 (seedPath : string) : M W unit :=
  tryFinally
    (tryCatch
       (models <- callLoad env seedPath ;;
        multiPassCreate env (assembleInline env) models 5 ;;
        emit LogSeedDone)
       (fun error => emit (LogSeedError error) ;; throw error))
    (callDisconnect env).

End Variants.

(** ** Vocabulary of the further statements *)

(** The distinct elements of a list of names, in order of first occurrence. *)
Definition firstOccurrences (l : list string) : list string :=
  fold_left (fun acc x => set_add x acc) l [].

(** The keys of a graph whose node has no dependency. *)
Definition rootsOf (g : Graph) : list string :=
  filter
    (fun k => match JsObj.get g k with
              | Some n => (length (dependsOn n) =? 0)%nat
              | None => false
              end)
    (JsObj.keys g).

(** The keys of a graph that [sorted] leaves out, in the order of the keys. *)
Definition leftOut (g : Graph) (sorted : list string) : list string :=
  filter (fun k => negb (mem k sorted)) (JsObj.keys g).

(** A field that payload assembly may give a value to, in the first two
    variants: a scalar column that is neither read-only nor a foreign key, or
    a non-list relation to another type that holds the foreign key. *)
Definition assignable (modelName : string) (m : Model) (f : Field) : bool :=
  match kind f with
  | KScalar => negb (isReadOnly f) && negb (isForeignKey m f)
  | KObject =>
      negb (String.eqb (ftype f) modelName) && negb (isList f) &&
      match relationFromFields f with
      | Some (_ :: _) => true
      | _ => false
      end
  | _ => false
  end.

(** The update that connects [record] to [first] through the field [f]. *)
Definition selfUpdate (modelName : string) (f : Field) (rks : list string)
  (first record : Obj) (e : Event) : Prop :=
  exists res,
    e = CallUpdate modelName [("id", prop record "id")]
          [(fname f, VObj [("connect", VObj (connectObject rks first))])] res.

(** [mdm'] is [mdm] with the records [added] appended to those of [name]. *)
Definition appended (name : string) (added : list Obj) (mdm mdm' : ModelDataMap)
  : Prop :=
  JsObj.keys mdm' = JsObj.keys mdm /\
  (forall k, k <> name -> JsObj.get mdm' k = JsObj.get mdm k) /\
  forall entry, JsObj.get mdm name = Some entry ->
    JsObj.get mdm' name
    = Some (mkModelData (model entry) (createdRecords entry ++ added) (created entry)).

(** [mdm'] is [mdm] with records appended to types that have a non-list
    relation to themselves, up to two records per type. *)
Definition grown (mdm mdm' : ModelDataMap) : Prop :=
  JsObj.keys mdm' = JsObj.keys mdm /\
  forall k entry, JsObj.get mdm k = Some entry ->
    exists added,
      JsObj.get mdm' k
      = Some (mkModelData (model entry) (createdRecords entry ++ added) (created entry)) /\
      (isSelfRelationModel (model entry) = false -> added = []) /\
      length (createdRecords entry ++ added) <= Nat.max 2 (length (createdRecords entry)).

(** The number of types of a run state whose [created] flag is set. *)
Definition createdCount (mdm : ModelDataMap) : nat :=
  length (filter (fun kv => created (snd kv)) mdm).

(** A relation field as the schema tool emits them: [relationToFields] is
    defined, and a required non-list relation targets a declared type and
    holds the foreign key. *)
Definition linkedField (names : list string) (f : Field) : bool :=
  implb (FieldKind_eqb (kind f) KObject)
        (match relationToFields f with Some _ => true | None => false end) &&
  implb (isDependencyField f)
        (mem (ftype f) names &&
         match relationFromFields f with Some (_ :: _) => true | _ => false end).

(** Distinct type names, distinct field names in every type, and linked
    relation fields. *)
Definition linkedSchema (models : list Model) : bool :=
  nodupb (map mname models) &&
  forallb
    (fun m => nodupb (map fname (fields m)) &&
              forallb (linkedField (map mname models)) (fields m))
    models.

(** The store accepts the creation of a record of every type of [models]
    whose payload connects all the required relations of the type. *)
Definition accepting {W : Type} (env : Env W) (models : list Model) : Prop :=
  forall m data w, In m models -> requiredConnected m data = true ->
    exists rec w', prisma_create env (mname m) data w = (inl rec, w').

(** An event that is not a creation the store rejected. *)
Definition notRejected (e : Event) : Prop :=
  match e with
  | CallCreate _ _ (inr _) => False
  | _ => True
  end.

(** The run state while the first pass has attempted the names [done] and
    the store accepted each creation. *)
Definition firstPassState (models : list Model) (done : list string)
  (mdm : ModelDataMap) : Prop :=
  JsObj.keys mdm = JsObj.keys (initModelDataMap models) /\
  forall k entry0, JsObj.get (initModelDataMap models) k = Some entry0 ->
    exists entry,
      JsObj.get mdm k = Some entry /\ model entry = model entry0 /\
      if mem k done
      then created entry = true /\ length (createdRecords entry) = 1
      else created entry = false /\ createdRecords entry = [].

(** The run state holds the types of [models], under their names. *)
Definition stateOf (models : list Model) (mdm : ModelDataMap) : Prop :=
  JsObj.keys mdm = JsObj.keys (initModelDataMap models) /\
  forall k entry, JsObj.get mdm k = Some entry -> In (model entry) models.

(** The store rejects the creation of a record of every type of [models]
    whose payload leaves a required relation of the type unconnected. *)
Definition strict {W : Type} (env : Env W) (models : list Model) : Prop :=
  forall m data w, In m models -> requiredConnected m data = false ->
    exists e w', prisma_create env (mname m) data w = (inr e, w').

(** [l] lists the types marked created, each after the types it requires. *)
Definition creationOrder (models : list Model) (mdm : ModelDataMap)
  (l : list string) : Prop :=
  Ordered (buildDependencyGraph models) l /\ NoDup l /\
  forall k, In k l <-> isCreated mdm k = true.

(** The invariant of the main loop against a strict store. *)
Definition strictLoopInv (models : list Model) (mdm : ModelDataMap) : Prop :=
  mainLoopInv (initModelDataMap models) mdm /\ exists l, creationOrder models mdm l.

(** A field that the payload assembly inlined in the third variant may give a
    value to: a scalar column that is not read-only, foreign keys included,
    or a non-list relation that holds the foreign key, relations of the type
    to itself included. *)
Definition assignableInline (f : Field) : bool :=
  match kind f with
  | KScalar => negb (isReadOnly f)
  | KObject =>
      negb (isList f) &&
      match relationFromFields f with
      | Some (_ :: _) => true
      | _ => false
      end
  | _ => false
  end.

(** The type names of the creations a trace sends to the store, in order. *)
Definition attempted (t : list Event) : list string :=
  flat_map (fun e => match e with
                     | CallCreate modelName _ _ => [modelName]
                     | _ => []
                     end) t.

(** * Properties *)

Unset Implicit Arguments.

(** ** Objects, name lists and sets *)

Lemma mem_In (x : string) (l : list string) : mem x l = true <-> In x l.
Proof.
  unfold mem. rewrite existsb_exists. split.
  - intros [y [Hy He]]. apply String.eqb_eq in He. now subst.
  - intros H. exists x. split; [assumption | apply String.eqb_refl].
Qed.

Lemma mem_false (x : string) (l : list string) : mem x l = false <-> ~ In x l.
Proof.
  rewrite <- mem_In. destruct (mem x l); split; congruence.
Qed.

Lemma set_add_In (x y : string) (s : list string) :
  In y (set_add x s) <-> y = x \/ In y s.
Proof.
  unfold set_add. destruct (mem x s) eqn:E.
  - apply mem_In in E. split; [now right | intros [-> | H]; assumption].
  - rewrite in_app_iff. simpl. intuition congruence.
Qed.

Lemma set_add_NoDup (x : string) (s : list string) :
  NoDup s -> NoDup (set_add x s).
Proof.
  intros H. unfold set_add. destruct (mem x s) eqn:E; [assumption |].
  apply mem_false in E. apply NoDup_app; [assumption | repeat constructor; auto | ].
  intros a Ha [<- | []]. contradiction.
Qed.

Module JsObjFacts.
Import JsObj.

Section Facts.
Variable V : Type.
Implicit Types (o : t V) (k : string) (v : V).

Lemma get_set_same o k v : get (set o k v) k = Some v.
Proof.
  induction o as [| [k' v'] o IH]; simpl.
  - now rewrite String.eqb_refl.
  - destruct (String.eqb_spec k' k); simpl.
    + now rewrite String.eqb_refl.
    + destruct (String.eqb_spec k' k); [contradiction | assumption].
Qed.

Lemma get_set_other o k k' v : k <> k' -> get (set o k v) k' = get o k'.
Proof.
  intros Hne. induction o as [| [k0 v0] o IH]; simpl.
  - destruct (String.eqb_spec k k'); [contradiction | reflexivity].
  - destruct (String.eqb_spec k0 k); simpl.
    + subst. destruct (String.eqb_spec k k'); [contradiction | reflexivity].
    + destruct (String.eqb_spec k0 k'); [reflexivity | assumption].
Qed.

Lemma get_set o k k' v :
  get (set o k v) k' = if String.eqb k k' then Some v else get o k'.
Proof.
  destruct (String.eqb_spec k k').
  - subst. apply get_set_same.
  - now apply get_set_other.
Qed.

Lemma get_In_keys o k : get o k <> None <-> In k (keys o).
Proof.
  induction o as [| [k' v'] o IH]; simpl.
  - intuition congruence.
  - destruct (String.eqb_spec k' k).
    + subst. split; [now left | congruence].
    + rewrite IH. intuition congruence.
Qed.

Lemma get_Some_keys o k v : get o k = Some v -> In k (keys o).
Proof. intros H. apply get_In_keys. congruence. Qed.

Lemma keys_get o k : In k (keys o) -> exists v, get o k = Some v.
Proof.
  intros H. apply get_In_keys in H. destruct (get o k) as [v |]; [eauto | congruence].
Qed.

Lemma get_None_keys o k : get o k = None <-> ~ In k (keys o).
Proof.
  rewrite <- get_In_keys. destruct (get o k); split; intros H.
  - discriminate H.
  - exfalso. apply H. discriminate.
  - intros H'. now apply H'.
  - reflexivity.
Qed.

Lemma get_In o k v : get o k = Some v -> In (k, v) o.
Proof.
  induction o as [| [k' v'] o IH]; simpl; [congruence |].
  destruct (String.eqb_spec k' k).
  - intros [= ->]. subst. now left.
  - intros H. right. now apply IH.
Qed.

Lemma In_get o k v : NoDup (keys o) -> In (k, v) o -> get o k = Some v.
Proof.
  induction o as [| [k' v'] o IH]; simpl; [contradiction |].
  intros Hnd [H | H].
  - inversion H; subst. now rewrite String.eqb_refl.
  - inversion Hnd; subst. destruct (String.eqb_spec k' k).
    + subst. exfalso. apply H2. change k with (fst (k, v)). now apply in_map.
    + now apply IH.
Qed.

Lemma keys_set_present o k v : In k (keys o) -> keys (set o k v) = keys o.
Proof.
  induction o as [| [k' v'] o IH]; simpl; [contradiction |].
  intros H. destruct (String.eqb_spec k' k); simpl.
  - now subst.
  - f_equal. apply IH. destruct H; [contradiction | assumption].
Qed.

Lemma keys_set_absent o k v : ~ In k (keys o) -> keys (set o k v) = keys o ++ [k].
Proof.
  induction o as [| [k' v'] o IH]; simpl; [reflexivity |].
  intros H. destruct (String.eqb_spec k' k); simpl.
  - subst. exfalso. apply H. now left.
  - f_equal. apply IH. intuition.
Qed.

Lemma keys_set_In o k k' v : In k' (keys (set o k v)) <-> k' = k \/ In k' (keys o).
Proof.
  destruct (in_dec string_dec k (keys o)) as [H | H].
  - rewrite keys_set_present by assumption. intuition (subst; assumption).
  - rewrite keys_set_absent by assumption. rewrite in_app_iff. simpl. intuition.
Qed.

Lemma keys_set_NoDup o k v : NoDup (keys o) -> NoDup (keys (set o k v)).
Proof.
  intros Hnd. destruct (in_dec string_dec k (keys o)) as [H | H].
  - now rewrite keys_set_present.
  - rewrite keys_set_absent by assumption.
    apply NoDup_app; [assumption | repeat constructor; auto |].
    intros a Ha [<- | []]. contradiction.
Qed.

Lemma keys_update o k (f : V -> V) : keys (update o k f) = keys o.
Proof.
  unfold update. destruct (get o k) eqn:E; [| reflexivity].
  apply keys_set_present. eapply get_Some_keys; eauto.
Qed.

Lemma get_update o k k' (f : V -> V) :
  get (update o k f) k' =
  if String.eqb k k' then option_map f (get o k') else get o k'.
Proof.
  unfold update. destruct (get o k) eqn:E.
  - rewrite get_set. destruct (String.eqb_spec k k'); [subst; now rewrite E | reflexivity].
  - destruct (String.eqb_spec k k'); [subst; now rewrite E | reflexivity].
Qed.

End Facts.
End JsObjFacts.
Import JsObjFacts.

(** ** The dependency graph builder *)

Section GraphBuilder.
Import JsObj.

Lemma initGraph_acc (models : list Model) (g : Graph) :
  let g' := fold_left (fun g m => set g (mname m) (mkNode (mname m) [] [])) models g in
  (NoDup (keys g) -> NoDup (keys g')) /\
  (forall k, In k (keys g') <-> In k (keys g) \/ In k (map mname models)) /\
  ((forall k n, get g k = Some n -> dependsOn n = [] /\ referencedBy n = []) ->
   forall k n, get g' k = Some n -> dependsOn n = [] /\ referencedBy n = []).
Proof.
  revert g. induction models as [| m models IH]; intros g; simpl.
  - intuition.
  - destruct (IH (set g (mname m) (mkNode (mname m) [] []))) as (H1 & H2 & H3).
    split; [| split].
    + intros Hnd. apply H1. now apply keys_set_NoDup.
    + intros k. rewrite H2, keys_set_In. intuition.
    + intros Hg. apply H3. intros k n. rewrite get_set.
      destruct (String.eqb_spec (mname m) k).
      * intros [= <-]. now split.
      * apply Hg.
Qed.

Lemma initGraph_NoDup (models : list Model) : NoDup (keys (initGraph models)).
Proof. apply (initGraph_acc models empty). constructor. Qed.

Lemma initGraph_keys (models : list Model) (k : string) :
  In k (keys (initGraph models)) <-> In k (map mname models).
Proof.
  destruct (initGraph_acc models empty) as (_ & H & _).
  unfold initGraph. rewrite H. simpl. intuition.
Qed.

Lemma initGraph_no_edge (models : list Model) (k : string) (n : Node) :
  get (initGraph models) k = Some n -> dependsOn n = [] /\ referencedBy n = [].
Proof.
  apply (initGraph_acc models empty). intros k' n'. discriminate.
Qed.

(** The node found under [a] after wiring one dependency field. *)
Lemma get_wireField (owner : string) (g : Graph) (f : Field) (t : Node) (a : string) :
  isDependencyField f = true ->
  get g (ftype f) = Some t ->
  get (wireField owner g f) a =
  option_map
    (fun n =>
       mkNode (nname n)
         (if String.eqb owner a then set_add (ftype f) (dependsOn n) else dependsOn n)
         (if String.eqb (ftype f) a then set_add owner (referencedBy n) else referencedBy n))
    (get g a).
Proof.
  intros Hd Ht. unfold wireField. rewrite Hd, Ht. rewrite !get_update.
  destruct (String.eqb (ftype f) a), (String.eqb owner a), (get g a) as [[nm d r] |];
    reflexivity.
Qed.

Lemma keys_wireField (owner : string) (g : Graph) (f : Field) :
  keys (wireField owner g f) = keys g.
Proof.
  unfold wireField. destruct (isDependencyField f); [| reflexivity].
  destruct (get g (ftype f)); [| reflexivity].
  now rewrite !keys_update.
Qed.

Lemma edge_wireField (owner : string) (g : Graph) (f : Field) (a b : string) :
  edge (wireField owner g f) a b <-> edge g a b \/ wires owner g f a b.
Proof.
  unfold wires. destruct (isDependencyField f) eqn:Hd.
  2:{ unfold wireField. rewrite Hd. intuition congruence. }
  destruct (get g (ftype f)) as [t |] eqn:Ht.
  2:{ unfold wireField. rewrite Hd, Ht. split; [now left |].
      intros [H | (_ & _ & Hb & _ & ->)]; [assumption |].
      apply get_None_keys in Ht. contradiction. }
  unfold edge. split.
  - intros (n & Hn & Hb). rewrite (get_wireField owner g f t a Hd Ht) in Hn.
    destruct (get g a) as [n0 |] eqn:Ha; [| discriminate].
    simpl in Hn. injection Hn as <-. simpl in Hb.
    destruct (String.eqb_spec owner a).
    + apply set_add_In in Hb. destruct Hb as [-> | Hb].
      * right. subst. repeat split; eauto using get_Some_keys.
      * left. eauto.
    + left. eauto.
  - intros [(n & Hn & Hb) | (_ & Ho & _ & -> & ->)].
    + rewrite (get_wireField owner g f t a Hd Ht), Hn. simpl.
      eexists. split; [reflexivity |]. simpl.
      destruct (String.eqb owner a); [apply set_add_In; now right | assumption].
    + apply keys_get in Ho. destruct Ho as [n Hn].
      rewrite (get_wireField owner g f t owner Hd Ht), Hn. simpl.
      eexists. split; [reflexivity |]. simpl. rewrite String.eqb_refl.
      apply set_add_In. now left.
Qed.

Lemma backEdge_wireField (owner : string) (g : Graph) (f : Field) (a b : string) :
  In owner (keys g) ->
  backEdge (wireField owner g f) b a <-> backEdge g b a \/ wires owner g f a b.
Proof.
  intros Hown. unfold wires. destruct (isDependencyField f) eqn:Hd.
  2:{ unfold wireField. rewrite Hd. intuition congruence. }
  destruct (get g (ftype f)) as [t |] eqn:Ht.
  2:{ unfold wireField. rewrite Hd, Ht. split; [now left |].
      intros [H | (_ & _ & Hb & _ & ->)]; [assumption |].
      apply get_None_keys in Ht. contradiction. }
  unfold backEdge. split.
  - intros (n & Hn & Hb). rewrite (get_wireField owner g f t b Hd Ht) in Hn.
    destruct (get g b) as [n0 |] eqn:Ha; [| discriminate].
    simpl in Hn. injection Hn as <-. simpl in Hb.
    destruct (String.eqb_spec (ftype f) b).
    + apply set_add_In in Hb. destruct Hb as [-> | Hb].
      * right. subst. repeat split; eauto using get_Some_keys.
      * left. eauto.
    + left. eauto.
  - intros [(n & Hn & Hb) | (_ & Ho & _ & -> & ->)].
    + rewrite (get_wireField owner g f t b Hd Ht), Hn. simpl.
      eexists. split; [reflexivity |]. simpl.
      destruct (String.eqb (ftype f) b); [apply set_add_In; now right | assumption].
    + rewrite (get_wireField owner g f t (ftype f) Hd Ht), Ht. simpl.
      eexists. split; [reflexivity |]. simpl. rewrite String.eqb_refl.
      apply set_add_In. now left.
Qed.

End GraphBuilder.

Section GraphShape.
Import JsObj.

Lemma fold_left_invariant {A B : Type} (P : A -> Prop) (f : A -> B -> A) (l : list B) :
  (forall acc x, In x l -> P acc -> P (f acc x)) ->
  forall acc, P acc -> P (fold_left f l acc).
Proof.
  induction l as [| x l IH]; intros Hstep acc Hacc; simpl; [assumption |].
  apply IH.
  - intros acc' y Hy. apply Hstep. now right.
  - apply Hstep; [now left | assumption].
Qed.

Lemma nodupb_NoDup (l : list string) : nodupb l = true <-> NoDup l.
Proof.
  induction l as [| x l IH]; simpl.
  - split; [constructor | reflexivity].
  - rewrite andb_true_iff, negb_true_iff, mem_false, IH. split.
    + intros [H1 H2]. now constructor.
    + intros H. inversion H; subst. now split.
Qed.

Lemma wellFormedGraph_shape (g : Graph) :
  wellFormedGraph g = true <-> GraphShape g.
Proof.
  unfold wellFormedGraph. rewrite andb_true_iff, nodupb_NoDup, forallb_forall.
  split.
  - intros [Hk Hn].
    assert (Hnode : forall k n, get g k = Some n -> wellFormedNode g (k, n) = true).
    { intros k n H. apply Hn. now apply get_In. }
    split; [assumption | | |].
    + intros k n H. specialize (Hnode k n H). unfold wellFormedNode in Hnode.
      rewrite !andb_true_iff, !nodupb_NoDup in Hnode. tauto.
    + intros a b (n & Hn' & Hb). specialize (Hnode a n Hn').
      unfold wellFormedNode in Hnode. rewrite !andb_true_iff, !forallb_forall in Hnode.
      destruct Hnode as [[_ Hd] _]. specialize (Hd b Hb). simpl in Hd.
      destruct (get g b) eqn:E; [| discriminate]. eapply get_Some_keys; eauto.
    + intros a b. split.
      * intros (n & Hn' & Ha). specialize (Hnode b n Hn').
        unfold wellFormedNode in Hnode. rewrite !andb_true_iff, !forallb_forall in Hnode.
        destruct Hnode as [_ Hr]. specialize (Hr a Ha). simpl in Hr.
        destruct (get g a) as [na |] eqn:E; [| discriminate].
        exists na. split; [exact E | now apply mem_In].
      * intros (n & Hn' & Hb). specialize (Hnode a n Hn').
        unfold wellFormedNode in Hnode. rewrite !andb_true_iff, !forallb_forall in Hnode.
        destruct Hnode as [[_ Hd] _]. specialize (Hd b Hb). simpl in Hd.
        destruct (get g b) as [nb |] eqn:E; [| discriminate].
        exists nb. split; [exact E | now apply mem_In].
  - intros [Hk Hs Hc Hi]. split; [assumption |].
    intros [k n] Hin. apply In_get in Hin; [| assumption].
    unfold wellFormedNode. simpl.
    rewrite !andb_true_iff, !nodupb_NoDup, !forallb_forall.
    destruct (Hs k n Hin) as [Hd Hr]. repeat split; try assumption.
    + intros b Hb. assert (He : edge g k b) by (exists n; auto).
      apply Hi in He. destruct He as (nb & -> & Hm). now apply mem_In.
    + intros a Ha. assert (He : backEdge g k a) by (exists n; auto).
      apply Hi in He. destruct He as (na & -> & Hm). now apply mem_In.
Qed.

Lemma wireField_shape (owner : string) (g : Graph) (f : Field) :
  In owner (keys g) -> GraphShape g -> GraphShape (wireField owner g f).
Proof.
  intros Hown [Hk Hs Hc Hi]. split.
  - now rewrite keys_wireField.
  - intros k n. unfold wireField.
    destruct (isDependencyField f) eqn:Hd; [| apply Hs].
    destruct (get g (ftype f)) as [t |] eqn:Ht; [| apply Hs].
    fold (wireField owner g f).
    assert (E := get_wireField owner g f t k Hd Ht).
    unfold wireField in E. rewrite Hd, Ht in E. rewrite E. clear E.
    destruct (get g k) as [n0 |] eqn:E0; [| discriminate].
    simpl. intros [= <-]. simpl. destruct (Hs k n0 E0) as [H1 H2].
    split.
    + destruct (String.eqb owner k); [now apply set_add_NoDup | assumption].
    + destruct (String.eqb (ftype f) k); [now apply set_add_NoDup | assumption].
  - intros a b. rewrite edge_wireField, keys_wireField.
    intros [H | (_ & _ & H & _)]; [eapply Hc; eauto | assumption].
  - intros a b. rewrite edge_wireField, backEdge_wireField by assumption.
    now rewrite Hi.
Qed.

Lemma wireModel_shape (g : Graph) (m : Model) :
  In (mname m) (keys g) -> GraphShape g ->
  GraphShape (wireModel g m) /\ keys (wireModel g m) = keys g.
Proof.
  intros Hown Hg. unfold wireModel.
  apply (fold_left_invariant (fun g' => GraphShape g' /\ keys g' = keys g)).
  - intros acc f _ [Ha Hk]. split.
    + apply wireField_shape; [now rewrite Hk | assumption].
    + now rewrite keys_wireField.
  - now split.
Qed.

Lemma edge_wireModel (g : Graph) (m : Model) (a b : string) :
  edge (wireModel g m) a b <->
  edge g a b \/
  (a = mname m /\ In a (keys g) /\ In b (keys g) /\
   exists f, In f (fields m) /\ isDependencyField f = true /\ ftype f = b).
Proof.
  unfold wireModel. generalize (fields m) as fs. intros fs. revert g.
  induction fs as [| f fs IH]; intros g; simpl.
  - split; [now left |]. intros [H | (_ & _ & _ & f & [] & _)]. assumption.
  - rewrite IH, edge_wireField, keys_wireField. unfold wires. split.
    + intros [[H | (Hd & Ho & Hb & -> & ->)] | (-> & Ha & Hb & f' & Hf' & Hd & <-)].
      * now left.
      * right. repeat split; try assumption. exists f. auto.
      * right. repeat split; try assumption. exists f'. auto.
    + intros [H | (-> & Ha & Hb & f' & [<- | Hf'] & Hd & <-)].
      * left. now left.
      * left. right. repeat split; assumption.
      * right. repeat split; try assumption. exists f'. auto.
Qed.

Lemma buildDependencyGraph_keys (models : list Model) :
  keys (buildDependencyGraph models) = keys (initGraph models).
Proof.
  unfold buildDependencyGraph.
  apply (fold_left_invariant (fun g => keys g = keys (initGraph models))); [| reflexivity].
  intros acc m _ <-. unfold wireModel.
  apply (fold_left_invariant (fun g => keys g = keys acc)); [| reflexivity].
  intros acc' f _ <-. apply keys_wireField.
Qed.

Lemma buildDependencyGraph_names (models : list Model) (k : string) :
  In k (keys (buildDependencyGraph models)) <-> In k (map mname models).
Proof. rewrite buildDependencyGraph_keys. apply initGraph_keys. Qed.

(** The edges of the graph are the required relations that the schema
    declares between its types. *)
Lemma buildDependencyGraph_edges (models : list Model) (a b : string) :
  edge (buildDependencyGraph models) a b <-> declares models a b.
Proof.
  unfold buildDependencyGraph, declares.
  assert (Hgen : forall ms g,
    keys g = keys (initGraph models) ->
    (edge (fold_left wireModel ms g) a b <->
     edge g a b \/
     exists m f, In m ms /\ mname m = a /\ In f (fields m) /\
                 isDependencyField f = true /\ ftype f = b /\
                 In a (map mname models) /\ In b (map mname models))).
  { induction ms as [| m ms IH]; intros g Hk; simpl.
    - split; [now left |]. intros [H | (m & f & [] & _)]. assumption.
    - rewrite IH.
      2:{ rewrite <- Hk. unfold wireModel.
          apply (fold_left_invariant (fun g' => keys g' = keys g)); [| reflexivity].
          intros acc f _ <-. apply keys_wireField. }
      rewrite edge_wireModel, Hk, !initGraph_keys. split.
      + intros [[H | (-> & Ha & Hb & f & Hf & Hd & <-)] | (m' & f & Hm' & H)].
        * now left.
        * right. exists m, f. intuition.
        * right. exists m', f. intuition.
      + intros [H | (m' & f & [<- | Hm'] & <- & Hf & Hd & <- & Ha & Hb)].
        * left. now left.
        * left. right. repeat split; try assumption. exists f. auto.
        * right. exists m', f. intuition. }
  rewrite Hgen by reflexivity. split.
  - intros [(n & Hn & Hb) | (m & f & H)].
    + apply initGraph_no_edge in Hn. destruct Hn as [Hn _]. rewrite Hn in Hb. destruct Hb.
    + exists m, f. intuition.
  - intros (m & f & Hm & Ha & Hf & Hd & Hb & Hin). right. exists m, f.
    repeat split; try assumption. rewrite <- Ha. now apply in_map.
Qed.

(** The graph built from any schema has the shape of a dependency graph. *)
Lemma buildDependencyGraph_shape (models : list Model) :
  GraphShape (buildDependencyGraph models).
Proof.
  unfold buildDependencyGraph.
  cut (GraphShape (fold_left wireModel models (initGraph models)) /\
       keys (fold_left wireModel models (initGraph models)) = keys (initGraph models)).
  { tauto. }
  apply (fold_left_invariant
           (fun g => GraphShape g /\ keys g = keys (initGraph models))).
  - intros acc m Hm [Ha Hk].
    assert (Hin : In (mname m) (keys acc)).
    { rewrite Hk, initGraph_keys. now apply in_map. }
    destruct (wireModel_shape acc m Hin Ha) as [H1 H2]. split; [assumption | congruence].
  - split; [| reflexivity]. split.
    + apply initGraph_NoDup.
    + intros k n H. apply initGraph_no_edge in H. destruct H as [-> ->].
      split; constructor.
    + intros a b (n & Hn & Hb). apply initGraph_no_edge in Hn.
      destruct Hn as [Hn _]. rewrite Hn in Hb. destruct Hb.
    + intros a b. split; intros (n & Hn & Hb); apply initGraph_no_edge in Hn;
        destruct Hn as [H1 H2]; rewrite ?H1, ?H2 in Hb; destruct Hb.
Qed.

End GraphShape.

(** ** Kahn's loop *)

Section Kahn.
Import JsObj.

Lemma initInDegree_acc (l : Graph) (acc : JsObj.t num) :
  let F := fun n : Node => Num (Z.of_nat (length (dependsOn n))) in
  let r := fold_left (fun acc kn => set acc (fst kn) (F (snd kn))) l acc in
  NoDup (keys acc ++ keys l) ->
  keys r = keys acc ++ keys l /\
  forall k, get r k = match get acc k with
                      | Some v => Some v
                      | None => option_map F (get l k)
                      end.
Proof.
  intros F. revert acc. induction l as [| [k0 n0] l IH]; intros acc; simpl; intros Hnd.
  - rewrite app_nil_r. split; [reflexivity |]. intros k. now destruct (get acc k).
  - assert (Hk0 : ~ In k0 (keys acc)).
    { intros Hin. apply NoDup_remove_2 in Hnd. apply Hnd, in_or_app. now left. }
    assert (Hnd' : NoDup (keys (set acc k0 (F n0)) ++ keys l)).
    { rewrite keys_set_absent by assumption. now rewrite <- app_assoc. }
    destruct (IH _ Hnd') as [H1 H2]. split.
    + rewrite H1, keys_set_absent by assumption. now rewrite <- app_assoc.
    + intros k. rewrite H2, get_set. destruct (String.eqb_spec k0 k).
      * subst. apply get_None_keys in Hk0. now rewrite Hk0.
      * reflexivity.
Qed.

Lemma initInDegree_keys (g : Graph) :
  NoDup (keys g) -> keys (initInDegree g) = keys g.
Proof. intros H. now apply (initInDegree_acc g empty). Qed.

Lemma initInDegree_get (g : Graph) (k : string) :
  NoDup (keys g) ->
  get (initInDegree g) k
  = option_map (fun n => Num (Z.of_nat (length (dependsOn n)))) (get g k).
Proof. intros H. now apply (initInDegree_acc g empty). Qed.

Lemma isZero_spec (inDegree : JsObj.t num) (k : string) :
  isZero inDegree k = true <-> get inDegree k = Some (Num 0).
Proof.
  unfold isZero. destruct (get inDegree k) as [[z |] |].
  - rewrite Z.eqb_eq. split; [now intros -> | now intros [= ->]].
  - split; discriminate.
  - split; discriminate.
Qed.

Lemma isPositive_spec (inDegree : JsObj.t num) (k : string) :
  isPositive inDegree k = true <-> exists z, get inDegree k = Some (Num z) /\ (0 < z)%Z.
Proof.
  unfold isPositive. destruct (get inDegree k) as [[z |] |].
  - rewrite Z.ltb_lt. split; [eauto | now intros (z' & [= <-] & H)].
  - split; [discriminate | now intros (z' & [=] & _)].
  - split; [discriminate | now intros (z' & [=] & _)].
Qed.

Variable g : Graph.
Hypothesis g_keys : NoDup (keys g).

Lemma KahnInv_init : KahnInv g (initInDegree g) ([] ++ initQueue g).
Proof.
  unfold initQueue. simpl. split.
  - now rewrite initInDegree_keys.
  - intros k. rewrite initInDegree_get by assumption. split.
    + intros [z Hz]. destruct (get g k) eqn:E; [| discriminate].
      eapply get_Some_keys; eauto.
    + intros Hin. apply keys_get in Hin. destruct Hin as [n ->]. simpl. eauto.
  - apply NoDup_filter. now rewrite initInDegree_keys.
  - intros k. rewrite filter_In, isZero_spec. split.
    + intros [_ H]. exists 0%Z. split; [assumption | lia].
    + intros (z & Hz & Hle). rewrite initInDegree_get in Hz |- * by assumption.
      destruct (get g k) as [n |] eqn:E; [| discriminate]. simpl in *.
      injection Hz as <-. split.
      * rewrite initInDegree_keys by assumption. eapply get_Some_keys; eauto.
      * do 2 f_equal. lia.
Qed.

Lemma visit_KahnInv (inDegree : JsObj.t num) (queue done : list string) (ref : string) :
  KahnInv g inDegree (done ++ queue) ->
  KahnInv g (fst (visit (inDegree, queue) ref))
            (done ++ snd (visit (inDegree, queue) ref)).
Proof.
  intros [Hk Hnum Hnd Hseen]. unfold visit. simpl.
  set (v := decr (get inDegree ref)).
  assert (Hz : isZero (set inDegree ref v) ref
               = match v with Num z => (z =? 0)%Z | NaN => false end).
  { unfold isZero. now rewrite get_set_same. }
  assert (Hget : forall k, get (set inDegree ref v) k
                           = if String.eqb ref k then Some v else get inDegree k).
  { intros k. apply get_set. }
  rewrite Hz. clear Hz.
  destruct (get inDegree ref) as [[z |] |] eqn:Eref; simpl in v; subst v.
  - (* a counter that is a number *)
    assert (Hrefseen : In ref (done ++ queue) <-> (z <= 0)%Z).
    { rewrite Hseen. split.
      - intros (z' & Hz' & Hle). congruence.
      - intros Hle. eauto. }
    simpl. destruct (Z.eqb_spec (z - 1) 0) as [Ez | Hne]; simpl.
    + assert (Hnew : ~ In ref (done ++ queue)) by (rewrite Hrefseen; lia).
      split.
      * now apply keys_set_NoDup.
      * intros k. rewrite Hget. destruct (String.eqb_spec ref k).
        -- subst k. split; [intros _; apply Hnum; eauto | eauto].
        -- apply Hnum.
      * rewrite app_assoc. apply NoDup_app; [assumption | repeat constructor; auto |].
        intros a Ha [<- | []]. contradiction.
      * intros k. rewrite app_assoc, in_app_iff, Hget. simpl.
        destruct (String.eqb_spec ref k).
        -- subst k. split; [| auto]. intros _. exists (z - 1)%Z. split; [reflexivity | lia].
        -- rewrite Hseen. intuition congruence.
    + split.
      * now apply keys_set_NoDup.
      * intros k. rewrite Hget. destruct (String.eqb_spec ref k).
        -- subst k. split; [intros _; apply Hnum; eauto | eauto].
        -- apply Hnum.
      * assumption.
      * intros k. rewrite Hget. destruct (String.eqb_spec ref k).
        -- subst k. rewrite Hrefseen. split.
           ++ intros Hle. exists (z - 1)%Z. split; [reflexivity | lia].
           ++ intros (z' & [= <-] & Hle). lia.
        -- apply Hseen.
  - (* NaN stays NaN *)
    split.
    + now apply keys_set_NoDup.
    + intros k. rewrite Hget. destruct (String.eqb_spec ref k).
      * subst k. rewrite <- Hnum, Eref. split; intros [z' Hz']; discriminate.
      * apply Hnum.
    + assumption.
    + intros k. rewrite Hget. destruct (String.eqb_spec ref k).
      * subst k. rewrite Hseen, Eref. split; intros (z' & Hz' & _); discriminate.
      * apply Hseen.
  - (* a name that is not a key: its counter becomes NaN *)
    split.
    + now apply keys_set_NoDup.
    + intros k. rewrite Hget. destruct (String.eqb_spec ref k).
      * subst k. rewrite <- Hnum, Eref. split; intros [z' Hz']; discriminate.
      * apply Hnum.
    + assumption.
    + intros k. rewrite Hget. destruct (String.eqb_spec ref k).
      * subst k. rewrite Hseen, Eref. split; intros (z' & Hz' & _); discriminate.
      * apply Hseen.
Qed.

Lemma visits_KahnInv (refs : list string) (inDegree : JsObj.t num)
  (queue done : list string) :
  KahnInv g inDegree (done ++ queue) ->
  KahnInv g (fst (fold_left visit refs (inDegree, queue)))
            (done ++ snd (fold_left visit refs (inDegree, queue))).
Proof.
  revert inDegree queue. induction refs as [| r refs IH]; intros inDegree queue H.
  - assumption.
  - simpl. specialize (IH (fst (visit (inDegree, queue) r)) (snd (visit (inDegree, queue) r))).
    rewrite <- surjective_pairing in IH. apply IH. now apply visit_KahnInv.
Qed.

End Kahn.

Section KahnTotal.
Import JsObj.

Variable g : Graph.
Hypothesis g_keys : NoDup (keys g).

Lemma KahnInv_seen_keys (inDegree : JsObj.t num) (seen : list string) :
  KahnInv g inDegree seen -> incl seen (keys g).
Proof.
  intros [_ Hnum _ Hseen] k Hk. apply Hnum. apply Hseen in Hk.
  destruct Hk as (z & Hz & _). eauto.
Qed.

(** The loop returns within [length (keys g)] iterations, and its invariant
    holds of what it returns. *)
Lemma kahn_returns (fuel : nat) :
  forall (inDegree : JsObj.t num) (queue sorted : list string),
    KahnInv g inDegree (sorted ++ queue) ->
    length (keys g) <= fuel + length sorted ->
    exists inDegree' sorted',
      kahn fuel g inDegree queue sorted = Ret (inDegree', sorted') /\
      KahnInv g inDegree' sorted'.
Proof.
  induction fuel as [| fuel IH]; intros inDegree queue sorted Hinv Hlen;
    destruct queue as [| current queue].
  - rewrite app_nil_r in Hinv. simpl. eauto.
  - exfalso. assert (Hle := NoDup_incl_length (ki_nodup Hinv) (KahnInv_seen_keys _ _ Hinv)).
    rewrite length_app in Hle. simpl in Hle. lia.
  - rewrite app_nil_r in Hinv. simpl. eauto.
  - simpl.
    assert (Hcur : In current (keys g)).
    { apply (KahnInv_seen_keys _ _ Hinv). apply in_or_app. right. now left. }
    apply keys_get in Hcur. destruct Hcur as [node Hnode]. rewrite Hnode.
    apply IH.
    + apply visits_KahnInv. rewrite <- app_assoc. exact Hinv.
    + rewrite length_app. simpl. lia.
Qed.

Lemma KahnInv_final (inDegree : JsObj.t num) (sorted : list string) :
  KahnInv g inDegree sorted ->
  let remaining := filter (isPositive inDegree) (keys inDegree) in
  NoDup (sorted ++ remaining) /\
  forall k, In k (sorted ++ remaining) <-> In k (keys g).
Proof.
  intros [Hk Hnum Hnd Hseen] remaining. split.
  - apply NoDup_app; [assumption | now apply NoDup_filter |].
    intros k Hs Hr. apply Hseen in Hs. destruct Hs as (z & Hz & Hle).
    apply filter_In in Hr. destruct Hr as [_ Hr]. apply isPositive_spec in Hr.
    destruct Hr as (z' & Hz' & Hlt). rewrite Hz in Hz'. injection Hz' as <-. lia.
  - intros k. rewrite in_app_iff. unfold remaining.
    rewrite filter_In, isPositive_spec, Hseen, <- Hnum. split.
    + intros [(z & Hz & _) | (_ & z & Hz & _)]; eauto.
    + intros [z Hz]. destruct (Z_le_gt_dec z 0) as [Hle | Hgt].
      * left. eauto.
      * right. split; [eapply get_Some_keys; eauto |]. exists z. split; [assumption | lia].
Qed.

End KahnTotal.

(** ** C3: the output of [topologicalSort] is a permutation of the names *)

(** What [topologicalSort] returns on an object [g]: the output of the loop,
    then the names whose counter is still positive. *)
Lemma topologicalSort_output (g : Graph) :
  NoDup (JsObj.keys g) ->
  exists inDegree sorted remaining,
    kahn (length (JsObj.keys g)) g (initInDegree g) (initQueue g) []
    = Ret (inDegree, sorted) /\
    topologicalSort g = Ret (sorted ++ remaining) /\
    (forall k, In k remaining -> isPositive inDegree k = true) /\
    NoDup (sorted ++ remaining) /\
    Permutation (sorted ++ remaining) (JsObj.keys g).
Proof.
  intros Hk.
  destruct (kahn_returns g (length (JsObj.keys g)) (initInDegree g) (initQueue g) [])
    as (inDegree & sorted & Hrun & Hinv).
  { now apply KahnInv_init. }
  { lia. }
  exists inDegree, sorted. unfold topologicalSort. fold (initQueue g). rewrite Hrun.
  destruct (KahnInv_final g inDegree sorted Hinv) as [Hnd Hin].
  destruct (Nat.ltb_spec (length sorted) (length (JsObj.keys g))) as [Hlt | Hge].
  - exists (filter (isPositive inDegree) (JsObj.keys inDegree)).
    repeat split; try assumption.
    + intros k Hr. apply filter_In in Hr. tauto.
    + now apply NoDup_Permutation.
  - exists []. rewrite app_nil_r. repeat split.
    + intros k [].
    + exact (ki_nodup Hinv).
    + apply NoDup_Permutation_bis; [exact (ki_nodup Hinv) | assumption |].
      apply (KahnInv_seen_keys g _ _ Hinv).
Qed.

(** C3.  For every graph, cyclic or not, [topologicalSort] returns, and what it
    returns is the list [sorted] produced by Kahn's loop followed by a list
    [remaining] of names whose counter is still positive; that sequence has no
    duplicates and is a permutation of the keys of the graph. *)
Theorem topologicalSort_permutation (g : Graph) :
  nodupb (JsObj.keys g) = true ->
  exists inDegree sorted remaining,
    kahn (length (JsObj.keys g)) g (initInDegree g) (initQueue g) []
    = Ret (inDegree, sorted) /\
    topologicalSort g = Ret (sorted ++ remaining) /\
    (forall k, In k remaining -> isPositive inDegree k = true) /\
    NoDup (sorted ++ remaining) /\
    Permutation (sorted ++ remaining) (JsObj.keys g).
Proof.
  intros Hk. apply topologicalSort_output. now apply nodupb_NoDup.
Qed.

Lemma topologicalSort_permutation_witness :
  exists inDegree sorted remaining,
    kahn 5 (buildDependencyGraph cyclicSchema)
         (initInDegree (buildDependencyGraph cyclicSchema))
         (initQueue (buildDependencyGraph cyclicSchema)) []
    = Ret (inDegree, sorted) /\
    topologicalSort (buildDependencyGraph cyclicSchema) = Ret (sorted ++ remaining) /\
    (forall k, In k remaining -> isPositive inDegree k = true) /\
    NoDup (sorted ++ remaining) /\
    Permutation (sorted ++ remaining)
                (JsObj.keys (buildDependencyGraph cyclicSchema)).
Proof.
  apply (topologicalSort_permutation (buildDependencyGraph cyclicSchema)).
  reflexivity.
Defined.

Example cyclic_order :
  topologicalSort (buildDependencyGraph cyclicSchema)
  = Ret ["Level"; "User"; "Post"; "Husband"; "Wife"].
Proof. reflexivity. Qed.

(** ** Kahn's loop on a well-formed graph *)

Section KahnOrder.
Import JsObj.

Lemma mem_app (x : string) (l1 l2 : list string) :
  mem x (l1 ++ l2) = mem x l1 || mem x l2.
Proof. unfold mem. apply existsb_app. Qed.

Lemma mem_single (x y : string) : mem x [y] = String.eqb x y.
Proof. unfold mem. simpl. apply orb_false_r. Qed.

Lemma mem_cons (x y : string) (l : list string) :
  mem x (y :: l) = String.eqb x y || mem x l.
Proof. reflexivity. Qed.

Lemma unmet_snoc_length (sorted deps : list string) (c : string) :
  NoDup deps -> ~ In c sorted ->
  length (filter (fun b => negb (mem b sorted)) deps)
  = length (filter (fun b => negb (mem b (sorted ++ [c]))) deps)
    + (if mem c deps then 1 else 0).
Proof.
  intros Hnd Hc. induction deps as [| d ds IH].
  - reflexivity.
  - inversion Hnd as [| ? ? Hd Hds]; subst. specialize (IH Hds).
    cbn [filter]. rewrite mem_app, mem_single.
    destruct (String.eqb_spec d c) as [-> | Hne].
    + apply mem_false in Hc. rewrite Hc.
      apply mem_false in Hd. rewrite Hd in IH.
      rewrite mem_cons, String.eqb_refl.
      cbn [negb orb length]. lia.
    + rewrite orb_false_r, mem_cons.
      destruct (String.eqb_spec c d) as [-> | _]; [contradiction |].
      cbn [orb].
      destruct (mem d sorted); cbn [negb length]; lia.
Qed.

Lemma unmet_snoc (sorted : list string) (c : string) (n : Node) :
  NoDup (dependsOn n) -> ~ In c sorted ->
  Z.of_nat (length (unmet (sorted ++ [c]) n))
  = (Z.of_nat (length (unmet sorted n)) - indicator (mem c (dependsOn n)))%Z.
Proof.
  intros Hnd Hc. unfold unmet.
  rewrite (unmet_snoc_length sorted (dependsOn n) c Hnd Hc).
  unfold indicator. destruct (mem c (dependsOn n)); lia.
Qed.

Variable g : Graph.
Hypothesis g_shape : GraphShape g.

Lemma DegreeInv_init : DegreeInv g (initInDegree g) [] [].
Proof.
  intros a n Ha. rewrite initInDegree_get by apply g_shape. rewrite Ha. simpl.
  unfold unmet. simpl. do 2 f_equal.
  replace (filter (fun _ : string => true) (dependsOn n)) with (dependsOn n).
  - unfold indicator. lia.
  - induction (dependsOn n); simpl; congruence.
Qed.

Lemma visit_DegreeInv (inDegree : JsObj.t num) (queue sorted pre : list string)
  (ref : string) :
  ~ In ref pre -> In ref (keys g) ->
  DegreeInv g inDegree sorted pre ->
  DegreeInv g (fst (visit (inDegree, queue) ref)) sorted (pre ++ [ref]).
Proof.
  intros Hpre Hkey Hinv a n Ha. unfold visit. simpl. rewrite get_set.
  rewrite mem_app, mem_single.
  destruct (String.eqb_spec ref a) as [-> | Hne].
  - rewrite (Hinv a n Ha). simpl. apply mem_false in Hpre. rewrite Hpre.
    rewrite String.eqb_refl. simpl. do 2 f_equal. unfold indicator. lia.
  - rewrite (Hinv a n Ha).
    destruct (String.eqb_spec a ref) as [-> | _]; [contradiction |].
    now rewrite orb_false_r.
Qed.

Lemma visits_DegreeInv (post : list string) :
  forall (pre : list string) (inDegree : JsObj.t num) (queue sorted : list string),
    NoDup (pre ++ post) -> incl post (keys g) ->
    DegreeInv g inDegree sorted pre ->
    DegreeInv g (fst (fold_left visit post (inDegree, queue))) sorted (pre ++ post).
Proof.
  induction post as [| r post IH]; intros pre inDegree queue sorted Hnd Hincl Hinv.
  - now rewrite app_nil_r.
  - simpl.
    replace (pre ++ r :: post) with ((pre ++ [r]) ++ post) in * by now rewrite <- app_assoc.
    rewrite (surjective_pairing (visit (inDegree, queue) r)).
    apply IH.
    + assumption.
    + intros x Hx. apply Hincl. now right.
    + apply visit_DegreeInv; [| apply Hincl; now left | assumption].
      intros Hin. rewrite <- app_assoc in Hnd. simpl in Hnd.
      apply NoDup_remove_2 in Hnd. apply Hnd. apply in_or_app. now left.
Qed.

Lemma DegreeInv_dequeue (inDegree : JsObj.t num) (sorted : list string)
  (current : string) (node : Node) :
  get g current = Some node -> ~ In current sorted ->
  DegreeInv g inDegree sorted (referencedBy node) ->
  DegreeInv g inDegree (sorted ++ [current]) [].
Proof.
  intros Hnode Hnew Hinv a n Ha.
  assert (H : mem a (referencedBy node) = mem current (dependsOn n)).
  { apply eq_true_iff_eq. rewrite !mem_In. split.
    - intros Hin. assert (He : backEdge g current a) by (exists node; auto).
      apply (shape_inverse g_shape) in He. destruct He as (n' & Hn' & Hc). congruence.
    - intros Hin. assert (He : edge g a current) by (exists n; auto).
      apply (shape_inverse g_shape) in He. destruct He as (n' & Hn' & Hc). congruence. }
  rewrite (Hinv a n Ha), H.
  rewrite unmet_snoc; [| apply (shape_sets g_shape a Ha) | assumption].
  do 2 f_equal. change (mem a []) with false. unfold indicator.
  destruct (mem current (dependsOn n)); lia.
Qed.

Lemma unmet_nil (sorted : list string) (n : Node) :
  unmet sorted n = [] -> forall b, In b (dependsOn n) -> In b sorted.
Proof.
  unfold unmet. intros H b Hb.
  destruct (mem b sorted) eqn:E; [now apply mem_In |].
  assert (Hin : In b (filter (fun b => negb (mem b sorted)) (dependsOn n))).
  { apply filter_In. split; [assumption | now rewrite E]. }
  rewrite H in Hin. destruct Hin.
Qed.

(** On a well-formed graph the loop keeps the counters equal to the numbers
    of unmet dependencies, and appends a name only after its dependencies. *)
Lemma kahn_ordered (fuel : nat) :
  forall (inDegree : JsObj.t num) (queue sorted : list string)
         (inDegree' : JsObj.t num) (sorted' : list string),
    KahnInv g inDegree (sorted ++ queue) ->
    DegreeInv g inDegree sorted [] ->
    Ordered g sorted ->
    kahn fuel g inDegree queue sorted = Ret (inDegree', sorted') ->
    DegreeInv g inDegree' sorted' [] /\ Ordered g sorted'.
Proof.
  induction fuel as [| fuel IH];
    intros inDegree queue sorted inDegree' sorted' Hinv Hdeg Hord Hrun;
    destruct queue as [| current queue]; simpl in Hrun;
    try discriminate; try (injection Hrun as <- <-; now split).
  destruct (get g current) as [node |] eqn:Hnode; [| discriminate].
  assert (Hnew : ~ In current sorted).
  { intros Hin. assert (Hnd := ki_nodup Hinv).
    apply NoDup_remove_2 in Hnd. apply Hnd, in_or_app. now left. }
  assert (Hrefs : incl (referencedBy node) (keys g)).
  { intros r Hr. assert (He : backEdge g current r) by (exists node; auto).
    apply (shape_inverse g_shape) in He. destruct He as (n & Hn & _).
    eapply get_Some_keys; eauto. }
  eapply IH; [| | | exact Hrun].
  - apply visits_KahnInv. rewrite <- app_assoc. exact Hinv.
  - apply (DegreeInv_dequeue _ sorted current node Hnode Hnew).
    apply (visits_DegreeInv (referencedBy node) [] inDegree queue sorted); simpl.
    + apply (shape_sets g_shape current Hnode).
    + assumption.
    + assumption.
  - constructor; [assumption |].
    intros b (n & Hn & Hb). rewrite Hnode in Hn. injection Hn as <-.
    apply (unmet_nil sorted node); [| assumption].
    assert (Hseen : In current (sorted ++ current :: queue)).
    { apply in_or_app. right. now left. }
    apply (ki_seen Hinv) in Hseen. destruct Hseen as (z & Hz & Hle).
    rewrite (Hdeg current node Hnode) in Hz. injection Hz as Hz.
    simpl in Hz. unfold indicator in Hz.
    apply length_zero_iff_nil. lia.
Qed.

Lemma Ordered_before (l : list string) (a b : string) :
  Ordered g l -> In a l -> edge g a b -> before b a l.
Proof.
  induction 1 as [| l a0 Hl IH Hdeps]; intros Ha He.
  - destruct Ha.
  - apply in_app_or in Ha. destruct Ha as [Ha | [<- | []]].
    + destruct (IH Ha He) as (l1 & l2 & l3 & ->).
      exists l1, l2, (l3 ++ [a0]).
      repeat (rewrite <- app_assoc; simpl). reflexivity.
    + apply Hdeps in He. apply in_split in He. destruct He as (l1 & l2 & ->).
      exists l1, l2, []. rewrite <- app_assoc. reflexivity.
Qed.

Lemma walk_reach (a : string) (l : list string) :
  walk g a l -> forall x, In x l -> clos_trans string (edge g) a x.
Proof.
  induction 1 as [a | a b l He Hw IH]; intros x Hx.
  - destruct Hx.
  - destruct Hx as [<- | Hx].
    + now apply t_step.
    + eapply t_trans; [apply t_step; eassumption | now apply IH].
Qed.

Lemma walk_NoDup (a : string) (l : list string) :
  acyclic g -> walk g a l -> NoDup (a :: l).
Proof.
  intros Hac. induction 1 as [a | a b l He Hw IH].
  - repeat constructor. intros [].
  - constructor; [| assumption].
    intros Hin. apply (Hac a). eapply walk_reach; [| exact Hin].
    now constructor.
Qed.

Lemma rankedb_acyclic (rank : string -> nat) :
  rankedb g rank = true -> acyclic g.
Proof.
  intros Hr.
  assert (Hstep : forall a b, edge g a b -> rank b < rank a).
  { intros a b (n & Hn & Hb). unfold rankedb in Hr. rewrite forallb_forall in Hr.
    specialize (Hr (a, n) (get_In _ _ _ _ Hn)). simpl in Hr.
    rewrite forallb_forall in Hr. apply Nat.ltb_lt. now apply Hr. }
  assert (Hplus : forall a b, clos_trans string (edge g) a b -> rank b < rank a).
  { induction 1; [now apply Hstep | lia]. }
  intros a Ha. apply Hplus in Ha. lia.
Qed.

End KahnOrder.

Section KahnAcyclic.
Import JsObj.

Variable g : Graph.
Hypothesis g_shape : GraphShape g.
Variable inDegree : JsObj.t num.
Variable sorted : list string.
Hypothesis final_inv : KahnInv g inDegree sorted.
Hypothesis final_deg : DegreeInv g inDegree sorted [].

(** When the loop has stopped, a name left out of [sorted] still waits for a
    dependency that is left out as well. *)
Lemma stuck_has_unmet (a : string) :
  In a (keys g) -> ~ In a sorted ->
  exists b, edge g a b /\ In b (keys g) /\ ~ In b sorted.
Proof.
  intros Ha Hout. destruct (keys_get _ _ _ Ha) as [n Hn].
  assert (Hz := final_deg a n Hn). change (mem a []) with false in Hz.
  unfold indicator in Hz.
  destruct (unmet sorted n) as [| b rest] eqn:Hu.
  - exfalso. apply Hout. apply (ki_seen final_inv). eexists. split; [exact Hz |].
    simpl. lia.
  - assert (Hb : In b (unmet sorted n)) by (rewrite Hu; now left).
    unfold unmet in Hb. apply filter_In in Hb. destruct Hb as [Hb Hm].
    assert (He : edge g a b) by (exists n; auto).
    exists b. repeat split.
    + assumption.
    + eapply (shape_closed g_shape); eauto.
    + apply negb_true_iff in Hm. now apply mem_false.
Qed.

Lemma stuck_walk (k : nat) :
  forall a, In a (keys g) -> ~ In a sorted ->
            exists l, length l = k /\ walk g a l /\ incl l (keys g).
Proof.
  induction k as [| k IH]; intros a Ha Hout.
  - exists []. repeat split; [constructor | intros x []].
  - destruct (stuck_has_unmet a Ha Hout) as (b & He & Hb & Hbout).
    destruct (IH b Hb Hbout) as (l & Hlen & Hw & Hincl).
    exists (b :: l). repeat split.
    + simpl. now rewrite Hlen.
    + now constructor.
    + intros x [<- | Hx]; auto.
Qed.

Lemma acyclic_all_sorted : acyclic g -> incl (keys g) sorted.
Proof.
  intros Hac a Ha. destruct (in_dec string_dec a sorted) as [Hin | Hout]; [assumption |].
  exfalso. destruct (stuck_walk (length (keys g)) a Ha Hout) as (l & Hlen & Hw & Hincl).
  assert (Hnd := walk_NoDup g a l Hac Hw).
  assert (Hle : length (a :: l) <= length (keys g)).
  { apply NoDup_incl_length; [assumption |]. intros x [<- | Hx]; auto. }
  simpl in Hle. lia.
Qed.

End KahnAcyclic.

(** ** C2: dependencies come first *)

(** C2.  For every acyclic dependency graph, [topologicalSort] returns a
    sequence without duplicates in which, for every edge "[a] dependsOn [b]",
    [b] occurs before [a]. *)
Theorem topologicalSort_dependencies_first (g : Graph) :
  wellFormedGraph g = true ->
  acyclic g ->
  exists out,
    topologicalSort g = Ret out /\
    NoDup out /\
    forall a b, edge g a b -> before b a out.
Proof.
  intros Hwf Hac. apply wellFormedGraph_shape in Hwf.
  assert (Hk := shape_keys Hwf).
  destruct (kahn_returns g (length (JsObj.keys g)) (initInDegree g) (initQueue g) [])
    as (inDegree & sorted & Hrun & Hinv).
  { now apply KahnInv_init. }
  { lia. }
  destruct (kahn_ordered g Hwf _ _ _ _ inDegree sorted
              (KahnInv_init g Hk) (DegreeInv_init g Hwf) (Ordered_nil g) Hrun)
    as [Hdeg Hord].
  assert (Hall := acyclic_all_sorted g Hwf inDegree sorted Hinv Hdeg Hac).
  exists sorted. unfold topologicalSort. fold (initQueue g). rewrite Hrun.
  destruct (Nat.ltb_spec (length sorted) (length (JsObj.keys g))) as [Hlt | Hge].
  - exfalso. assert (Hle := NoDup_incl_length Hk Hall). lia.
  - repeat split.
    + exact (ki_nodup Hinv).
    + intros a b He. apply (Ordered_before g); try assumption.
      apply Hall. destruct He as (n & Hn & _). eapply get_Some_keys; eauto.
Qed.

Lemma topologicalSort_dependencies_first_witness :
  exists out,
    topologicalSort (buildDependencyGraph blogSchema) = Ret out /\
    NoDup out /\
    forall a b, edge (buildDependencyGraph blogSchema) a b -> before b a out.
Proof.
  apply (topologicalSort_dependencies_first (buildDependencyGraph blogSchema)).
  - reflexivity.
  - apply rankedb_acyclic with (rank := blogRank). reflexivity.
Defined.

Example blog_order :
  topologicalSort (buildDependencyGraph blogSchema) = Ret ["Level"; "User"; "Post"].
Proof. reflexivity. Qed.

Example category_order :
  topologicalSort (buildDependencyGraph [categoryModel]) = Ret ["Category"].
Proof. reflexivity. Qed.

(** Every graph that [buildDependencyGraph] returns is well formed, so the
    two results above apply to the graph of any schema. *)
Lemma buildDependencyGraph_wellFormed (models : list Model) :
  wellFormedGraph (buildDependencyGraph models) = true.
Proof. apply wellFormedGraph_shape, buildDependencyGraph_shape. Qed.

(** ** C1: self-relations in the dependency graph *)

(** C1, as stated, fails: a required, non-list relation of a type to itself is
    wired like any other, and the node then depends on itself. *)
Lemma buildDependencyGraph_self_edge_counterexample :
  ~ (forall (models : list Model) (name : string) (node : Node),
       JsObj.get (buildDependencyGraph models) name = Some node ->
       ~ In name (dependsOn node)).
Proof.
  intros H.
  apply (H [categoryModel] "Category" (mkNode "Category" ["Category"] ["Category"])).
  - reflexivity.
  - now left.
Qed.

(** C1, amended.  A node's [dependsOn] contains the node's own name exactly
    when a descriptor of that name has a required, non-list relation field
    targeting its own type; no other node depends on itself. *)
Theorem buildDependencyGraph_self_edge (models : list Model) (name : string)
  (node : Node) :
  JsObj.get (buildDependencyGraph models) name = Some node ->
  (In name (dependsOn node) <->
   exists m, In m models /\ mname m = name /\ requiresItself m = true).
Proof.
  intros Hnode.
  assert (Hedge : In name (dependsOn node) <-> edge (buildDependencyGraph models) name name).
  { split.
    - intros Hin. exists node. auto.
    - intros (n & Hn & Hin). congruence. }
  rewrite Hedge, buildDependencyGraph_edges. unfold declares, requiresItself. split.
  - intros (m & f & Hm & Hname & Hf & Hd & Ht & _). exists m. repeat split; try assumption.
    apply existsb_exists. exists f. split; [assumption |].
    rewrite Hd, Ht, Hname. simpl. apply String.eqb_refl.
  - intros (m & Hm & Hname & Hself). apply existsb_exists in Hself.
    destruct Hself as (f & Hf & Hself). apply andb_true_iff in Hself.
    destruct Hself as [Hd Ht]. apply String.eqb_eq in Ht.
    exists m, f. repeat split; try assumption; try congruence.
    rewrite <- Hname. now apply in_map.
Qed.

Lemma buildDependencyGraph_self_edge_witness :
  In "Level" (dependsOn (mkNode "Level" [] ["User"])) <->
  exists m, In m blogSchema /\ mname m = "Level" /\ requiresItself m = true.
Proof.
  apply (buildDependencyGraph_self_edge blogSchema "Level" (mkNode "Level" [] ["User"])).
  reflexivity.
Defined.

(** ** The monad *)

Section MonadFacts.

Variable W : Type.

Lemma quiet_ret {A : Type} (a : A) : quiet (W := W) (ret a).
Proof. intros s. simpl. split; [discriminate | reflexivity]. Qed.

Lemma quiet_throw {A : Type} (e : exn) : quiet (W := W) (A := A) (throw e).
Proof. intros s. simpl. split; [discriminate | reflexivity]. Qed.

Lemma quiet_lift {A : Type} (o : outcome A) :
  o <> OutOfFuel -> quiet (W := W) (lift o).
Proof. intros H s. simpl. now split. Qed.

Lemma quiet_bind {A B : Type} (m : M W A) (k : A -> M W B) :
  quiet m -> (forall a, quiet (k a)) -> quiet (bind m k).
Proof.
  intros Hm Hk s. unfold bind. destruct (Hm s) as [H1 H2].
  destruct (m s) as [[a | e |] s1]; simpl in *.
  - destruct (Hk a s1) as [H3 H4]. split; [assumption | congruence].
  - split; [discriminate | assumption].
  - contradiction.
Qed.

Lemma quiet_forEach {A S : Type} (body : S -> A -> M W S) (xs : list A) :
  (forall acc x, quiet (body acc x)) -> forall acc, quiet (forEach body xs acc).
Proof.
  intros Hb. induction xs as [| x xs IH]; intros acc; simpl.
  - apply quiet_ret.
  - apply quiet_bind; [apply Hb | apply IH].
Qed.

Lemma quiet_emitsOnly {A : Type} (P : Event -> Prop) (m : M W A) :
  quiet m -> emitsOnly P m.
Proof.
  intros H s. destruct (H s) as [H1 H2]. split; [assumption |].
  exists []. rewrite app_nil_r. split; [assumption | constructor].
Qed.

Lemma emitsOnly_ret {A : Type} (P : Event -> Prop) (a : A) :
  emitsOnly (W := W) P (ret a).
Proof. apply quiet_emitsOnly, quiet_ret. Qed.

Lemma emitsOnly_throw {A : Type} (P : Event -> Prop) (e : exn) :
  emitsOnly (W := W) (A := A) P (throw e).
Proof. apply quiet_emitsOnly, quiet_throw. Qed.

Lemma emitsOnly_emit (P : Event -> Prop) (e : Event) :
  P e -> emitsOnly (W := W) P (emit e).
Proof.
  intros H s. simpl. split; [discriminate |]. exists [e]. split; [reflexivity | now constructor].
Qed.

Lemma emitsOnly_bind {A B : Type} (P : Event -> Prop) (m : M W A) (k : A -> M W B) :
  emitsOnly P m -> (forall a, emitsOnly P (k a)) -> emitsOnly P (bind m k).
Proof.
  intros Hm Hk s. unfold bind. destruct (Hm s) as (H1 & t1 & H2 & H3).
  destruct (m s) as [[a | e |] s1]; simpl in *.
  - destruct (Hk a s1) as (H4 & t2 & H5 & H6). split; [assumption |].
    exists (t1 ++ t2). rewrite H5, H2, app_assoc. split; [reflexivity |].
    apply Forall_app. now split.
  - split; [discriminate | eauto].
  - contradiction.
Qed.

Lemma emitsOnly_tryCatch {A : Type} (P : Event -> Prop) (m : M W A)
  (h : exn -> M W A) :
  emitsOnly P m -> (forall e, emitsOnly P (h e)) -> emitsOnly P (tryCatch m h).
Proof.
  intros Hm Hh s. unfold tryCatch. destruct (Hm s) as (H1 & t1 & H2 & H3).
  destruct (m s) as [[a | e |] s1]; simpl in *.
  - split; [discriminate | eauto].
  - destruct (Hh e s1) as (H4 & t2 & H5 & H6). split; [assumption |].
    exists (t1 ++ t2). rewrite H5, H2, app_assoc. split; [reflexivity |].
    apply Forall_app. now split.
  - contradiction.
Qed.

Lemma emitsOnly_forEach {A S : Type} (P : Event -> Prop) (body : S -> A -> M W S)
  (xs : list A) :
  (forall acc x, emitsOnly P (body acc x)) ->
  forall acc, emitsOnly P (forEach body xs acc).
Proof.
  intros Hb. induction xs as [| x xs IH]; intros acc; simpl.
  - apply emitsOnly_ret.
  - apply emitsOnly_bind; [apply Hb | apply IH].
Qed.

(** An invariant of the accumulator of a loop. *)
Lemma forEach_invariant {A S : Type} (I : S -> Prop) (body : S -> A -> M W S)
  (xs : list A) :
  (forall acc x s acc' s', In x xs -> I acc -> body acc x s = (Ret acc', s') -> I acc') ->
  forall acc s acc' s',
    I acc -> forEach body xs acc s = (Ret acc', s') -> I acc'.
Proof.
  induction xs as [| x xs IH]; intros Hb acc s acc' s' Hacc Hrun; simpl in Hrun.
  - unfold ret in Hrun. now injection Hrun as <- _.
  - unfold bind in Hrun. destruct (body acc x s) as [[a | e |] s1] eqn:E; try discriminate.
    apply (IH (fun acc0 y s0 acc1 s2 Hy => Hb acc0 y s0 acc1 s2 (or_intror Hy))
              a s1 acc' s'); [| assumption].
    apply (Hb acc x s a s1); [now left | assumption | assumption].
Qed.

Lemma forEach_app {A S : Type} (body : S -> A -> M W S) (xs ys : list A) :
  forall acc s,
    forEach body (xs ++ ys) acc s = bind (forEach body xs acc) (forEach body ys) s.
Proof.
  induction xs as [| x xs IH]; intros acc s; simpl.
  - reflexivity.
  - unfold bind. destruct (body acc x s) as [[a | e |] s1]; try reflexivity.
    rewrite IH. reflexivity.
Qed.

End MonadFacts.

(** ** Payload assembly *)

Section AssemblyFacts.

Variable W : Type.
Variable env : Env W.

Lemma quiet_randomToken : quiet (randomToken env).
Proof.
  intros s. unfold randomToken. destruct (random_token env (ext s)).
  simpl. split; [discriminate | reflexivity].
Qed.

Lemma quiet_currentTime : quiet (currentTime env).
Proof.
  intros s. unfold currentTime. destruct (clock env (ext s)).
  simpl. split; [discriminate | reflexivity].
Qed.

Lemma quiet_generateFakeValueForField (field : Field) :
  quiet (generateFakeValueForField env field).
Proof.
  unfold generateFakeValueForField. split_ifs;
    try apply quiet_ret;
    (apply quiet_bind; [first [apply quiet_randomToken | apply quiet_currentTime] |
                        intros; apply quiet_ret]).
Qed.

Lemma quiet_scalarStep (m : Model) (data : Obj) (field : Field) :
  quiet (scalarStep env m data field).
Proof.
  unfold scalarStep. split_ifs; try apply quiet_ret.
  apply quiet_bind; [apply quiet_generateFakeValueForField | intros; apply quiet_ret].
Qed.

Lemma quiet_scalarStepInline (data : Obj) (field : Field) :
  quiet (scalarStepInline env data field).
Proof.
  unfold scalarStepInline. split_ifs; try apply quiet_ret.
  apply quiet_bind; [apply quiet_generateFakeValueForField | intros; apply quiet_ret].
Qed.

Lemma connectByKey_fuel (rtf : option (list string)) (record : option Obj) :
  connectByKey rtf record <> OutOfFuel.
Proof.
  unfold connectByKey. destruct rtf as [[| rk rks] |], record; discriminate.
Qed.

Lemma relationStep_fuel (modelDataMap : ModelDataMap) (modelName : string)
  (m : Model) (data : Obj) (field : Field) :
  relationStep modelDataMap modelName m data field <> OutOfFuel.
Proof.
  unfold relationStep.
  destruct (negb (FieldKind_eqb (kind field) KObject)); [discriminate |].
  destruct (String.eqb (ftype field) modelName); [discriminate |].
  destruct (isList field); [discriminate |].
  destruct (relationFromFields field) as [[| x from] |]; try discriminate.
  destruct (JsObj.get modelDataMap (ftype field)) as [related |]; [| discriminate].
  destruct (createdRecords related) as [| r rest]; [discriminate |].
  assert (H := connectByKey_fuel (relationToFields field) (Some r)).
  destruct (connectByKey (relationToFields field) (Some r)); congruence.
Qed.

Lemma relationStepInline_fuel (modelDataMap : ModelDataMap)
  (m : Model) (data : Obj) (field : Field) :
  relationStepInline modelDataMap m data field <> OutOfFuel.
Proof.
  unfold relationStepInline.
  destruct (negb (FieldKind_eqb (kind field) KObject)); [discriminate |].
  destruct (isList field); [discriminate |].
  destruct (relationFromFields field) as [[| x from] |]; try discriminate.
  destruct (JsObj.get modelDataMap (ftype field)) as [related |]; [| discriminate].
  destruct (createdRecords related) as [| r rest]; [discriminate |].
  assert (H := connectByKey_fuel (relationToFields field) (Some r)).
  destruct (connectByKey (relationToFields field) (Some r)); congruence.
Qed.

(** Payload assembly calls no collaborator and logs nothing. *)
Lemma quiet_buildCreationData (modelDataMap : ModelDataMap) (modelName : string) :
  quiet (buildCreationData env modelDataMap modelName).
Proof.
  unfold buildCreationData. destruct (JsObj.get modelDataMap modelName) as [entry |].
  - apply quiet_bind.
    + apply quiet_forEach. intros. apply quiet_scalarStep.
    + intros data. apply quiet_forEach. intros. apply quiet_lift, relationStep_fuel.
  - apply quiet_throw.
Qed.

Lemma quiet_assembleInline (modelDataMap : ModelDataMap) (modelName : string) :
  quiet (assembleInline env modelDataMap modelName).
Proof.
  unfold assembleInline. destruct (JsObj.get modelDataMap modelName) as [entry |].
  - apply quiet_bind.
    + apply quiet_forEach. intros. apply quiet_scalarStepInline.
    + intros data. apply quiet_forEach. intros. apply quiet_lift, relationStepInline_fuel.
  - apply quiet_throw.
Qed.

End AssemblyFacts.

(** ** The pass loop *)

Section PassLoopFacts.

Variable W : Type.
Variable env : Env W.
Variable assemble : ModelDataMap -> string -> M W Obj.
Hypothesis assemble_quiet : forall mdm name, quiet (assemble mdm name).

Lemma attemptModel_spec (mdm : ModelDataMap) (flag : bool) (name : string)
  (s : Sys W) :
  attemptSpec env assemble mdm flag name s
    (attemptModel env assemble (mdm, flag) name s).
Proof.
  unfold attemptModel. simpl.
  destruct (JsObj.get mdm name) as [entry |] eqn:Hget; [| now constructor].
  destruct (created entry) eqn:Hc; [eapply attempt_skipped; eassumption |].
  unfold tryCreateOneRecord, bind, tryCatch, callCreate.
  destruct (assemble_quiet mdm name s) as [Hfuel _].
  destruct (assemble mdm name s) as [[data | e |] s1] eqn:Ha; simpl in Hfuel.
  - destruct (prisma_create env name data (ext s1)) as [[rec | e] w] eqn:Hp; simpl.
    + eapply attempt_created; eassumption.
    + eapply attempt_deferred; eassumption.
  - eapply attempt_unassembled; eassumption.
  - contradiction.
Qed.

Lemma passLoop_exit (fuel : nat) (names : list string) (maxPasses pass : Z)
  (mdm : ModelDataMap) (s : Sys W) :
  (maxPasses < pass)%Z ->
  passLoop env assemble fuel names maxPasses pass mdm s = (Ret mdm, s).
Proof.
  intros H. destruct fuel; simpl;
    destruct (Z.leb_spec pass maxPasses); try lia; reflexivity.
Qed.

Lemma passLoop_unfold (fuel : nat) (names : list string) (maxPasses pass : Z)
  (mdm : ModelDataMap) (s : Sys W) :
  (pass <= maxPasses)%Z ->
  passLoop env assemble (S fuel) names maxPasses pass mdm s =
  match runPass env assemble names mdm
          (mkSys (ext s) (trace s ++ [LogPassStart pass])) with
  | (Ret (mdm1, true), s1) =>
      passLoop env assemble fuel names maxPasses (pass + 1) mdm1 s1
  | (Ret (mdm1, false), s1) =>
      (Ret mdm1, mkSys (ext s1) (trace s1 ++ [LogNoProgress]))
  | (Throw e, s1) => (Throw e, s1)
  | (OutOfFuel, s1) => (OutOfFuel, s1)
  end.
Proof.
  intros H. simpl. destruct (Z.leb_spec pass maxPasses); [| lia].
  unfold bind, emit, ret. simpl.
  destruct (runPass env assemble names mdm _) as [[[mdm1 [|]] | e |] s1]; reflexivity.
Qed.

Section Generic.

(** [I] is an invariant of the run state and [P] a property of the events of
    an attempt, both established attempt by attempt. *)
Variable I : ModelDataMap -> Prop.
Variable P : Event -> Prop.
Hypothesis P_notPassStart : forall e, P e -> notPassStart e.
Hypothesis attempt_step :
  forall mdm flag name s r,
    I mdm -> attemptSpec env assemble mdm flag name s r ->
    fst r <> OutOfFuel /\
    exists t, trace (snd r) = trace s ++ t /\ Forall P t /\
              forall mdm' flag', fst r = Ret (mdm', flag') ->
                                 I mdm' /\ flag' = flag || existsb isCreation t.

Lemma runPass_generic (names : list string) :
  forall mdm flag s,
    I mdm ->
    let r := forEach (attemptModel env assemble) names (mdm, flag) s in
    fst r <> OutOfFuel /\
    exists t, trace (snd r) = trace s ++ t /\ Forall P t /\
              forall mdm' flag', fst r = Ret (mdm', flag') ->
                                 I mdm' /\ flag' = flag || existsb isCreation t.
Proof.
  induction names as [| name names IH]; intros mdm flag s HI; simpl.
  - split; [discriminate |]. exists []. rewrite app_nil_r. repeat split; [constructor | |].
    + now injection H as <- _.
    + injection H as _ <-. now rewrite orb_false_r.
  - unfold bind.
    destruct (attempt_step mdm flag name s _ HI (attemptModel_spec mdm flag name s))
      as (Hfuel & t1 & Ht1 & HP1 & Hres).
    destruct (attemptModel env assemble (mdm, flag) name s) as [[[mdm1 flag1] | e |] s1];
      simpl in *.
    + destruct (Hres mdm1 flag1 eq_refl) as [HI1 Hflag1].
      destruct (IH mdm1 flag1 s1 HI1) as (Hfuel2 & t2 & Ht2 & HP2 & Hres2).
      split; [assumption |]. exists (t1 ++ t2).
      rewrite Ht2, Ht1, app_assoc. repeat split.
      * apply Forall_app. now split.
      * now apply (Hres2 mdm' flag').
      * destruct (Hres2 mdm' flag' H) as [_ ->]. subst flag1.
        now rewrite existsb_app, orb_assoc.
    + split; [discriminate |]. exists t1. repeat split; try assumption; discriminate.
    + contradiction.
Qed.

Lemma passEvents_quiet (t rest : list Event) :
  Forall notPassStart t -> passEvents (t ++ rest) = t ++ passEvents rest.
Proof.
  induction 1 as [| e t He Ht IH]; simpl; [reflexivity |].
  destruct e; simpl in *; try (now rewrite IH). contradiction.
Qed.

Lemma passesOf_quiet (t rest : list Event) :
  Forall notPassStart t -> passesOf (t ++ rest) = passesOf rest.
Proof.
  induction 1 as [| e t He Ht IH]; simpl; [reflexivity |].
  destruct e; simpl in *; try assumption. contradiction.
Qed.

Lemma passLoop_done (mdm : ModelDataMap) (s : Sys W) (n : nat) :
  I mdm ->
  Ret mdm <> @OutOfFuel ModelDataMap /\
  exists t, trace s = trace s ++ t /\
            PassLog n t /\
            Forall (loopEvent P) t /\
            forall mdm', Ret mdm = Ret mdm' -> I mdm'.
Proof.
  intros HI. split; [discriminate |]. exists []. rewrite app_nil_r.
  split; [reflexivity |]. split; [| split].
  - unfold PassLog. simpl. split; [reflexivity |]. split; [lia |]. intros i Hi. lia.
  - constructor.
  - intros mdm' [= <-]. assumption.
Qed.

Lemma passLoop_generic (fuel : nat) (names : list string) (maxPasses : Z) :
  forall pass mdm s,
    I mdm ->
    Z.to_nat (maxPasses - pass + 1) <= fuel ->
    let r := passLoop env assemble fuel names maxPasses pass mdm s in
    fst r <> OutOfFuel /\
    exists t, trace (snd r) = trace s ++ t /\
              PassLog (Z.to_nat (maxPasses - pass + 1)) t /\
              Forall (loopEvent P) t /\
              forall mdm', fst r = Ret mdm' -> I mdm'.
Proof.
  induction fuel as [| fuel IH]; intros pass mdm s HI Hfuel; cbv zeta;
    destruct (Z.leb_spec pass maxPasses) as [Hle | Hgt].
  - exfalso. lia.
  - rewrite passLoop_exit by assumption. now apply passLoop_done.
  - rewrite passLoop_unfold by assumption.
    set (s0 := mkSys (ext s) (trace s ++ [LogPassStart pass])).
    destruct (runPass_generic names mdm false s0 HI) as (Hf1 & t1 & Ht1 & HP1 & Hres1).
    fold (runPass env assemble names mdm) in *.
    assert (Hquiet1 : Forall notPassStart t1).
    { eapply Forall_impl; [| exact HP1]. exact P_notPassStart. }
    destruct (runPass env assemble names mdm s0) as [[[mdm1 flag1] | e |] s1];
      simpl in Hf1, Ht1, Hres1.
    + destruct (Hres1 mdm1 flag1 eq_refl) as [HI1 Hflag1]. simpl in Hflag1.
      destruct flag1; simpl.
      * (* the pass created a record: next pass *)
        assert (Hfuel' : Z.to_nat (maxPasses - (pass + 1) + 1) <= fuel) by lia.
        destruct (IH (pass + 1)%Z mdm1 s1 HI1 Hfuel')
          as (Hf2 & t2 & Ht2 & (Hhead & Hlen & Hprog) & HP2 & Hres2).
        split; [assumption |].
        exists (LogPassStart pass :: t1 ++ t2). split; [| split; [| split]].
        -- rewrite Ht2, Ht1. unfold s0. simpl. now rewrite <- !app_assoc.
        -- split; [reflexivity |]. simpl.
           rewrite passEvents_quiet, passesOf_quiet, Hhead, app_nil_r by assumption.
           split; [simpl; lia |].
           intros [| i] Hi; simpl in *; [congruence | apply Hprog; lia].
        -- constructor; [right; right; eauto |]. apply Forall_app. split; [| assumption].
           eapply Forall_impl; [| exact HP1]. intros e He. now left.
        -- assumption.
      * (* nothing created: the loop stops *)
        split; [discriminate |].
        exists (LogPassStart pass :: t1 ++ [LogNoProgress]). split; [| split; [| split]].
        -- rewrite Ht1. unfold s0. simpl. now rewrite <- !app_assoc.
        -- split; [reflexivity |]. simpl.
           rewrite passesOf_quiet by assumption. simpl.
           split; [lia |]. intros i Hi. lia.
        -- constructor; [right; right; eauto |]. apply Forall_app. split.
           ++ eapply Forall_impl; [| exact HP1]. intros e He. now left.
           ++ constructor; [right; now left | constructor].
        -- intros mdm' [= <-]. assumption.
    + simpl. split; [discriminate |].
      exists (LogPassStart pass :: t1). split; [| split; [| split]].
      * rewrite Ht1. unfold s0. simpl. now rewrite <- !app_assoc.
      * split; [reflexivity |]. simpl.
        rewrite <- (app_nil_r t1), passesOf_quiet by assumption. simpl.
        split; [lia |]. intros i Hi. lia.
      * constructor; [right; right; eauto |].
        eapply Forall_impl; [| exact HP1]. intros e0 He. now left.
      * discriminate.
    + contradiction.
  - rewrite passLoop_exit by assumption. now apply passLoop_done.
Qed.

End Generic.

End PassLoopFacts.

Section RunState.
Import JsObj.

Variable W : Type.
Variable env : Env W.
Variable assemble : ModelDataMap -> string -> M W Obj.
Hypothesis assemble_quiet : forall mdm name, quiet (assemble mdm name).

Lemma attemptEvent_notPassStart (e : Event) : attemptEvent e -> notPassStart e.
Proof. destruct e; simpl; tauto. Qed.

Lemma attemptEvent_notDisconnect (e : Event) : attemptEvent e -> notDisconnect e.
Proof. destruct e; simpl; try tauto. reflexivity. Qed.

Lemma assemble_trace (mdm : ModelDataMap) (name : string) (s s1 : Sys W)
  (o : outcome Obj) :
  assemble mdm name s = (o, s1) -> trace s1 = trace s.
Proof.
  intros H. destruct (assemble_quiet mdm name s) as [_ Ht]. now rewrite H in Ht.
Qed.

(** What an attempt adds to the trace, and what it does to the flag. *)
Lemma attemptSpec_trace (mdm : ModelDataMap) (flag : bool) (name : string)
  (s : Sys W) (r : outcome (ModelDataMap * bool) * Sys W) :
  attemptSpec env assemble mdm flag name s r ->
  fst r <> OutOfFuel /\
  exists t, trace (snd r) = trace s ++ t /\ Forall attemptEvent t /\
            forall mdm' flag', fst r = Ret (mdm', flag') ->
                               flag' = flag || existsb isCreation t.
Proof.
  intros [e Hget | entry Hget Hc | entry e s1 Hget Hc Ha
          | entry data s1 rec w Hget Hc Ha Hp | entry data s1 e w Hget Hc Ha Hp]; simpl.
  - split; [discriminate |]. exists []. rewrite app_nil_r.
    repeat split; [constructor | discriminate].
  - split; [discriminate |]. exists []. rewrite app_nil_r.
    repeat split; [constructor |]. intros mdm' flag' [= _ <-]. now rewrite orb_false_r.
  - split; [discriminate |]. exists []. rewrite app_nil_r, (assemble_trace _ _ _ _ _ Ha).
    repeat split; [constructor | discriminate].
  - split; [discriminate |]. exists [CallCreate name data (inl rec)].
    rewrite (assemble_trace _ _ _ _ _ Ha).
    repeat split; [repeat constructor |]. intros mdm' flag' [= _ <-]. simpl.
    now rewrite orb_true_r.
  - split; [discriminate |]. exists [CallCreate name data (inr e)].
    rewrite (assemble_trace _ _ _ _ _ Ha).
    repeat split; [repeat constructor |]. intros mdm' flag' [= _ <-]. simpl.
    now rewrite orb_false_r.
Qed.

(** An attempt keeps the run-state invariant. *)
Lemma attemptSpec_runStateOk (mdm : ModelDataMap) (flag : bool) (name : string)
  (s : Sys W) (r : outcome (ModelDataMap * bool) * Sys W) :
  runStateOk mdm ->
  attemptSpec env assemble mdm flag name s r ->
  forall mdm' flag', fst r = Ret (mdm', flag') -> runStateOk mdm'.
Proof.
  intros Hok [e Hget | entry Hget Hc | entry e s1 Hget Hc Ha
              | entry data s1 rec w Hget Hc Ha Hp | entry data s1 e w Hget Hc Ha Hp];
    simpl; intros mdm' flag' Hr; try discriminate;
    try (injection Hr as <- _; assumption).
  injection Hr as <- _. intros k entry'. rewrite !get_update.
  destruct (String.eqb_spec name k) as [<- | Hne]; [| apply Hok].
  rewrite Hget. simpl. intros [= <-].
  destruct (Hok name entry Hget) as [Hflag _].
  assert (Hnil : createdRecords entry = []).
  { destruct (createdRecords entry) as [| x l] eqn:E; [reflexivity |].
    assert (created entry = true) by (apply Hflag; discriminate). congruence. }
  unfold entryOk. simpl. rewrite Hnil. simpl. split; [| lia].
  split; [discriminate | reflexivity].
Qed.

Lemma initModelDataMap_acc (models : list Model) (acc : ModelDataMap) :
  let r := fold_left (fun acc m => set acc (mname m) (mkModelData m [] false))
                     models acc in
  (forall k, In k (keys r) <-> In k (keys acc) \/ In k (map mname models)) /\
  forall k entry, get r k = Some entry ->
    get acc k = Some entry \/
    (createdRecords entry = [] /\ created entry = false /\
     In (model entry) models /\ mname (model entry) = k).
Proof.
  revert acc. induction models as [| m models IH]; intros acc; simpl.
  - split; [intuition | auto].
  - destruct (IH (set acc (mname m) (mkModelData m [] false))) as [H1 H2]. split.
    + intros k. rewrite H1, keys_set_In. intuition.
    + intros k entry Hget. destruct (H2 k entry Hget) as [H | H].
      * rewrite get_set in H. destruct (String.eqb_spec (mname m) k).
        -- injection H as <-. right. simpl. auto.
        -- now left.
      * right. intuition.
Qed.

Lemma initModelDataMap_entry (models : list Model) (k : string) (entry : ModelData) :
  get (initModelDataMap models) k = Some entry ->
  createdRecords entry = [] /\ created entry = false /\
  In (model entry) models /\ mname (model entry) = k.
Proof.
  intros H. destruct (initModelDataMap_acc models empty) as [_ H2].
  destruct (H2 k entry H) as [H' | H']; [discriminate | assumption].
Qed.

Lemma initModelDataMap_keys (models : list Model) (k : string) :
  In k (keys (initModelDataMap models)) <-> In k (map mname models).
Proof.
  destruct (initModelDataMap_acc models empty) as [H1 _].
  unfold initModelDataMap. rewrite H1. simpl. intuition.
Qed.

Lemma initModelDataMap_runStateOk (models : list Model) :
  runStateOk (initModelDataMap models).
Proof.
  intros k entry H. apply initModelDataMap_entry in H. destruct H as (Hr & Hc & _).
  unfold entryOk. rewrite Hr, Hc. simpl. split; [| lia].
  split; [discriminate | intros H; now contradiction H].
Qed.

(** The names the loop iterates over. *)
Lemma topologicalSort_schema (models : list Model) :
  exists sorted,
    topologicalSort (buildDependencyGraph models) = Ret sorted /\
    NoDup sorted /\
    forall k, In k sorted <-> In k (map mname models).
Proof.
  destruct (topologicalSort_output (buildDependencyGraph models))
    as (inDegree & sorted & remaining & _ & Hs & _ & Hnd & Hperm).
  { apply buildDependencyGraph_shape. }
  exists (sorted ++ remaining). repeat split; try assumption.
  - intros H. apply buildDependencyGraph_names. eapply Permutation_in; eauto.
  - intros H. apply buildDependencyGraph_names in H.
    eapply Permutation_in; [apply Permutation_sym |]; eauto.
Qed.

Section Generic.

Variable I : ModelDataMap -> Prop.
Variable P : Event -> Prop.
Hypothesis P_notPassStart : forall e, P e -> notPassStart e.
Hypothesis attempt_step :
  forall mdm flag name s r,
    I mdm -> attemptSpec env assemble mdm flag name s r ->
    fst r <> OutOfFuel /\
    exists t, trace (snd r) = trace s ++ t /\ Forall P t /\
              forall mdm' flag', fst r = Ret (mdm', flag') ->
                                 I mdm' /\ flag' = flag || existsb isCreation t.

Lemma multiPassCreate_generic (models : list Model) (maxPasses : Z) (s : Sys W) :
  I (initModelDataMap models) ->
  let r := multiPassCreate env assemble models maxPasses s in
  fst r <> OutOfFuel /\
  exists t, trace (snd r) = trace s ++ t /\
            PassLog (Z.to_nat maxPasses) t /\
            Forall (loopEvent P) t /\
            forall mdm', fst r = Ret mdm' -> I mdm'.
Proof.
  intros HI. cbv zeta. unfold multiPassCreate, bind, lift.
  destruct (topologicalSort_schema models) as (sorted & -> & _).
  assert (Hfuel : Z.to_nat (maxPasses - 1 + 1) <= Z.to_nat maxPasses) by lia.
  destruct (passLoop_generic W env assemble assemble_quiet I P P_notPassStart attempt_step
              (Z.to_nat maxPasses) sorted maxPasses 1%Z (initModelDataMap models) s
              HI Hfuel)
    as (H1 & t & H2 & H3 & H4 & H5).
  split; [assumption |]. exists t. repeat split; try assumption; try apply H3.
  replace (Z.to_nat maxPasses) with (Z.to_nat (maxPasses - 1 + 1)) by lia. apply H3.
Qed.

End Generic.

Lemma attempt_step_runStateOk :
  forall mdm flag name s r,
    runStateOk mdm -> attemptSpec env assemble mdm flag name s r ->
    fst r <> OutOfFuel /\
    exists t, trace (snd r) = trace s ++ t /\ Forall attemptEvent t /\
              forall mdm' flag', fst r = Ret (mdm', flag') ->
                                 runStateOk mdm' /\ flag' = flag || existsb isCreation t.
Proof.
  intros mdm flag name s r Hok Hspec.
  destruct (attemptSpec_trace _ _ _ _ _ Hspec) as (H1 & t & H2 & H3 & H4).
  split; [assumption |]. exists t. split; [assumption |]. split; [assumption |].
  intros mdm' flag' Hr. split.
  - eapply attemptSpec_runStateOk; eauto.
  - eapply H4; eauto.
Qed.

End RunState.

(** ** C4: the pass loop terminates within [maxPasses] passes *)

(** C4.  For every schema, every store and every [maxPasses],
    [multiPassCreate] comes to an end (each call to the store being assumed to
    return): the trace it adds holds at most [maxPasses] passes, and every pass
    that is followed by another one has created a record, so a pass that
    creates nothing is the last one. *)
Theorem multiPassCreate_terminates (W : Type) (env : Env W) (models : list Model)
  (maxPasses : Z) (s : Sys W) :
  let r := multiPassCreate env (buildCreationData env) models maxPasses s in
  fst r <> OutOfFuel /\
  exists t,
    trace (snd r) = trace s ++ t /\
    (Z.of_nat (length (passesOf t)) <= Z.max 0 maxPasses)%Z /\
    forall i, S i < length (passesOf t) ->
              existsb isCreation (nth i (passesOf t) []) = true.
Proof.
  destruct (multiPassCreate_generic W env (buildCreationData env)
              (quiet_buildCreationData W env) (fun _ => True) attemptEvent
              attemptEvent_notPassStart) with (models := models) (maxPasses := maxPasses) (s := s)
    as (H1 & t & H2 & (_ & H3 & H4) & _).
  - intros mdm flag name s0 r _ Hspec.
    destruct (attemptSpec_trace W env _ (quiet_buildCreationData W env) _ _ _ _ _ Hspec)
      as (Ha & t & Hb & Hc & Hd).
    split; [assumption |]. exists t. split; [assumption |]. split; [assumption |].
    intros mdm' flag' Hr. split; [exact Logic.I | eapply Hd; eauto].
  - exact Logic.I.
  - cbv zeta. split; [assumption |]. exists t. split; [assumption |].
    split; [lia | assumption].
Qed.

Example blog_passes :
  let r := multiPassCreate (strictStore blogSchema) (buildCreationData (strictStore blogSchema))
                           blogSchema 5 (start 0) in
  map (existsb isCreation) (passesOf (trace (snd r))) = [true; false].
Proof. reflexivity. Qed.

Example cyclic_passes :
  let r := multiPassCreate (strictStore cyclicSchema)
                           (buildCreationData (strictStore cyclicSchema))
                           cyclicSchema 1 (start 0) in
  map (existsb isCreation) (passesOf (trace (snd r))) = [true] /\
  match fst r with
  | Ret mdm => map (isCreated mdm) ["Husband"; "Post"; "Wife"; "User"; "Level"]
               = [false; true; false; true; true]
  | _ => False
  end.
Proof. split; reflexivity. Qed.

(** ** C5: a failed creation is swallowed and changes nothing *)

(** C5.  When the store rejects the creation of a record of [name],
    [tryCreateOneRecord] returns [false] without throwing and with the run
    state it was given; the body of the pass loop then leaves the run state
    and the flag of the pass as they were, so no record is appended and
    [created] stays [false].  This holds whichever variant assembled the
    payload. *)
Theorem tryCreateOneRecord_failure (W : Type) (env : Env W)
  (assemble : ModelDataMap -> string -> M W Obj) (mdm : ModelDataMap)
  (name : string) (s s1 : Sys W) (data : Obj) (e : exn) (w : W) :
  assemble mdm name s = (Ret data, s1) ->
  prisma_create env name data (ext s1) = (inr e, w) ->
  tryCreateOneRecord env assemble mdm name s
  = (Ret (false, mdm), mkSys w (trace s1 ++ [CallCreate name data (inr e)])) /\
  forall entry flag,
    JsObj.get mdm name = Some entry -> created entry = false ->
    attemptModel env assemble (mdm, flag) name s
    = (Ret (mdm, flag), mkSys w (trace s1 ++ [CallCreate name data (inr e)])).
Proof.
  intros Ha Hp.
  assert (Htry : tryCreateOneRecord env assemble mdm name s
                 = (Ret (false, mdm), mkSys w (trace s1 ++ [CallCreate name data (inr e)]))).
  { unfold tryCreateOneRecord, bind, tryCatch, callCreate. rewrite Ha, Hp. reflexivity. }
  split; [assumption |].
  intros entry flag Hget Hc. unfold attemptModel. simpl. rewrite Hget, Hc.
  unfold bind. rewrite Htry. reflexivity.
Qed.

Lemma tryCreateOneRecord_failure_witness :
  let env := strictStore [categoryModel] in
  let mdm := initModelDataMap [categoryModel] in
  let data := [("id", VNum 123 0)] in
  let e := Rejected "required relation missing" in
  tryCreateOneRecord env (buildCreationData env) mdm "Category" (start 0)
  = (Ret (false, mdm), mkSys 0 ([] ++ [CallCreate "Category" data (inr e)])) /\
  forall entry flag,
    JsObj.get mdm "Category" = Some entry -> created entry = false ->
    attemptModel env (buildCreationData env) (mdm, flag) "Category" (start 0)
    = (Ret (mdm, flag), mkSys 0 ([] ++ [CallCreate "Category" data (inr e)])).
Proof.
  cbv zeta.
  apply (tryCreateOneRecord_failure nat (strictStore [categoryModel])
           (buildCreationData (strictStore [categoryModel]))
           (initModelDataMap [categoryModel]) "Category" (start 0) (start 0)
           [("id", VNum 123 0)] (Rejected "required relation missing") 0).
  - reflexivity.
  - reflexivity.
Defined.

(** ** C10: the run-state invariant *)

(** C10.  The run state satisfies, for every entity type, "[created] is true
    if and only if [createdRecords] is non-empty, and [createdRecords] holds
    at most one record": at the start, after every pass that returns, and in
    what [multiPassCreate] returns; and a type whose flag is set is not
    attempted again. *)
Theorem multiPassCreate_run_state (W : Type) (env : Env W) :
  (forall models, runStateOk (initModelDataMap models)) /\
  (forall names mdm s mdm' flag s',
      runStateOk mdm ->
      runPass env (buildCreationData env) names mdm s = (Ret (mdm', flag), s') ->
      runStateOk mdm') /\
  (forall models maxPasses s mdm s',
      multiPassCreate env (buildCreationData env) models maxPasses s = (Ret mdm, s') ->
      runStateOk mdm) /\
  (forall mdm flag name entry s,
      JsObj.get mdm name = Some entry -> created entry = true ->
      attemptModel env (buildCreationData env) (mdm, flag) name s = (Ret (mdm, flag), s)).
Proof.
  assert (Hstep := attempt_step_runStateOk W env (buildCreationData env)
                     (quiet_buildCreationData W env)).
  repeat apply conj.
  - apply initModelDataMap_runStateOk.
  - intros names mdm s mdm' flag s' Hok Hrun.
    destruct (runPass_generic W env (buildCreationData env) (quiet_buildCreationData W env)
                runStateOk attemptEvent Hstep names mdm false s Hok)
      as (_ & t & _ & _ & Hres).
    fold (runPass env (buildCreationData env) names mdm) in Hres.
    rewrite Hrun in Hres. now apply (Hres mdm' flag).
  - intros models maxPasses s mdm s' Hrun.
    destruct (multiPassCreate_generic W env (buildCreationData env)
                (quiet_buildCreationData W env) runStateOk attemptEvent
                attemptEvent_notPassStart Hstep models maxPasses s
                (initModelDataMap_runStateOk models))
      as (_ & t & _ & _ & _ & Hres).
    rewrite Hrun in Hres. now apply Hres.
  - intros mdm flag name entry s Hget Hc. unfold attemptModel. simpl.
    now rewrite Hget, Hc.
Qed.

Lemma multiPassCreate_run_state_witness :
  exists mdm s',
    multiPassCreate (strictStore cyclicSchema) (buildCreationData (strictStore cyclicSchema))
                    cyclicSchema 5 (start 0) = (Ret mdm, s') /\
    map (fun k => (isCreated mdm k, recordCount mdm k)) (JsObj.keys mdm)
    = [(false, 0); (true, 1); (false, 0); (true, 1); (true, 1)] /\
    runStateOk mdm.
Proof.
  eexists. eexists. split; [vm_compute; reflexivity |]. split; [reflexivity |].
  eapply (proj1 (proj2 (proj2 (multiPassCreate_run_state nat (strictStore cyclicSchema))))
            cyclicSchema 5%Z (start 0)).
  vm_compute. reflexivity.
Defined.

(** ** C6 and C7: what payload assembly gives to relation fields *)

Section PayloadFacts.
Import JsObj.

Variable W : Type.
Variable env : Env W.

Lemma returns_ret {A : Type} (a : A) : returns (W := W) (ret a).
Proof. intros s. now exists a, s. Qed.

Lemma returns_bind {A B : Type} (m : M W A) (k : A -> M W B) :
  returns m -> (forall a, returns (k a)) -> returns (bind m k).
Proof.
  intros Hm Hk s. destruct (Hm s) as (a & s1 & E). unfold bind. rewrite E. apply Hk.
Qed.

Lemma returns_forEach {A S : Type} (body : S -> A -> M W S) (xs : list A) :
  (forall acc x, returns (body acc x)) -> forall acc, returns (forEach body xs acc).
Proof.
  intros Hb. induction xs as [| x xs IH]; intros acc; simpl.
  - apply returns_ret.
  - apply returns_bind; [apply Hb | apply IH].
Qed.

Lemma returns_generateFakeValueForField (field : Field) :
  returns (generateFakeValueForField env field).
Proof.
  assert (Hr : returns (randomToken env)).
  { intros s. unfold randomToken. destruct (random_token env (ext s)); eauto. }
  assert (Hc : returns (currentTime env)).
  { intros s. unfold currentTime. destruct (clock env (ext s)); eauto. }
  unfold generateFakeValueForField. split_ifs;
    try apply returns_ret;
    (apply returns_bind; [assumption | intros; apply returns_ret]).
Qed.

(** A step of the scalar loop returns, and writes nothing but the name of a
    scalar field. *)
Lemma scalarStep_effect (m : Model) (data : Obj) (field : Field) (s : Sys W) :
  exists data' s',
    scalarStep env m data field s = (Ret data', s') /\
    (data' = data \/
     kind field = KScalar /\ exists v, data' = set data (fname field) v).
Proof.
  unfold scalarStep. destruct (kind field) eqn:Hk; simpl; try (exists data, s; now auto).
  destruct (negb (isReadOnly field)); [| exists data, s; now auto].
  destruct (isForeignKey m field); [exists data, s; now auto |].
  unfold bind. destruct (returns_generateFakeValueForField field s) as (v & s1 & ->).
  exists (set data (fname field) v), s1. split; [reflexivity |]. right. eauto.
Qed.

Lemma scalarStepInline_effect (data : Obj) (field : Field) (s : Sys W) :
  exists data' s',
    scalarStepInline env data field s = (Ret data', s') /\
    (data' = data \/
     kind field = KScalar /\ exists v, data' = set data (fname field) v).
Proof.
  unfold scalarStepInline. destruct (kind field) eqn:Hk; simpl; try (exists data, s; now auto).
  destruct (negb (isReadOnly field)); [| exists data, s; now auto].
  unfold bind. destruct (returns_generateFakeValueForField field s) as (v & s1 & ->).
  exists (set data (fname field) v), s1. split; [reflexivity |]. right. eauto.
Qed.

Lemma connectByKey_Some (rks : list string) (r : Obj) :
  connectByKey (Some rks) (Some r) = Ret (VObj [("connect", VObj (connectObject rks r))]).
Proof. destruct rks; reflexivity. Qed.

Lemma connectObject_get_acc (rks : list string) (r : Obj) :
  forall (c0 : Obj) (k : string),
    get (fold_left (fun c rk => set c rk (prop r rk)) rks c0) k
    = if mem k rks then Some (prop r k) else get c0 k.
Proof.
  induction rks as [| rk rks IH]; intros c0 k; [reflexivity |].
  cbn [fold_left]. rewrite IH, mem_cons, get_set. destruct (mem k rks).
  - now rewrite orb_true_r.
  - rewrite orb_false_r, String.eqb_sym.
    destruct (String.eqb_spec k rk) as [-> | _]; reflexivity.
Qed.

Lemma connectObject_get (rks : list string) (r : Obj) (k : string) :
  get (connectObject rks r) k = if mem k rks then Some (prop r k) else None.
Proof. unfold connectObject. now rewrite connectObject_get_acc. Qed.

(** A step of the relation loop, when it returns, writes nothing but the name
    of an object field that targets another type. *)
Lemma relationStep_effect (mdm : ModelDataMap) (name : string) (m : Model)
  (data data' : Obj) (field : Field) :
  relationStep mdm name m data field = Ret data' ->
  data' = data \/
  kind field = KObject /\ ftype field <> name /\
  exists v, data' = set data (fname field) v.
Proof.
  unfold relationStep.
  destruct (kind field) eqn:Hk; simpl; try (intros [= <-]; now left).
  destruct (String.eqb_spec (ftype field) name) as [| Hne]; [intros [= <-]; now left |].
  destruct (isList field); [intros [= <-]; now left |].
  destruct (relationFromFields field) as [[| x from] |]; try (intros [= <-]; now left).
  destruct (get mdm (ftype field)) as [related |].
  - destruct (createdRecords related) as [| r rest].
    + intros [= <-]. right. eauto.
    + destruct (connectByKey (relationToFields field) (Some r)); intros [= <-].
      right. eauto.
  - destruct (anyFKrequired m (x :: from)); intros [= <-]; [right; eauto | now left].
Qed.

(** With [relationToFields] defined, a step of the relation loop returns. *)
Lemma relationStep_returns (mdm : ModelDataMap) (name : string) (m : Model)
  (data : Obj) (field : Field) :
  (kind field = KObject -> relationToFields field <> None) ->
  exists data', relationStep mdm name m data field = Ret data'.
Proof.
  intros Hrtf. unfold relationStep.
  destruct (kind field) eqn:Hk; simpl; eauto.
  destruct (String.eqb (ftype field) name); eauto.
  destruct (isList field); eauto.
  destruct (relationFromFields field) as [[| x from] |]; eauto.
  destruct (get mdm (ftype field)) as [related |]; eauto.
  destruct (createdRecords related) as [| r rest]; eauto.
  destruct (relationToFields field) as [rks |] eqn:E.
  - rewrite connectByKey_Some. eauto.
  - exfalso. now apply Hrtf.
Qed.

Lemma NoDup_fname_inj (l : list Field) (a b : Field) :
  NoDup (map fname l) -> In a l -> In b l -> fname a = fname b -> a = b.
Proof.
  induction l as [| x l IH]; simpl; intros Hnd Ha Hb Heq; [contradiction |].
  inversion Hnd as [| ? ? Hx Hl]; subst.
  destruct Ha as [-> | Ha], Hb as [-> | Hb]; auto.
  - exfalso. apply Hx. rewrite Heq. now apply in_map.
  - exfalso. apply Hx. rewrite <- Heq. now apply in_map.
Qed.

(** The relation loop over fields that leave the key [k] alone. *)
Lemma relation_loop_keeps (mdm : ModelDataMap) (name : string) (m : Model)
  (k : string) (l : list Field) :
  (forall g, In g l -> kind g = KObject -> relationToFields g <> None) ->
  (forall g, In g l -> fname g <> k) ->
  forall data (s : Sys W),
  exists data',
    forEach (fun d f => lift (relationStep mdm name m d f)) l data s = (Ret data', s) /\
    get data' k = get data k.
Proof.
  induction l as [| g l IH]; intros Hrtf Hk data s; simpl.
  - exists data. now split.
  - unfold bind, lift.
    destruct (relationStep_returns mdm name m data g (Hrtf g (or_introl eq_refl)))
      as [d1 E1].
    rewrite E1.
    destruct (IH (fun g' H => Hrtf g' (or_intror H)) (fun g' H => Hk g' (or_intror H)) d1 s)
      as (d2 & E2 & Hget).
    exists d2. split; [assumption |]. rewrite Hget.
    destruct (relationStep_effect _ _ _ _ _ _ E1) as [-> | (_ & _ & v & ->)]; [reflexivity |].
    apply get_set_other. apply Hk. now left.
Qed.

End PayloadFacts.

Section PayloadTheorems.
Import JsObj.

Variable W : Type.
Variable env : Env W.

Lemma relation_loop_connects (mdm : ModelDataMap) (name : string) (m : Model)
  (l : list Field) (f : Field) (x : string) (xs rks : list string)
  (tgt : ModelData) (rec : Obj) (rest : list Obj) :
  NoDup (map fname l) ->
  (forall g, In g l -> kind g = KObject -> relationToFields g <> None) ->
  In f l ->
  kind f = KObject -> ftype f <> name -> isList f = false ->
  relationFromFields f = Some (x :: xs) ->
  relationToFields f = Some rks ->
  get mdm (ftype f) = Some tgt ->
  createdRecords tgt = rec :: rest ->
  forall data (s : Sys W),
  exists data',
    forEach (fun d g => lift (relationStep mdm name m d g)) l data s = (Ret data', s) /\
    get data' (fname f) = Some (VObj [("connect", VObj (connectObject rks rec))]).
Proof.
  intros Hnd Hrtf Hin Hk Hty Hli Hfrom Hto Htgt Hrecs data s.
  destruct (in_split _ _ Hin) as (l1 & l2 & ->).
  rewrite map_app in Hnd. simpl in Hnd.
  assert (Hout := NoDup_remove_2 _ _ _ Hnd).
  assert (H1 : forall g, In g l1 -> fname g <> fname f).
  { intros g Hg E. apply Hout, in_or_app. left. rewrite <- E. now apply in_map. }
  assert (H2 : forall g, In g l2 -> fname g <> fname f).
  { intros g Hg E. apply Hout, in_or_app. right. rewrite <- E. now apply in_map. }
  assert (R1 : forall g, In g l1 -> kind g = KObject -> relationToFields g <> None).
  { intros g Hg. apply Hrtf, in_or_app. now left. }
  assert (R2 : forall g, In g l2 -> kind g = KObject -> relationToFields g <> None).
  { intros g Hg. apply Hrtf, in_or_app. right. now right. }
  rewrite forEach_app. unfold bind at 1.
  destruct (relation_loop_keeps W mdm name m (fname f) l1 R1 H1 data s)
    as (da & -> & _).
  simpl. unfold bind at 1. unfold lift at 1.
  assert (Hstep : relationStep mdm name m da f
                  = Ret (set da (fname f) (VObj [("connect", VObj (connectObject rks rec))]))).
  { unfold relationStep. rewrite Hk. simpl.
    destruct (String.eqb_spec (ftype f) name); [contradiction |].
    now rewrite Hli, Hfrom, Htgt, Hrecs, Hto, connectByKey_Some. }
  rewrite Hstep.
  destruct (relation_loop_keeps W mdm name m (fname f) l2 R2 H2
              (set da (fname f) (VObj [("connect", VObj (connectObject rks rec))])) s)
    as (db & -> & Hget).
  exists db. split; [reflexivity |]. rewrite Hget. apply get_set_same.
Qed.

(** C6.  Let [f] be a non-list relation field of the type [name], targeting
    another type, with a non-empty [relationFromFields], and let the target
    type have a created record.  Then [buildCreationData] returns a payload
    whose property [f] is [{ connect: c }], where [c] maps every name of
    [relationToFields] to the value of that field in the first created record
    of the target type, and has no other key. *)
Theorem buildCreationData_connects (mdm : ModelDataMap) (name : string)
  (entry : ModelData) (f : Field) (x : string) (xs rks : list string)
  (tgt : ModelData) (rec : Obj) (rest : list Obj) (s : Sys W) :
  get mdm name = Some entry ->
  NoDup (map fname (fields (model entry))) ->
  (forall g, In g (fields (model entry)) -> kind g = KObject ->
             relationToFields g <> None) ->
  In f (fields (model entry)) ->
  kind f = KObject -> ftype f <> name -> isList f = false ->
  relationFromFields f = Some (x :: xs) ->
  relationToFields f = Some rks ->
  get mdm (ftype f) = Some tgt ->
  createdRecords tgt = rec :: rest ->
  exists data s' c,
    buildCreationData env mdm name s = (Ret data, s') /\
    get data (fname f) = Some (VObj [("connect", VObj c)]) /\
    (forall rk, In rk rks -> get c rk = Some (prop rec rk)) /\
    (forall k, In k (keys c) -> In k rks).
Proof.
  intros Hget Hnd Hrtf Hin Hk Hty Hli Hfrom Hto Htgt Hrecs.
  unfold buildCreationData. rewrite Hget. unfold bind.
  assert (Hscalar : returns (forEach (scalarStep env (model entry))
                                     (fields (model entry)) empty)).
  { apply returns_forEach. intros acc g s0.
    destruct (scalarStep_effect W env (model entry) acc g s0) as (d & s1 & E & _). eauto. }
  destruct (Hscalar s) as (d1 & s1 & ->).
  destruct (relation_loop_connects mdm name (model entry) (fields (model entry)) f x xs rks
              tgt rec rest Hnd Hrtf Hin Hk Hty Hli Hfrom Hto Htgt Hrecs d1 s1)
    as (data & -> & Hdata).
  exists data, s1, (connectObject rks rec). repeat split; try assumption.
  - intros rk Hrk. rewrite connectObject_get. apply mem_In in Hrk. now rewrite Hrk.
  - intros k Hkeys. apply get_In_keys in Hkeys. rewrite connectObject_get in Hkeys.
    destruct (mem k rks) eqn:E; [now apply mem_In | congruence].
Qed.

(** The payload of [buildCreationData] has no property named after a relation
    field that targets the type itself. *)
Lemma buildCreationData_skips_self (mdm : ModelDataMap) (name : string)
  (entry : ModelData) (f : Field) (s s' : Sys W) (data : Obj) :
  get mdm name = Some entry ->
  NoDup (map fname (fields (model entry))) ->
  In f (fields (model entry)) ->
  kind f = KObject -> ftype f = name ->
  buildCreationData env mdm name s = (Ret data, s') ->
  get data (fname f) = None.
Proof.
  intros Hget Hnd Hin Hk Hty. unfold buildCreationData. rewrite Hget. unfold bind.
  destruct (forEach (scalarStep env (model entry)) (fields (model entry)) empty s)
    as [[d1 | e |] s1] eqn:E1; try discriminate.
  intros E2.
  assert (H1 : get d1 (fname f) = None).
  { apply (forEach_invariant W (fun d => get d (fname f) = None)
             (scalarStep env (model entry)) (fields (model entry)))
      with (acc := empty) (s := s) (s' := s1); [| reflexivity | assumption].
    intros acc g s0 acc' s0' Hg Hacc Hstep.
    destruct (scalarStep_effect W env (model entry) acc g s0) as (d & s2 & E & Heff).
    rewrite E in Hstep. injection Hstep as <- _.
    destruct Heff as [-> | (Hkg & v & ->)]; [assumption |].
    rewrite get_set_other; [assumption |].
    intros Heq. assert (g = f) by (eapply NoDup_fname_inj; eauto). subst g. congruence. }
  apply (forEach_invariant W (fun d => get d (fname f) = None)
           (fun d g => lift (relationStep mdm name (model entry) d g))
           (fields (model entry)))
    with (acc := d1) (s := s1) (s' := s'); [| assumption | assumption].
  intros acc g s0 acc' s0' Hg Hacc Hstep. unfold lift in Hstep.
  injection Hstep as Hstep _.
  destruct (relationStep_effect _ _ _ _ _ _ Hstep) as [-> | (Hkg & Hne & v & ->)];
    [assumption |].
  rewrite get_set_other; [assumption |].
  intros Heq. assert (g = f) by (eapply NoDup_fname_inj; eauto). subst g. contradiction.
Qed.

Lemma relationStepInline_effect (mdm : ModelDataMap) (m : Model)
  (data data' : Obj) (field : Field) :
  relationStepInline mdm m data field = Ret data' ->
  data' = data \/
  kind field = KObject /\
  (data' = set data (fname field) VUndefined \/
   exists related r rest v,
     get mdm (ftype field) = Some related /\ createdRecords related = r :: rest /\
     data' = set data (fname field) v).
Proof.
  unfold relationStepInline.
  destruct (kind field) eqn:Hk; simpl; try (intros [= <-]; now left).
  destruct (isList field); [intros [= <-]; now left |].
  destruct (relationFromFields field) as [[| x from] |]; try (intros [= <-]; now left).
  destruct (get mdm (ftype field)) as [related |] eqn:Hrel.
  - destruct (createdRecords related) as [| r rest] eqn:Hrecs.
    + intros [= <-]. right. split; [reflexivity | now left].
    + destruct (connectByKey (relationToFields field) (Some r)); intros [= <-].
      right. split; [reflexivity |]. right. exists related, r, rest, a. auto.
  - destruct (anyFKrequired m (x :: from)); intros [= <-];
      [right; split; [reflexivity | now left] | now left].
Qed.

(** The third variant writes [undefined], at most, to a relation field that
    targets the type itself, as long as the type has no record. *)
Lemma assembleInline_self_unset (mdm : ModelDataMap) (name : string)
  (entry : ModelData) (f : Field) (s s' : Sys W) (data : Obj) :
  get mdm name = Some entry ->
  createdRecords entry = [] ->
  NoDup (map fname (fields (model entry))) ->
  In f (fields (model entry)) ->
  kind f = KObject -> ftype f = name ->
  assembleInline env mdm name s = (Ret data, s') ->
  prop data (fname f) = VUndefined.
Proof.
  intros Hget Hrecs Hnd Hin Hk Hty. unfold assembleInline. rewrite Hget. unfold bind.
  destruct (forEach (scalarStepInline env) (fields (model entry)) empty s)
    as [[d1 | e |] s1] eqn:E1; try discriminate.
  intros E2.
  set (J := fun d : Obj => prop d (fname f) = VUndefined).
  assert (H1 : J d1).
  { apply (forEach_invariant W J (scalarStepInline env) (fields (model entry)))
      with (acc := empty) (s := s) (s' := s1); [| reflexivity | assumption].
    intros acc g s0 acc' s0' Hg Hacc Hstep.
    destruct (scalarStepInline_effect W env acc g s0) as (d & s2 & E & Heff).
    rewrite E in Hstep. injection Hstep as <- _.
    destruct Heff as [-> | (Hkg & v & ->)]; [assumption |].
    unfold J, prop in *. rewrite get_set_other; [assumption |].
    intros Heq. assert (g = f) by (eapply NoDup_fname_inj; eauto). subst g. congruence. }
  apply (forEach_invariant W J
           (fun d g => lift (relationStepInline mdm (model entry) d g))
           (fields (model entry)))
    with (acc := d1) (s := s1) (s' := s'); [| assumption | assumption].
  intros acc g s0 acc' s0' Hg Hacc Hstep. unfold lift in Hstep.
  injection Hstep as Hstep _.
  destruct (relationStepInline_effect _ _ _ _ _ Hstep)
    as [-> | (Hkg & [-> | (related & r & rest & v & Hrel & Hr & ->)])]; [assumption | |].
  - unfold J, prop in *. rewrite get_set.
    destruct (String.eqb (fname g) (fname f)); [reflexivity | assumption].
  - unfold J, prop in *. rewrite get_set_other; [assumption |].
    intros Heq. assert (g = f) by (eapply NoDup_fname_inj; eauto). subst g.
    rewrite Hty, Hget in Hrel. injection Hrel as <-. congruence.
Qed.

End PayloadTheorems.

Lemma buildCreationData_connects_witness :
  let root := [("id", VNum 7 0); ("name", VStr "root")] in
  let mdm :=
    [ ("Post", mkModelData postModel [] false);
      ("User", mkModelData userModel [] false);
      ("Level", mkModelData levelModel [root] true) ] in
  exists data s' c,
    buildCreationData (strictStore blogSchema) mdm "User" (start 0) = (Ret data, s') /\
    JsObj.get data "level" = Some (VObj [("connect", VObj c)]) /\
    (forall rk, In rk ["id"] -> JsObj.get c rk = Some (prop root rk)) /\
    (forall k, In k (JsObj.keys c) -> In k ["id"]).
Proof.
  cbv zeta.
  apply (buildCreationData_connects nat (strictStore blogSchema) _ "User"
           (mkModelData userModel [] false)
           (relationField "level" "Level" true ["levelId"] ["id"]) "levelId" [] ["id"]
           (mkModelData levelModel [[("id", VNum 7 0); ("name", VStr "root")]] true)
           [("id", VNum 7 0); ("name", VStr "root")] []).
  - reflexivity.
  - apply nodupb_NoDup. reflexivity.
  - intros g Hg Hkind. simpl in Hg.
    destruct Hg as [<- | [<- | [<- | [<- | []]]]]; simpl in *; discriminate.
  - simpl. tauto.
  - reflexivity.
  - discriminate.
  - reflexivity.
  - reflexivity.
  - reflexivity.
  - reflexivity.
  - reflexivity.
Defined.

Section SelfRelation.
Import JsObj.

Variable W : Type.
Variable env : Env W.
Variable assemble : ModelDataMap -> string -> M W Obj.
Hypothesis assemble_quiet : forall mdm name, quiet (assemble mdm name).
Hypothesis assemble_noSelf :
  forall mdm name entry s s' data,
    get mdm name = Some entry ->
    createdRecords entry = [] ->
    NoDup (map fname (fields (model entry))) ->
    assemble mdm name s = (Ret data, s') ->
    noSelfConnect name (model entry) data.

Variable models : list Model.
Hypothesis models_fields : forall m, In m models -> NoDup (map fname (fields m)).

Lemma selfFree_notPassStart (e : Event) :
  selfFree (initModelDataMap models) e -> notPassStart e.
Proof. destruct e; simpl; tauto. Qed.

Lemma attempt_payload (mdm : ModelDataMap) (name : string) (entry : ModelData)
  (s s1 : Sys W) (data : Obj) (res : Obj + exn) :
  mainLoopInv (initModelDataMap models) mdm ->
  get mdm name = Some entry -> created entry = false ->
  assemble mdm name s = (Ret data, s1) ->
  selfFree (initModelDataMap models) (CallCreate name data res).
Proof.
  intros [Hok Hsame] Hget Hc Ha entry0 Hget0. simpl.
  destruct (Hsame name entry Hget) as (e0 & He0 & Hmodel).
  rewrite Hget0 in He0. injection He0 as <-. rewrite <- Hmodel.
  apply (assemble_noSelf mdm name entry s s1 data); try assumption.
  - destruct (Hok name entry Hget) as [Hflag _].
    destruct (createdRecords entry) as [| x l] eqn:E; [reflexivity |].
    assert (created entry = true) by (apply Hflag; discriminate). congruence.
  - rewrite Hmodel. apply models_fields.
    apply (initModelDataMap_entry models name entry0 Hget0).
Qed.

Lemma attempt_step_selfFree :
  forall mdm flag name s r,
    mainLoopInv (initModelDataMap models) mdm ->
    attemptSpec env assemble mdm flag name s r ->
    fst r <> OutOfFuel /\
    exists t, trace (snd r) = trace s ++ t /\
              Forall (selfFree (initModelDataMap models)) t /\
              forall mdm' flag', fst r = Ret (mdm', flag') ->
                                 mainLoopInv (initModelDataMap models) mdm' /\
                                 flag' = flag || existsb isCreation t.
Proof.
  intros mdm flag name s r HJ Hspec.
  destruct (attemptSpec_trace W env assemble assemble_quiet _ _ _ _ _ Hspec)
    as (H1 & t & H2 & _ & H4).
  assert (Hok' := attemptSpec_runStateOk W env assemble _ _ _ _ _ (proj1 HJ) Hspec).
  split; [assumption |].
  destruct Hspec as [e Hget | entry Hget Hc | entry e s1 Hget Hc Ha
                     | entry data s1 rec w Hget Hc Ha Hp | entry data s1 e w Hget Hc Ha Hp];
    simpl in *.
  - exists []. rewrite app_nil_r. repeat split; try constructor; discriminate.
  - exists []. rewrite app_nil_r. split; [reflexivity |]. split; [constructor |].
    intros mdm' flag' [= <- <-]. split; [assumption | now rewrite orb_false_r].
  - exists []. rewrite app_nil_r, (assemble_trace W assemble assemble_quiet _ _ _ _ _ Ha).
    repeat split; try constructor; discriminate.
  - exists [CallCreate name data (inl rec)].
    rewrite (assemble_trace W assemble assemble_quiet _ _ _ _ _ Ha).
    split; [reflexivity |]. split.
    + constructor; [| constructor]. eapply attempt_payload; eauto.
    + intros mdm' flag' Hr. split; [split |].
      * eapply Hok'; eauto.
      * injection Hr as <- _. intros k entry'. rewrite !get_update.
        destruct (String.eqb_spec name k) as [<- | Hne]; [| apply (proj2 HJ)].
        rewrite Hget. simpl. intros [= <-]. simpl. now apply (proj2 HJ).
      * injection Hr as _ <-. simpl. now rewrite orb_true_r.
  - exists [CallCreate name data (inr e)].
    rewrite (assemble_trace W assemble assemble_quiet _ _ _ _ _ Ha).
    split; [reflexivity |]. split.
    + constructor; [| constructor]. eapply attempt_payload; eauto.
    + intros mdm' flag' [= <- <-]. split; [assumption | simpl; now rewrite orb_false_r].
Qed.

Lemma multiPassCreate_selfFree (maxPasses : Z) (s : Sys W) (t : list Event) :
  trace (snd (multiPassCreate env assemble models maxPasses s)) = trace s ++ t ->
  forall name data res entry,
    In (CallCreate name data res) t ->
    get (initModelDataMap models) name = Some entry ->
    noSelfConnect name (model entry) data.
Proof.
  intros Ht name data res entry Hin Hget.
  destruct (multiPassCreate_generic W env assemble assemble_quiet
              (mainLoopInv (initModelDataMap models))
              (selfFree (initModelDataMap models))
              selfFree_notPassStart attempt_step_selfFree models maxPasses s)
    as (_ & t' & Ht' & _ & Hall & _).
  { split; [apply initModelDataMap_runStateOk |]. intros k e He. eauto. }
  rewrite Ht in Ht'. apply app_inv_head in Ht'. subst t'.
  rewrite Forall_forall in Hall. specialize (Hall _ Hin).
  destruct Hall as [H | [H | [p H]]]; try discriminate.
  now apply H.
Qed.

End SelfRelation.

(** ** C7: the main loop connects no type to itself *)

(** C7.  [buildCreationData] leaves every relation field that targets the
    owning type out of the payload.  And every payload that the main loop
    submits to the store, built by [buildCreationData] or by the loops inlined
    in the third variant of [tryCreateOneRecord], gives no connect instruction
    to such a field. *)
Theorem main_loop_skips_self_relations (W : Type) (env : Env W) :
  (forall mdm name entry f s s' data,
      JsObj.get mdm name = Some entry ->
      NoDup (map fname (fields (model entry))) ->
      In f (fields (model entry)) ->
      kind f = KObject -> ftype f = name ->
      buildCreationData env mdm name s = (Ret data, s') ->
      JsObj.get data (fname f) = None) /\
  (forall assemble models maxPasses s t,
      assemble = buildCreationData env \/ assemble = assembleInline env ->
      forallb (fun m => nodupb (map fname (fields m))) models = true ->
      trace (snd (multiPassCreate env assemble models maxPasses s)) = trace s ++ t ->
      forall name data res entry,
        In (CallCreate name data res) t ->
        JsObj.get (initModelDataMap models) name = Some entry ->
        noSelfConnect name (model entry) data).
Proof.
  split.
  - intros mdm name entry f s s' data. apply buildCreationData_skips_self.
  - intros assemble models maxPasses s t Hasm Hnd.
    assert (Hfields : forall m, In m models -> NoDup (map fname (fields m))).
    { intros m Hm. rewrite forallb_forall in Hnd. apply nodupb_NoDup. now apply Hnd. }
    destruct Hasm as [-> | ->].
    + apply multiPassCreate_selfFree; try assumption.
      * apply quiet_buildCreationData.
      * intros mdm name entry s0 s' data Hget _ Hn Hrun f Hf Hk Hty.
        unfold prop.
        now rewrite (buildCreationData_skips_self W env mdm name entry f s0 s' data).
    + apply multiPassCreate_selfFree; try assumption.
      * apply quiet_assembleInline.
      * intros mdm name entry s0 s' data Hget Hrecs Hn Hrun f Hf Hk Hty.
        now rewrite (assembleInline_self_unset W env mdm name entry f s0 s' data).
Qed.

Lemma main_loop_skips_self_relations_witness :
  let env := strictStore [employeeModel] in
  let payload := [("id", VNum 123 0); ("managerId", VNum 123 0); ("manager", VUndefined)] in
  let t := [LogPassStart 1; CallCreate "Employee" payload (inl [("id", VNum 0 0)]);
            LogPassStart 2; LogNoProgress] in
  trace (snd (multiPassCreate env (assembleInline env) [employeeModel] 5 (start 0)))
  = [] ++ t /\
  noSelfConnect "Employee" employeeModel payload.
Proof.
  cbv zeta. split; [reflexivity |].
  apply (proj2 (main_loop_skips_self_relations nat (strictStore [employeeModel]))
           (assembleInline (strictStore [employeeModel])) [employeeModel] 5%Z (start 0)
           [LogPassStart 1;
            CallCreate "Employee"
              [("id", VNum 123 0); ("managerId", VNum 123 0); ("manager", VUndefined)]
              (inl [("id", VNum 0 0)]);
            LogPassStart 2; LogNoProgress])
    with (res := inl [("id", VNum 0 0)]) (entry := mkModelData employeeModel [] false).
  - now right.
  - reflexivity.
  - reflexivity.
  - right. now left.
  - reflexivity.
Defined.

(** ** C9: the session is closed on every exit path *)

Section Disconnect.

Variable W : Type.
Variable env : Env W.

Lemma emitsOnly_callCreate (name : string) (data : Obj) :
  emitsOnly notDisconnect (callCreate env name data).
Proof.
  intros s. unfold callCreate. destruct (prisma_create env name data (ext s)) as [r w].
  simpl. split; [destruct r; discriminate |].
  eexists. split; [reflexivity |]. repeat constructor.
Qed.

Lemma emitsOnly_callUpdate (name : string) (where_ data : Obj) :
  emitsOnly notDisconnect (callUpdate env name where_ data).
Proof.
  intros s. unfold callUpdate. destruct (prisma_update env name where_ data (ext s)) as [r w].
  simpl. split; [destruct r; discriminate |].
  eexists. split; [reflexivity |]. repeat constructor.
Qed.

Lemma emitsOnly_callLoad (seedPath : string) :
  emitsOnly notDisconnect (callLoad env seedPath).
Proof.
  intros s. unfold callLoad. destruct (load_schema env seedPath (ext s)) as [r w].
  simpl. split; [destruct r; discriminate |].
  eexists. split; [reflexivity |]. repeat constructor.
Qed.

Lemma emitsOnly_tryCreateOneRecord (mdm : ModelDataMap) (name : string) :
  emitsOnly notDisconnect (tryCreateOneRecord env (buildCreationData env) mdm name).
Proof.
  unfold tryCreateOneRecord. apply emitsOnly_bind.
  - apply quiet_emitsOnly, quiet_buildCreationData.
  - intros data. apply emitsOnly_tryCatch.
    + apply emitsOnly_bind; [apply emitsOnly_callCreate | intros; apply emitsOnly_ret].
    + intros e. apply emitsOnly_ret.
Qed.

Lemma emitsOnly_createAdditionalSelfRelationRecord (mdm : ModelDataMap) (name : string) :
  emitsOnly notDisconnect (createAdditionalSelfRelationRecord env mdm name).
Proof.
  unfold createAdditionalSelfRelationRecord.
  destruct (JsObj.get mdm name) as [entry |]; [| apply emitsOnly_throw].
  apply emitsOnly_bind.
  - destruct (length (createdRecords entry) =? 0)%nat;
      [apply emitsOnly_tryCreateOneRecord | apply emitsOnly_ret].
  - intros [success mdm1]. destruct (negb success); [apply emitsOnly_ret |].
    apply emitsOnly_bind; [apply quiet_emitsOnly, quiet_buildCreationData |].
    intros data. apply emitsOnly_bind.
    + destruct (find (isSelfRelationField name) (fields (model entry))) as [f |];
        [| apply emitsOnly_ret].
      apply emitsOnly_bind.
      * apply quiet_emitsOnly, quiet_lift, connectByKey_fuel.
      * intros c. apply emitsOnly_ret.
    + intros data'. apply emitsOnly_tryCatch; [| intros e; apply emitsOnly_ret].
      apply emitsOnly_bind; [apply emitsOnly_callCreate |]. intros second.
      apply emitsOnly_bind.
      * destruct (match JsObj.get mdm1 name with
                  | Some entry1 => hd_error (createdRecords entry1)
                  | None => None
                  end); [apply emitsOnly_ret | apply emitsOnly_throw].
      * intros first. apply emitsOnly_bind; [apply emitsOnly_callUpdate |].
        intros second'. apply emitsOnly_ret.
Qed.

Lemma emitsOnly_resolveSelfRelation (mdm : ModelDataMap) (name : string) :
  emitsOnly notDisconnect (resolveSelfRelation env mdm name).
Proof.
  unfold resolveSelfRelation.
  destruct (JsObj.get mdm name) as [entry |]; [| apply emitsOnly_throw].
  destruct (isSelfRelationModel (model entry) && (length (createdRecords entry) <? 2)%nat);
    [apply emitsOnly_createAdditionalSelfRelationRecord | apply emitsOnly_ret].
Qed.

Lemma emitsOnly_multiPassCreate (models : list Model) (maxPasses : Z) :
  emitsOnly notDisconnect (multiPassCreate env (buildCreationData env) models maxPasses).
Proof.
  intros s.
  destruct (multiPassCreate_generic W env (buildCreationData env)
              (quiet_buildCreationData W env) (fun _ => True) attemptEvent
              attemptEvent_notPassStart) with (models := models) (maxPasses := maxPasses) (s := s)
    as (H1 & t & H2 & _ & H3 & _).
  - intros mdm flag name s0 r _ Hspec.
    destruct (attemptSpec_trace W env _ (quiet_buildCreationData W env) _ _ _ _ _ Hspec)
      as (Ha & t & Hb & Hc & Hd).
    split; [assumption |]. exists t. split; [assumption |]. split; [assumption |].
    intros mdm' flag' Hr. split; [exact Logic.I | eapply Hd; eauto].
  - exact Logic.I.
  - split; [assumption |]. exists t. split; [assumption |].
    eapply Forall_impl; [| exact H3].
    intros e [He | [-> | [p ->]]]; try reflexivity. now apply attemptEvent_notDisconnect.
Qed.

(** The part of [generateSeedData] inside [try ... finally]. *)
Lemma emitsOnly_seed_body (seedPath : string) :
  emitsOnly notDisconnect
    (tryCatch
       (bind (callLoad env seedPath) (fun models =>
        bind (multiPassCreate env (buildCreationData env) models 5) (fun modelDataMap =>
        bind (forEach (resolveSelfRelation env) (JsObj.keys modelDataMap) modelDataMap)
             (fun _ => emit LogSeedDone))))
       (fun error => bind (emit (LogSeedError error)) (fun _ => throw error))).
Proof.
  apply emitsOnly_tryCatch.
  - apply emitsOnly_bind; [apply emitsOnly_callLoad |]. intros models.
    apply emitsOnly_bind; [apply emitsOnly_multiPassCreate |]. intros mdm.
    apply emitsOnly_bind.
    + apply emitsOnly_forEach. intros acc k. apply emitsOnly_resolveSelfRelation.
    + intros _. apply emitsOnly_emit. reflexivity.
  - intros e. apply emitsOnly_bind; [apply emitsOnly_emit; reflexivity |].
    intros _. apply emitsOnly_throw.
Qed.

Lemma seed_body_unreadable (seedPath : string) (s : Sys W) (e : exn) (w : W) :
  load_schema env seedPath (ext s) = (inr e, w) ->
  tryCatch
    (bind (callLoad env seedPath) (fun models =>
     bind (multiPassCreate env (buildCreationData env) models 5) (fun modelDataMap =>
     bind (forEach (resolveSelfRelation env) (JsObj.keys modelDataMap) modelDataMap)
          (fun _ => emit LogSeedDone))))
    (fun error => bind (emit (LogSeedError error)) (fun _ => throw error)) s
  = (Throw e, mkSys w (trace s ++ [CallLoad seedPath; LogSeedError e])).
Proof.
  intros Hload. unfold tryCatch. unfold bind at 1. unfold callLoad. rewrite Hload.
  unfold bind, emit, throw. simpl. now rewrite <- app_assoc.
Qed.

End Disconnect.

(** C9.  Whatever the schema location, the store and the state,
    [generateSeedData] comes to an end, and [prisma.$disconnect()] is called
    exactly once, as the last event of the run: after a run that completed,
    after a pass loop that stopped early, and before an error is rethrown.
    When the schema cannot be loaded, nothing else is attempted and that
    error is what the caller gets (unless closing the session fails too). *)
Theorem generateSeedData_disconnects (W : Type) (env : Env W) (seedPath : string)
  (s : Sys W) :
  let r := generateSeedData env seedPath s in
  fst r <> OutOfFuel /\
  (exists t, trace (snd r) = trace s ++ t ++ [CallDisconnect] /\
             Forall notDisconnect t) /\
  (forall e w,
      load_schema env seedPath (ext s) = (inr e, w) ->
      trace (snd r) = trace s ++ [CallLoad seedPath; LogSeedError e; CallDisconnect] /\
      fst r = match fst (prisma_disconnect env w) with
              | inl _ => Throw e
              | inr e' => Throw e'
              end).
Proof.
  cbv zeta. unfold generateSeedData, tryFinally.
  assert (Hbody := emitsOnly_seed_body W env seedPath s).
  split; [| split].
  - destruct Hbody as (Hfuel & _).
    match goal with
    | |- context [match ?b s with _ => _ end] => destruct (b s) as [[u | e |] s1]
    end; simpl in Hfuel; try contradiction;
      unfold callDisconnect; destruct (prisma_disconnect env (ext s1)) as [[[] | e'] w'];
      simpl; discriminate.
  - destruct Hbody as (Hfuel & t & Ht & Hall). exists t. split; [| assumption].
    match goal with
    | |- context [match ?b s with _ => _ end] => destruct (b s) as [[u | e |] s1]
    end; simpl in Hfuel, Ht; try contradiction;
      unfold callDisconnect; destruct (prisma_disconnect env (ext s1)) as [[[] | e'] w'];
      simpl; now rewrite Ht, app_assoc.
  - intros e w Hload. clear Hbody.
    rewrite (seed_body_unreadable W env seedPath s e w Hload).
    unfold callDisconnect. simpl.
    destruct (prisma_disconnect env w) as [[[] | e'] w']; simpl;
      now rewrite <- app_assoc.
Qed.

Example seed_unreadable_schema :
  generateSeedData brokenStore "prisma/schema.prisma" (start tt)
  = (Throw (Rejected "schema not found"),
     mkSys tt [CallLoad "prisma/schema.prisma";
               LogSeedError (Rejected "schema not found");
               CallDisconnect]).
Proof. reflexivity. Qed.

Example seed_early_exit :
  let r := generateSeedData (strictStore [categoryModel]) "schema.prisma" (start 0) in
  fst r = Ret tt /\
  map isDisconnect (trace (snd r)) = [false; false; false; false; false; false; true].
Proof. split; reflexivity. Qed.

(** ** C8: chains of required relations *)

Lemma insertions_In {A : Type} (x : A) (l1 l2 : list A) :
  In (l1 ++ x :: l2) (insertions x (l1 ++ l2)).
Proof.
  induction l1 as [| a l1 IH]; simpl.
  - destruct l2; now left.
  - right. now apply in_map.
Qed.

Lemma orderings_complete {A : Type} (l : list A) :
  forall l', Permutation l l' -> In l' (orderings l).
Proof.
  induction l as [| x l IH]; intros l' Hp.
  - apply Permutation_nil in Hp. subst. now left.
  - assert (Hx : In x l'). { eapply Permutation_in; [exact Hp | now left]. }
    apply in_split in Hx. destruct Hx as (l1 & l2 & ->).
    apply Permutation_cons_app_inv in Hp.
    simpl. apply in_flat_map. exists (l1 ++ l2). split; [now apply IH |].
    apply insertions_In.
Qed.

Lemma allCreatedInFirstPass_spec (models : list Model) (names : list string)
  (maxPasses : Z) :
  allCreatedInFirstPass models names maxPasses = true ->
  exists mdm s' first second,
    multiPassCreate (strictStore models) (buildCreationData (strictStore models))
                    models maxPasses (start 0) = (Ret mdm, s') /\
    passesOf (trace s') = [first; second] /\
    (forall k, In k names -> isCreated mdm k = true /\ recordCount mdm k = 1) /\
    length (filter isCreation first) = length names /\
    existsb isCreation second = false.
Proof.
  unfold allCreatedInFirstPass.
  destruct (multiPassCreate (strictStore models) (buildCreationData (strictStore models))
                            models maxPasses (start 0)) as [[mdm | e |] s'];
    simpl; try discriminate.
  destruct (passesOf (trace s')) as [| first [| second [| third rest]]] eqn:Hpasses;
    rewrite ?andb_false_r; try discriminate.
  rewrite !andb_true_iff, forallb_forall, Nat.eqb_eq, negb_true_iff.
  intros (Hall & Hfirst & Hsecond).
  exists mdm, s', first, second.
  split; [reflexivity |]. split; [exact Hpasses |]. split; [| now split].
  intros k Hk. specialize (Hall k Hk). apply andb_true_iff in Hall.
  destruct Hall as [Hc Hn]. split; [assumption | now apply Nat.eqb_eq].
Qed.

(** C8, as stated, fails: with [maxPasses = 5] and a chain of depth 6, the
    deepest type is created. *)
Lemma chain_depth_six_counterexample :
  ~ (forall mdm s',
       multiPassCreate (strictStore (chain 6)) (buildCreationData (strictStore (chain 6)))
                       (chain 6) 5 (start 0) = (Ret mdm, s') ->
       isCreated mdm (typeName 6) = false).
Proof.
  intros H.
  destruct (allCreatedInFirstPass_spec (chain 6) (map typeName (seq 1 6)) 5 eq_refl)
    as (mdm & s' & _ & _ & Hrun & _ & Hall & _).
  destruct (Hall (typeName 6)) as [Hc _].
  - simpl. tauto.
  - rewrite (H mdm s' Hrun) in Hc. discriminate.
Qed.

(** C8, amended.  With [maxPasses = 5], a chain of depth 5 or 6 declared in
    any order, and a store that accepts a creation exactly when the required
    connections are present: the run returns after two passes, every type of
    the chain, the deepest included, has been created with one record, all
    the creations belong to the first pass, and the second pass creates
    nothing. *)
Theorem chain_created_in_first_pass (depth : nat) (models : list Model) :
  depth = 5 \/ depth = 6 ->
  Permutation (chain depth) models ->
  exists mdm s' first second,
    multiPassCreate (strictStore models) (buildCreationData (strictStore models))
                    models 5 (start 0) = (Ret mdm, s') /\
    passesOf (trace s') = [first; second] /\
    (forall i, 1 <= i <= depth ->
               isCreated mdm (typeName i) = true /\ recordCount mdm (typeName i) = 1) /\
    length (filter isCreation first) = depth /\
    existsb isCreation second = false.
Proof.
  intros Hdepth Hperm.
  assert (Hrun : allCreatedInFirstPass models (map typeName (seq 1 depth)) 5 = true).
  { apply orderings_complete in Hperm.
    assert (Hall : forallb (fun ms => allCreatedInFirstPass ms (map typeName (seq 1 depth)) 5)
                           (orderings (chain depth)) = true).
    { destruct Hdepth as [-> | ->]; vm_compute; reflexivity. }
    rewrite forallb_forall in Hall. now apply Hall. }
  destruct (allCreatedInFirstPass_spec _ _ _ Hrun)
    as (mdm & s' & first & second & H1 & H2 & H3 & H4 & H5).
  exists mdm, s', first, second. repeat split; try assumption.
  - apply H3. apply in_map, in_seq. lia.
  - apply H3. apply in_map, in_seq. lia.
  - now rewrite H4, length_map, length_seq.
Qed.

Lemma chain_created_in_first_pass_witness :
  exists mdm s' first second,
    multiPassCreate (strictStore (rev (chain 6)))
                    (buildCreationData (strictStore (rev (chain 6))))
                    (rev (chain 6)) 5 (start 0) = (Ret mdm, s') /\
    passesOf (trace s') = [first; second] /\
    (forall i, 1 <= i <= 6 ->
               isCreated mdm (typeName i) = true /\ recordCount mdm (typeName i) = 1) /\
    length (filter isCreation first) = 6 /\
    existsb isCreation second = false.
Proof.
  apply (chain_created_in_first_pass 6 (rev (chain 6))).
  - now right.
  - apply Permutation_rev.
Defined.

(** * Further properties of the code *)

(** ** The graph of a schema *)

Section GraphOfSchema.
Import JsObj.

Lemma keys_set_set_add {V : Type} (o : JsObj.t V) (k : string) (v : V) :
  keys (set o k v) = set_add k (keys o).
Proof.
  unfold set_add. destruct (mem k (keys o)) eqn:E.
  - apply keys_set_present. now apply mem_In.
  - apply keys_set_absent. now apply mem_false.
Qed.

Lemma initGraph_firstOccurrences (models : list Model) :
  keys (initGraph models) = firstOccurrences (map mname models).
Proof.
  unfold initGraph, firstOccurrences.
  enough (H : forall g : Graph,
             keys (fold_left (fun g m => set g (mname m) (mkNode (mname m) [] [])) models g)
             = fold_left (fun acc x => set_add x acc) (map mname models) (keys g))
    by apply (H empty).
  induction models as [| m models IH]; intros g; simpl; [reflexivity |].
  rewrite IH. now rewrite keys_set_set_add.
Qed.

Lemma wireField_nname (owner : string) (g : Graph) (f : Field) :
  (forall k n, get g k = Some n -> nname n = k) ->
  forall k n, get (wireField owner g f) k = Some n -> nname n = k.
Proof.
  intros Hg k n. unfold wireField.
  destruct (isDependencyField f) eqn:Hd; [| apply Hg].
  destruct (get g (ftype f)) as [t |] eqn:Ht; [| apply Hg].
  fold (wireField owner g f).
  assert (E := get_wireField owner g f t k Hd Ht).
  unfold wireField in E. rewrite Hd, Ht in E. rewrite E.
  destruct (get g k) as [n0 |] eqn:E0; [| discriminate].
  simpl. intros [= <-]. simpl. now apply Hg.
Qed.

Lemma buildDependencyGraph_nname (models : list Model) (k : string) (n : Node) :
  get (buildDependencyGraph models) k = Some n -> nname n = k.
Proof.
  revert k n. unfold buildDependencyGraph.
  apply (fold_left_invariant (fun g => forall k n, get g k = Some n -> nname n = k)).
  - intros acc m _ Hacc. unfold wireModel.
    apply (fold_left_invariant (fun g => forall k n, get g k = Some n -> nname n = k));
      [| assumption].
    intros acc' f _. apply wireField_nname.
  - unfold initGraph.
    apply (fold_left_invariant (fun g : Graph => forall k n, get g k = Some n -> nname n = k)).
    + intros acc m _ Hacc k n. rewrite get_set.
      destruct (String.eqb_spec (mname m) k); [intros [= <-]; assumption | apply Hacc].
    + intros k n. discriminate.
Qed.

End GraphOfSchema.

(** X1.  In the graph of a schema, [a] depends on [b] exactly when a
    descriptor named [a] has a relation field of type [b] that is required and
    not a list, and [b] is the name of a descriptor; [b] is then referenced by
    [a], and by nothing else.  Optional relations, list relations and
    relations to a type the schema does not declare add no edge. *)
Theorem buildDependencyGraph_edges_declared (models : list Model) (a b : string) :
  (edge (buildDependencyGraph models) a b <-> declares models a b) /\
  (backEdge (buildDependencyGraph models) b a <-> declares models a b).
Proof.
  split; [apply buildDependencyGraph_edges |].
  rewrite <- buildDependencyGraph_edges.
  apply (shape_inverse (buildDependencyGraph_shape models)).
Qed.

(** X2.  The graph of a schema has one node per distinct descriptor name, in
    the order in which the names first occur; every node carries its key as
    its name; and the graph is well formed: [dependsOn] and [referencedBy] are
    duplicate-free sets of keys, each the inverse of the other. *)
Theorem buildDependencyGraph_nodes (models : list Model) :
  JsObj.keys (buildDependencyGraph models) = firstOccurrences (map mname models) /\
  (forall k n, JsObj.get (buildDependencyGraph models) k = Some n -> nname n = k) /\
  wellFormedGraph (buildDependencyGraph models) = true.
Proof.
  split; [| split].
  - rewrite buildDependencyGraph_keys. apply initGraph_firstOccurrences.
  - apply buildDependencyGraph_nname.
  - apply wellFormedGraph_shape, buildDependencyGraph_shape.
Qed.

Example duplicate_descriptor_names :
  JsObj.keys (buildDependencyGraph [userModel; levelModel; userModel]) = ["User"; "Level"].
Proof. reflexivity. Qed.

(** ** More on Kahn's loop *)

Section KahnMore.
Import JsObj.

Lemma visits_queue (refs : list string) :
  forall (inDegree : JsObj.t num) (queue : list string),
  exists added, snd (fold_left visit refs (inDegree, queue)) = queue ++ added.
Proof.
  induction refs as [| r refs IH]; intros inDegree queue; simpl.
  - exists []. now rewrite app_nil_r.
  - rewrite (surjective_pairing (visit (inDegree, queue) r)).
    destruct (IH (fst (visit (inDegree, queue) r)) (snd (visit (inDegree, queue) r)))
      as [added ->].
    unfold visit. simpl.
    destruct (isZero _ r).
    + exists (r :: added). now rewrite <- app_assoc.
    + now exists added.
Qed.

(** The loop dequeues in the order of the queue. *)
Lemma kahn_prefix (g : Graph) (fuel : nat) :
  forall (inDegree : JsObj.t num) (queue sorted : list string)
         (inDegree' : JsObj.t num) (sorted' : list string),
    kahn fuel g inDegree queue sorted = Ret (inDegree', sorted') ->
    exists rest, sorted' = sorted ++ queue ++ rest.
Proof.
  induction fuel as [| fuel IH]; intros inDegree queue sorted inDegree' sorted' Hrun;
    destruct queue as [| current queue]; simpl in Hrun; try discriminate.
  - injection Hrun as _ <-. exists []. now rewrite !app_nil_r.
  - injection Hrun as _ <-. exists []. now rewrite !app_nil_r.
  - destruct (get g current) as [node |]; [| discriminate].
    destruct (visits_queue (referencedBy node) inDegree queue) as [added Hq].
    rewrite Hq in Hrun. apply IH in Hrun. destruct Hrun as [rest ->].
    exists (added ++ rest). rewrite <- !app_assoc. reflexivity.
Qed.

Lemma initQueue_roots (g : Graph) : NoDup (keys g) -> initQueue g = rootsOf g.
Proof.
  intros Hk. unfold initQueue, rootsOf. rewrite initInDegree_keys by assumption.
  apply filter_ext. intros k. unfold isZero. rewrite initInDegree_get by assumption.
  destruct (get g k) as [n |]; simpl; [| reflexivity].
  destruct (length (dependsOn n)); reflexivity.
Qed.

Lemma filter_none {A : Type} (f : A -> bool) (l : list A) :
  (forall x, In x l -> f x = false) -> filter f l = [].
Proof.
  induction l as [| x l IH]; intros H; simpl; [reflexivity |].
  rewrite (H x (or_introl eq_refl)). apply IH. intros y Hy. apply H. now right.
Qed.

Lemma visits_keys (g : Graph) (refs : list string) :
  incl refs (keys g) ->
  forall (inDegree : JsObj.t num) (queue : list string),
    keys inDegree = keys g ->
    keys (fst (fold_left visit refs (inDegree, queue))) = keys g.
Proof.
  induction refs as [| r refs IH]; intros Hincl inDegree queue Hk; simpl; [assumption |].
  rewrite (surjective_pairing (visit (inDegree, queue) r)). apply IH.
  - intros x Hx. apply Hincl. now right.
  - unfold visit. simpl. rewrite keys_set_present; [assumption |].
    rewrite Hk. apply Hincl. now left.
Qed.

Lemma kahn_keys (g : Graph) (fuel : nat) :
  GraphShape g ->
  forall (inDegree : JsObj.t num) (queue sorted : list string)
         (inDegree' : JsObj.t num) (sorted' : list string),
    keys inDegree = keys g ->
    kahn fuel g inDegree queue sorted = Ret (inDegree', sorted') ->
    keys inDegree' = keys g.
Proof.
  intros Hshape.
  induction fuel as [| fuel IH]; intros inDegree queue sorted inDegree' sorted' Hk Hrun;
    destruct queue as [| current queue]; simpl in Hrun; try discriminate;
    try (injection Hrun as <- _; assumption).
  destruct (get g current) as [node |] eqn:Hnode; [| discriminate].
  eapply IH; [| exact Hrun].
  apply visits_keys; [| assumption].
  intros r Hr. assert (He : backEdge g current r) by (exists node; auto).
  apply (shape_inverse Hshape) in He. destruct He as (n & Hn & _).
  eapply get_Some_keys; eauto.
Qed.

(** What [topologicalSort] does on a well-formed graph. *)
Lemma topologicalSort_wellFormed (g : Graph) :
  GraphShape g ->
  exists inDegree sorted,
    topologicalSort g = Ret (sorted ++ leftOut g sorted) /\
    KahnInv g inDegree sorted /\
    DegreeInv g inDegree sorted [] /\
    Ordered g sorted.
Proof.
  intros Hshape. assert (Hk := shape_keys Hshape).
  destruct (kahn_returns g (length (keys g)) (initInDegree g) (initQueue g) [])
    as (inDegree & sorted & Hrun & Hinv).
  { now apply KahnInv_init. }
  { lia. }
  destruct (kahn_ordered g Hshape _ _ _ _ inDegree sorted
              (KahnInv_init g Hk) (DegreeInv_init g Hshape) (Ordered_nil g) Hrun)
    as [Hdeg Hord].
  assert (Hkeys : keys inDegree = keys g).
  { eapply kahn_keys; [exact Hshape | | exact Hrun]. now apply initInDegree_keys. }
  exists inDegree, sorted. split; [| split; [| split]]; try assumption.
  unfold topologicalSort. fold (initQueue g). rewrite Hrun.
  destruct (Nat.ltb_spec (length sorted) (length (keys g))) as [Hlt | Hge].
  - do 2 f_equal. rewrite Hkeys. unfold leftOut. apply filter_ext_in.
    intros k Hin. apply (ki_numeric Hinv) in Hin. destruct Hin as [z Hz].
    unfold isPositive. rewrite Hz.
    destruct (mem k sorted) eqn:E; simpl.
    + apply mem_In in E. apply (ki_seen Hinv) in E. destruct E as (z' & Hz' & Hle).
      rewrite Hz in Hz'. injection Hz' as <-. apply Z.ltb_ge. assumption.
    + apply Z.ltb_lt. destruct (Z_le_gt_dec z 0) as [Hle | Hgt]; [| lia].
      exfalso. apply mem_false in E. apply E. apply (ki_seen Hinv). eauto.
  - assert (Hperm : Permutation sorted (keys g)).
    { apply NoDup_Permutation_bis; [exact (ki_nodup Hinv) | assumption |].
      apply (KahnInv_seen_keys g _ _ Hinv). }
    unfold leftOut. rewrite filter_none; [now rewrite app_nil_r |].
    intros k Hin. apply negb_false_iff, mem_In.
    eapply Permutation_in; [apply Permutation_sym; exact Hperm | assumption].
Qed.

Lemma leftOut_In (g : Graph) (sorted : list string) (k : string) :
  In k (leftOut g sorted) <-> In k (keys g) /\ ~ In k sorted.
Proof.
  unfold leftOut. rewrite filter_In, negb_true_iff, mem_false. tauto.
Qed.

Lemma Ordered_deps (g : Graph) (l : list string) (a b : string) :
  Ordered g l -> In a l -> edge g a b -> In b l.
Proof.
  intros Hord Ha He. destruct (Ordered_before g l a b Hord Ha He) as (l1 & l2 & l3 & ->).
  apply in_or_app. right. now left.
Qed.

Lemma Ordered_reach (g : Graph) (l : list string) (a b : string) :
  Ordered g l -> In a l -> clos_trans_1n string (edge g) a b -> In b l.
Proof.
  intros Hord Ha Hab. induction Hab as [a b He | a y b He Hyb IH].
  - eapply Ordered_deps; eauto.
  - apply IH. eapply Ordered_deps; eauto.
Qed.

Lemma Ordered_no_cycle (g : Graph) (l : list string) :
  Ordered g l -> NoDup l -> forall a, In a l -> ~ clos_trans_1n string (edge g) a a.
Proof.
  induction 1 as [| l a0 Hl IH Hdeps]; intros Hnd a Ha Hcyc; [destruct Ha |].
  assert (Hnd' : NoDup l /\ ~ In a0 l).
  { split.
    - apply NoDup_app_remove_r in Hnd. assumption.
    - apply NoDup_remove_2 in Hnd. now rewrite app_nil_r in Hnd. }
  destruct Hnd' as [Hndl Hout].
  apply in_app_or in Ha. destruct Ha as [Ha | [<- | []]].
  - now apply (IH Hndl a Ha).
  - apply Hout. inversion Hcyc as [y He | y z He Hrest]; subst.
    + now apply Hdeps.
    + eapply Ordered_reach; [exact Hl | apply Hdeps; exact He | exact Hrest].
Qed.

End KahnMore.

(** X3.  On every well-formed graph, acyclic or not, the output of
    [topologicalSort] is a list [sorted] followed by the keys it leaves out,
    in the order of the keys.  Every name of [sorted] comes after all the names
    it depends on, and every name left out still depends on a name that is
    left out as well. *)
Theorem topologicalSort_valid_prefix (g : Graph) :
  wellFormedGraph g = true ->
  exists sorted,
    topologicalSort g = Ret (sorted ++ leftOut g sorted) /\
    NoDup sorted /\
    (forall a b, In a sorted -> edge g a b -> before b a sorted) /\
    (forall a, In a (leftOut g sorted) ->
               exists b, edge g a b /\ In b (leftOut g sorted)).
Proof.
  intros Hwf. apply wellFormedGraph_shape in Hwf.
  destruct (topologicalSort_wellFormed g Hwf) as (inDegree & sorted & Hrun & Hinv & Hdeg & Hord).
  exists sorted. split; [| split; [| split]].
  - assumption.
  - exact (ki_nodup Hinv).
  - intros a b Ha He. now apply (Ordered_before g).
  - intros a Ha. apply leftOut_In in Ha. destruct Ha as [Hk Hout].
    destruct (stuck_has_unmet g Hwf inDegree sorted Hinv Hdeg a Hk Hout)
      as (b & He & Hb & Hbout).
    exists b. split; [assumption |]. apply leftOut_In. now split.
Qed.

Lemma topologicalSort_valid_prefix_witness :
  exists sorted,
    topologicalSort (buildDependencyGraph cyclicSchema)
    = Ret (sorted ++ leftOut (buildDependencyGraph cyclicSchema) sorted) /\
    NoDup sorted /\
    (forall a b, In a sorted -> edge (buildDependencyGraph cyclicSchema) a b ->
                 before b a sorted) /\
    (forall a, In a (leftOut (buildDependencyGraph cyclicSchema) sorted) ->
               exists b, edge (buildDependencyGraph cyclicSchema) a b /\
                         In b (leftOut (buildDependencyGraph cyclicSchema) sorted)).
Proof.
  apply (topologicalSort_valid_prefix (buildDependencyGraph cyclicSchema)).
  reflexivity.
Defined.

Section ValidOrders.

Variable g : Graph.

Lemma before_last (l : list string) (a x : string) :
  NoDup (l ++ [a]) -> before x a (l ++ [a]) -> In x l.
Proof.
  intros Hnd (l1 & l2 & l3 & Heq).
  destruct l3 as [| z l3].
  - replace (l1 ++ x :: l2 ++ [a]) with ((l1 ++ x :: l2) ++ [a]) in Heq
      by (rewrite <- app_assoc; reflexivity).
    apply app_inj_tail in Heq. destruct Heq as [-> _].
    apply in_or_app. right. now left.
  - exfalso. destruct (exists_last (l := z :: l3)) as (l3' & w & Hl3); [discriminate |].
    rewrite Hl3 in Heq.
    replace (l1 ++ x :: l2 ++ a :: l3' ++ [w]) with ((l1 ++ x :: l2 ++ a :: l3') ++ [w])
      in Heq by (repeat (rewrite <- app_assoc; simpl); reflexivity).
    apply app_inj_tail in Heq. destruct Heq as [-> _].
    apply NoDup_remove_2 in Hnd. apply Hnd. rewrite app_nil_r.
    apply in_or_app. right. right. apply in_or_app. right. now left.
Qed.

Lemma before_prefix (l : list string) (a x y : string) :
  y <> a -> before x y (l ++ [a]) -> before x y l.
Proof.
  intros Hne (l1 & l2 & l3 & Heq).
  destruct l3 as [| z l3].
  - exfalso.
    replace (l1 ++ x :: l2 ++ [y]) with ((l1 ++ x :: l2) ++ [y]) in Heq
      by (rewrite <- app_assoc; reflexivity).
    apply app_inj_tail in Heq. destruct Heq as [_ Heq]. congruence.
  - destruct (exists_last (l := z :: l3)) as (l3' & w & Hl3); [discriminate |].
    rewrite Hl3 in Heq.
    replace (l1 ++ x :: l2 ++ y :: l3' ++ [w]) with ((l1 ++ x :: l2 ++ y :: l3') ++ [w])
      in Heq by (repeat (rewrite <- app_assoc; simpl); reflexivity).
    apply app_inj_tail in Heq. destruct Heq as [-> _].
    now exists l1, l2, l3'.
Qed.

(** A duplicate-free list in which every name comes after the names it
    depends on was built in dependency order. *)
Lemma respects_Ordered (l : list string) :
  NoDup l ->
  (forall a b, In a l -> edge g a b -> before b a l) ->
  Ordered g l.
Proof.
  induction l as [| a l IH] using rev_ind; intros Hnd Hresp; [constructor |].
  assert (Hndl : NoDup l) by (now apply NoDup_app_remove_r in Hnd).
  assert (Hout : ~ In a l).
  { apply NoDup_remove_2 in Hnd. now rewrite app_nil_r in Hnd. }
  constructor.
  - apply IH; [assumption |]. intros x b Hx He.
    apply (before_prefix l a b x); [intros ->; contradiction |].
    apply Hresp; [apply in_or_app; now left | assumption].
  - intros b He. apply (before_last l a b Hnd).
    apply Hresp; [apply in_or_app; right; now left | assumption].
Qed.

End ValidOrders.

(** X4.  On a well-formed graph, [topologicalSort] leaves a name out of the
    sorted part, and so takes its cycle branch, exactly when the graph has a
    cycle; and its output is a valid order, every name after all the names
    it depends on, exactly when the graph has no cycle. *)
Theorem topologicalSort_detects_cycles (g : Graph) :
  wellFormedGraph g = true ->
  exists sorted,
    topologicalSort g = Ret (sorted ++ leftOut g sorted) /\
    (acyclic g <-> leftOut g sorted = []) /\
    (acyclic g <->
     forall a b, edge g a b -> before b a (sorted ++ leftOut g sorted)).
Proof.
  intros Hwf. apply wellFormedGraph_shape in Hwf.
  destruct (topologicalSort_wellFormed g Hwf) as (inDegree & sorted & Hrun & Hinv & Hdeg & Hord).
  assert (Hkeys : forall a b, edge g a b -> In a (JsObj.keys g)).
  { intros a b (n & Hn & _). eapply get_Some_keys; eauto. }
  assert (Hempty : acyclic g -> leftOut g sorted = []).
  { intros Hac. apply filter_none. intros k Hk. apply negb_false_iff, mem_In.
    now apply (acyclic_all_sorted g Hwf inDegree sorted Hinv Hdeg Hac). }
  exists sorted. split; [assumption |]. split; split.
  - exact Hempty.
  - intros Hnone a Hcyc. apply clos_trans_t1n in Hcyc.
    assert (Ha : In a sorted).
    { assert (Hk : In a (JsObj.keys g)).
      { inversion Hcyc as [y He | y z He _]; subst; eapply Hkeys; eauto. }
      destruct (in_dec string_dec a sorted) as [Hin | Hout]; [assumption |].
      exfalso. assert (Hl : In a (leftOut g sorted)) by (apply leftOut_In; now split).
      rewrite Hnone in Hl. destruct Hl. }
    exact (Ordered_no_cycle g sorted Hord (ki_nodup Hinv) a Ha Hcyc).
  - intros Hac a b He. rewrite (Hempty Hac), app_nil_r.
    apply (Ordered_before g sorted a b Hord); [| assumption].
    apply (acyclic_all_sorted g Hwf inDegree sorted Hinv Hdeg Hac). eapply Hkeys; eauto.
  - intros Hresp a Hcyc. apply clos_trans_t1n in Hcyc.
    destruct (topologicalSort_output g (shape_keys Hwf))
      as (inDegree' & sorted' & remaining & _ & Hrun' & _ & Hnd & Hperm).
    rewrite Hrun in Hrun'. injection Hrun' as Heq. rewrite <- Heq in Hnd, Hperm.
    assert (Ha : In a (sorted ++ leftOut g sorted)).
    { eapply Permutation_in; [apply Permutation_sym; exact Hperm |].
      inversion Hcyc as [y He | y z He _]; subst; eapply Hkeys; eauto. }
    refine (Ordered_no_cycle g _ _ Hnd a Ha Hcyc).
    apply respects_Ordered; [assumption |]. intros x b _ He. now apply Hresp.
Qed.

Lemma topologicalSort_detects_cycles_witness :
  exists sorted,
    topologicalSort (buildDependencyGraph cyclicSchema)
    = Ret (sorted ++ leftOut (buildDependencyGraph cyclicSchema) sorted) /\
    (acyclic (buildDependencyGraph cyclicSchema) <->
     leftOut (buildDependencyGraph cyclicSchema) sorted = []) /\
    (acyclic (buildDependencyGraph cyclicSchema) <->
     forall a b, edge (buildDependencyGraph cyclicSchema) a b ->
                 before b a (sorted ++ leftOut (buildDependencyGraph cyclicSchema) sorted)).
Proof.
  apply (topologicalSort_detects_cycles (buildDependencyGraph cyclicSchema)).
  reflexivity.
Defined.

(** X5.  The output of [topologicalSort] starts with the keys that have no
    dependency, in the order of the keys: types that require nothing are
    attempted first, in the order of their declaration. *)
Theorem topologicalSort_roots_first (g : Graph) :
  nodupb (JsObj.keys g) = true ->
  exists rest, topologicalSort g = Ret (rootsOf g ++ rest).
Proof.
  intros Hk. apply nodupb_NoDup in Hk.
  destruct (kahn_returns g (length (JsObj.keys g)) (initInDegree g) (initQueue g) [])
    as (inDegree & sorted & Hrun & Hinv).
  { now apply KahnInv_init. }
  { lia. }
  destruct (kahn_prefix g _ _ _ _ _ _ Hrun) as [rest Hs]. simpl in Hs.
  unfold topologicalSort. fold (initQueue g). rewrite Hrun, Hs, initQueue_roots by assumption.
  destruct (_ <? _)%nat; eexists; [rewrite <- app_assoc |]; reflexivity.
Qed.

Lemma topologicalSort_roots_first_witness :
  exists rest,
    topologicalSort (buildDependencyGraph cyclicSchema)
    = Ret (rootsOf (buildDependencyGraph cyclicSchema) ++ rest).
Proof.
  apply (topologicalSort_roots_first (buildDependencyGraph cyclicSchema)). reflexivity.
Defined.

(** ** The keys of a payload *)

Section PayloadKeys.
Import JsObj.

Variable W : Type.
Variable env : Env W.

Lemma scalarStep_writes (name : string) (m : Model) (data : Obj) (field : Field)
  (s : Sys W) :
  exists data' s',
    scalarStep env m data field s = (Ret data', s') /\
    if FieldKind_eqb (kind field) KScalar && assignable name m field
    then exists v, data' = set data (fname field) v
    else data' = data.
Proof.
  unfold scalarStep, assignable.
  destruct (kind field) eqn:Hk; simpl; try (exists data, s; now auto).
  destruct (isReadOnly field); simpl; [exists data, s; now auto |].
  destruct (isForeignKey m field); simpl; [exists data, s; now auto |].
  unfold bind. destruct (returns_generateFakeValueForField W env field s) as (v & s1 & ->).
  exists (set data (fname field) v), s1. split; [reflexivity |]. eauto.
Qed.

Lemma relationStep_writes (mdm : ModelDataMap) (name : string) (m : Model)
  (data data' : Obj) (field : Field) :
  relationStep mdm name m data field = Ret data' ->
  data' = data \/
  (assignable name m field = true /\ exists v, data' = set data (fname field) v).
Proof.
  unfold relationStep, assignable.
  destruct (kind field) eqn:Hk; simpl; try (intros [= <-]; now left).
  destruct (String.eqb (ftype field) name); simpl; [intros [= <-]; now left |].
  destruct (isList field); simpl; [intros [= <-]; now left |].
  destruct (relationFromFields field) as [[| x from] |]; try (intros [= <-]; now left).
  destruct (get mdm (ftype field)) as [related |].
  - destruct (createdRecords related) as [| r rest].
    + intros [= <-]. right. split; [reflexivity | eauto].
    + destruct (connectByKey (relationToFields field) (Some r)); intros [= <-].
      right. split; [reflexivity | eauto].
  - destruct (anyFKrequired m (x :: from)); intros [= <-];
      [right; split; [reflexivity | eauto] | now left].
Qed.

(** A loop whose steps write, at most, the name of their field. *)
Lemma loop_keys (body : Obj -> Field -> M W Obj) (Q : Field -> Prop) :
  (forall d f s d' s', body d f s = (Ret d', s') ->
     d' = d \/ (Q f /\ exists v, d' = set d (fname f) v)) ->
  forall l data s data' s',
    forEach body l data s = (Ret data', s') ->
    (forall k, In k (keys data') ->
       In k (keys data) \/ exists f, In f l /\ fname f = k /\ Q f) /\
    (forall k, In k (keys data) -> In k (keys data')).
Proof.
  intros Hbody. induction l as [| f l IH]; intros data s data' s' Hrun; simpl in Hrun.
  - injection Hrun as <- _. auto.
  - unfold bind in Hrun. destruct (body data f s) as [[d1 | e |] s1] eqn:E; try discriminate.
    destruct (IH d1 s1 data' s' Hrun) as [Hfrom Hto].
    destruct (Hbody _ _ _ _ _ E) as [-> | (HQ & v & ->)].
    + split; [| assumption]. intros k Hk.
      destruct (Hfrom k Hk) as [H | (g & Hg & Hn & Hq)]; [now left |].
      right. exists g. split; [now right | now split].
    + split.
      * intros k Hk. destruct (Hfrom k Hk) as [H | (g & Hg & Hn & Hq)].
        -- apply keys_set_In in H. destruct H as [-> | H]; [| now left].
           right. exists f. split; [now left | now split].
        -- right. exists g. split; [now right | now split].
      * intros k Hk. apply Hto, keys_set_In. now right.
Qed.

Lemma scalarStep_keys (name : string) (m : Model) :
  forall d f (s : Sys W) d' s', scalarStep env m d f s = (Ret d', s') ->
    d' = d \/ (assignable name m f = true /\ exists v, d' = set d (fname f) v).
Proof.
  intros d f s d' s' Hrun.
  destruct (scalarStep_writes name m d f s) as (d1 & s1 & E & Heff).
  rewrite E in Hrun. injection Hrun as <- _.
  destruct (FieldKind_eqb (kind f) KScalar && assignable name m f) eqn:Hc; [| now left].
  right. apply andb_true_iff in Hc. now split.
Qed.

Lemma scalar_loop_covers (name : string) (m : Model) (l : list Field) :
  forall data (s : Sys W) data' s',
    forEach (scalarStep env m) l data s = (Ret data', s') ->
    forall f, In f l -> kind f = KScalar -> assignable name m f = true ->
              In (fname f) (keys data').
Proof.
  induction l as [| g l IH]; intros data s data' s' Hrun f Hin Hk Ha; [destruct Hin |].
  simpl in Hrun. unfold bind in Hrun.
  destruct (scalarStep_writes name m data g s) as (d1 & s1 & E & Heff).
  rewrite E in Hrun. destruct Hin as [-> | Hin]; [| now apply (IH d1 s1 data' s' Hrun)].
  rewrite Hk, Ha in Heff. simpl in Heff. destruct Heff as [v ->].
  apply (proj2 (loop_keys _ _ (scalarStep_keys name m) l _ _ _ _ Hrun)).
  apply keys_set_In. now left.
Qed.

End PayloadKeys.

(** X6.  The keys of a payload that [buildCreationData] returns are names of
    fields of the type that are scalar columns neither read-only nor foreign
    keys, or non-list relations to another type with a non-empty
    [relationFromFields]: the payload never names a read-only column, a
    foreign-key column, a list relation, an enum field or a relation of the
    type to itself.  Every such scalar column is a key of the payload. *)
Theorem buildCreationData_payload_keys (W : Type) (env : Env W) (mdm : ModelDataMap)
  (name : string) (entry : ModelData) (s s' : Sys W) (data : Obj) :
  JsObj.get mdm name = Some entry ->
  buildCreationData env mdm name s = (Ret data, s') ->
  (forall k, In k (JsObj.keys data) ->
     exists f, In f (fields (model entry)) /\ fname f = k /\
               assignable name (model entry) f = true) /\
  (forall f, In f (fields (model entry)) -> kind f = KScalar ->
             assignable name (model entry) f = true -> In (fname f) (JsObj.keys data)).
Proof.
  intros Hget. unfold buildCreationData. rewrite Hget. unfold bind.
  destruct (forEach (scalarStep env (model entry)) (fields (model entry)) JsObj.empty s)
    as [[d1 | e |] s1] eqn:E1; try discriminate.
  intros E2.
  destruct (loop_keys W _ _ (scalarStep_keys W env name (model entry)) _ _ _ _ _ E1)
    as [H1 _].
  destruct (loop_keys W (fun d g => lift (relationStep mdm name (model entry) d g))
              (fun g => assignable name (model entry) g = true)) with
    (l := fields (model entry)) (data := d1) (s := s1) (data' := data) (s' := s')
    as [H2 H3].
  { intros d f s0 d' s0' Hstep. unfold lift in Hstep. injection Hstep as Hstep _.
    now apply relationStep_writes in Hstep. }
  { assumption. }
  split.
  - intros k Hk. destruct (H2 k Hk) as [H | H]; [| assumption].
    destruct (H1 k H) as [[] | H']. assumption.
  - intros f Hf Hkind Ha. apply H3.
    now apply (scalar_loop_covers W env name (model entry) _ _ _ _ _ E1 f).
Qed.

Lemma buildCreationData_payload_keys_witness :
  let data := [("id", VNum 123 0); ("level", VUndefined)] in
  (forall k, In k (JsObj.keys data) ->
     exists f, In f (fields userModel) /\ fname f = k /\
               assignable "User" userModel f = true) /\
  (forall f, In f (fields userModel) -> kind f = KScalar ->
             assignable "User" userModel f = true -> In (fname f) (JsObj.keys data)).
Proof.
  cbv zeta.
  apply (buildCreationData_payload_keys nat (strictStore blogSchema)
           (initModelDataMap blogSchema) "User" (mkModelData userModel [] false)
           (start 0) (start 0) [("id", VNum 123 0); ("level", VUndefined)]).
  - reflexivity.
  - reflexivity.
Defined.

(** ** A creation that the store accepts *)

(** X7.  When the store accepts the creation of a record of [name],
    [tryCreateOneRecord] returns [true] and appends the record the store
    returned to the records of [name]; the keys of the run state, the entries
    of the other types and the [created] flag of [name] are as before.  The
    body of the pass loop then sets that flag and the flag of the pass. *)
Theorem tryCreateOneRecord_success (W : Type) (env : Env W)
  (assemble : ModelDataMap -> string -> M W Obj) (mdm : ModelDataMap)
  (name : string) (entry : ModelData) (s s1 : Sys W) (data rec : Obj) (w : W) :
  JsObj.get mdm name = Some entry ->
  assemble mdm name s = (Ret data, s1) ->
  prisma_create env name data (ext s1) = (inl rec, w) ->
  let s' := mkSys w (trace s1 ++ [CallCreate name data (inl rec)]) in
  exists mdm',
    tryCreateOneRecord env assemble mdm name s = (Ret (true, mdm'), s') /\
    JsObj.keys mdm' = JsObj.keys mdm /\
    (forall k, k <> name -> JsObj.get mdm' k = JsObj.get mdm k) /\
    JsObj.get mdm' name
    = Some (mkModelData (model entry) (createdRecords entry ++ [rec]) (created entry)) /\
    forall flag, created entry = false ->
      exists mdm'',
        attemptModel env assemble (mdm, flag) name s = (Ret (mdm'', true), s') /\
        JsObj.keys mdm'' = JsObj.keys mdm /\
        (forall k, k <> name -> JsObj.get mdm'' k = JsObj.get mdm k) /\
        JsObj.get mdm'' name
        = Some (mkModelData (model entry) (createdRecords entry ++ [rec]) true).
Proof.
  intros Hget Ha Hp s'.
  assert (Htry : tryCreateOneRecord env assemble mdm name s
                 = (Ret (true, JsObj.update mdm name (pushRecord rec)), s')).
  { unfold tryCreateOneRecord, bind, tryCatch, callCreate. rewrite Ha, Hp. reflexivity. }
  exists (JsObj.update mdm name (pushRecord rec)).
  split; [assumption |]. split; [apply keys_update |]. split; [| split].
  - intros k Hk. rewrite get_update.
    destruct (String.eqb_spec name k); [congruence | reflexivity].
  - rewrite get_update, String.eqb_refl, Hget. reflexivity.
  - intros flag Hc.
    exists (JsObj.update (JsObj.update mdm name (pushRecord rec)) name markCreated).
    split; [| split; [| split]].
    + unfold attemptModel. simpl. rewrite Hget, Hc. unfold bind. rewrite Htry. reflexivity.
    + now rewrite !keys_update.
    + intros k Hk. rewrite !get_update.
      destruct (String.eqb_spec name k); [congruence | reflexivity].
    + rewrite !get_update, String.eqb_refl, Hget. reflexivity.
Qed.

Lemma tryCreateOneRecord_success_witness :
  let env := strictStore blogSchema in
  let mdm := initModelDataMap blogSchema in
  let data := [("id", VNum 123 0)] in
  let rec := [("id", VNum 0 0)] in
  let s' := mkSys 1 ([] ++ [CallCreate "Level" data (inl rec)]) in
  exists mdm',
    tryCreateOneRecord env (buildCreationData env) mdm "Level" (start 0)
    = (Ret (true, mdm'), s') /\
    JsObj.keys mdm' = JsObj.keys mdm /\
    (forall k, k <> "Level" -> JsObj.get mdm' k = JsObj.get mdm k) /\
    JsObj.get mdm' "Level" = Some (mkModelData levelModel ([] ++ [rec]) false) /\
    forall flag, false = false ->
      exists mdm'',
        attemptModel env (buildCreationData env) (mdm, flag) "Level" (start 0)
        = (Ret (mdm'', true), s') /\
        JsObj.keys mdm'' = JsObj.keys mdm /\
        (forall k, k <> "Level" -> JsObj.get mdm'' k = JsObj.get mdm k) /\
        JsObj.get mdm'' "Level" = Some (mkModelData levelModel ([] ++ [rec]) true).
Proof.
  cbv zeta.
  apply (tryCreateOneRecord_success nat (strictStore blogSchema)
           (buildCreationData (strictStore blogSchema)) (initModelDataMap blogSchema)
           "Level" (mkModelData levelModel [] false) (start 0) (start 0)
           [("id", VNum 123 0)] [("id", VNum 0 0)] 1).
  - reflexivity.
  - reflexivity.
  - reflexivity.
Defined.

(** ** The self-relation step of the second variant *)

Section SelfUpdate.

Variable W : Type.
Variable env : Env W.

Lemma self_update_loop (name : string) (f : Field) (rks : list string) (first : Obj)
  (records : list Obj) :
  relationToFields f = Some rks ->
  forall s,
  exists s' t,
    forEach
      (fun (_ : unit) record =>
         tryCatch
           (bind (lift (connectByKey (relationToFields f) (Some first))) (fun c =>
            bind (callUpdate env name [("id", prop record "id")] [(fname f, c)])
                 (fun _ => ret tt)))
           (fun err => ret tt))
      records tt s = (Ret tt, s') /\
    trace s' = trace s ++ t /\
    Forall2 (selfUpdate name f rks first) records t.
Proof.
  intros Hrks. induction records as [| record records IH]; intros s; simpl.
  - exists s, []. rewrite app_nil_r. repeat split. constructor.
  - rewrite Hrks, connectByKey_Some.
    unfold bind at 1. unfold tryCatch, bind, lift, callUpdate, ret.
    destruct (prisma_update env name [("id", prop record "id")]
                [(fname f, VObj [("connect", VObj (connectObject rks first))])] (ext s))
      as [res w] eqn:Hu.
    set (s1 := mkSys w (trace s ++ [CallUpdate name [("id", prop record "id")]
                 [(fname f, VObj [("connect", VObj (connectObject rks first))])] res])).
    destruct (IH s1) as (s' & t & Hrun & Ht & Hall).
    rewrite Hrks, connectByKey_Some in Hrun.
    exists s', (CallUpdate name [("id", prop record "id")]
                  [(fname f, VObj [("connect", VObj (connectObject rks first))])] res :: t).
    split; [| split].
    + destruct res as [r | e]; exact Hrun.
    + rewrite Ht. unfold s1. simpl. now rewrite <- app_assoc.
    + constructor; [now exists res | assumption].
Qed.

Lemma self_update_loop_undefined (name : string) (f : Field) (first : Obj)
  (records : list Obj) :
  relationToFields f = None ->
  forall s,
    forEach
      (fun (_ : unit) record =>
         tryCatch
           (bind (lift (connectByKey (relationToFields f) (Some first))) (fun c =>
            bind (callUpdate env name [("id", prop record "id")] [(fname f, c)])
                 (fun _ => ret tt)))
           (fun err => ret tt))
      records tt s = (Ret tt, s).
Proof.
  intros Hrks. induction records as [| record records IH]; intros s; simpl; [reflexivity |].
  rewrite Hrks. unfold bind at 1. unfold tryCatch, bind at 1, lift, ret. simpl.
  specialize (IH s). rewrite Hrks in IH. exact IH.
Qed.

End SelfUpdate.

(** X8.  [updateSelfRelationForAllRecords] of the second variant never throws
    for a type of the run state, whatever the store answers.  When the type
    has records and a non-list relation to itself, it sends one update per
    record, in the order of the records, each connecting the record to the
    first record of the type, the first record included; when
    [relationToFields] of that relation is undefined, or the type has no
    record or no such relation, it sends nothing. *)
Theorem updateSelfRelationForAllRecords_updates (W : Type) (env : Env W)
  (mdm : ModelDataMap) (name : string) (entry : ModelData) (s : Sys W) :
  JsObj.get mdm name = Some entry ->
  exists s' t,
    updateSelfRelationForAllRecords env mdm name s = (Ret tt, s') /\
    trace s' = trace s ++ t /\
    match createdRecords entry,
          find (isSelfRelationField name) (fields (model entry)) with
    | first :: _, Some f =>
        match relationToFields f with
        | Some rks => Forall2 (selfUpdate name f rks first) (createdRecords entry) t
        | None => t = []
        end
    | _, _ => t = []
    end.
Proof.
  intros Hget. unfold updateSelfRelationForAllRecords. rewrite Hget.
  destruct (createdRecords entry) as [| first rest] eqn:Hrecs.
  - exists s, []. now rewrite app_nil_r.
  - destruct (find (isSelfRelationField name) (fields (model entry))) as [f |].
    + destruct (relationToFields f) as [rks |] eqn:Hrks.
      * destruct (self_update_loop W env name f rks first (first :: rest) Hrks s)
          as (s' & t & Hrun & Ht & Hall).
        exists s', t. now rewrite <- Hrks.
      * exists s, []. rewrite app_nil_r.
        assert (H := self_update_loop_undefined W env name f first (first :: rest) Hrks s).
        rewrite Hrks in H. now rewrite H.
    + exists s, []. now rewrite app_nil_r.
Qed.

Lemma updateSelfRelationForAllRecords_updates_witness :
  let first := [("id", VNum 0 0)] in
  let second := [("id", VNum 1 0)] in
  let mdm := [("Employee", mkModelData employeeModel [first; second] true)] in
  exists s' t,
    updateSelfRelationForAllRecords (strictStore [employeeModel]) mdm "Employee" (start 2)
    = (Ret tt, s') /\
    trace s' = [] ++ t /\
    Forall2 (selfUpdate "Employee"
               (relationField "manager" "Employee" false ["managerId"] ["id"])
               ["id"] first)
            [first; second] t.
Proof.
  cbv zeta.
  apply (updateSelfRelationForAllRecords_updates nat (strictStore [employeeModel])
           [("Employee", mkModelData employeeModel [[("id", VNum 0 0)]; [("id", VNum 1 0)]] true)]
           "Employee"
           (mkModelData employeeModel [[("id", VNum 0 0)]; [("id", VNum 1 0)]] true)
           (start 2)).
  reflexivity.
Defined.

(** ** The session in the other variants *)

Section DisconnectVariants.

Variable W : Type.
Variable env : Env W.

Lemma emitsOnly_passes (assemble : ModelDataMap -> string -> M W Obj)
  (models : list Model) (maxPasses : Z) :
  (forall mdm name, quiet (assemble mdm name)) ->
  emitsOnly notDisconnect (multiPassCreate env assemble models maxPasses).
Proof.
  intros Hq s.
  destruct (multiPassCreate_generic W env assemble Hq (fun _ => True) attemptEvent
              attemptEvent_notPassStart) with (models := models) (maxPasses := maxPasses) (s := s)
    as (H1 & t & H2 & _ & H3 & _).
  - intros mdm flag name s0 r _ Hspec.
    destruct (attemptSpec_trace W env _ Hq _ _ _ _ _ Hspec) as (Ha & t & Hb & Hc & Hd).
    split; [assumption |]. exists t. split; [assumption |]. split; [assumption |].
    intros mdm' flag' Hr. split; [exact Logic.I | eapply Hd; eauto].
  - exact Logic.I.
  - split; [assumption |]. exists t. split; [assumption |].
    eapply Forall_impl; [| exact H3].
    intros e [He | [-> | [p ->]]]; try reflexivity. now apply attemptEvent_notDisconnect.
Qed.

Lemma emitsOnly_updateSelfRelationForAllRecords (mdm : ModelDataMap) (name : string) :
  emitsOnly notDisconnect (updateSelfRelationForAllRecords env mdm name).
Proof.
  unfold updateSelfRelationForAllRecords.
  destruct (JsObj.get mdm name) as [entry |]; [| apply emitsOnly_throw].
  destruct (createdRecords entry) as [| first rest]; [apply emitsOnly_ret |].
  destruct (find (isSelfRelationField name) (fields (model entry))) as [f |];
    [| apply emitsOnly_ret].
  apply emitsOnly_forEach. intros [] record.
  apply emitsOnly_tryCatch; [| intros e; apply emitsOnly_ret].
  apply emitsOnly_bind; [apply quiet_emitsOnly, quiet_lift, connectByKey_fuel |].
  intros c. apply emitsOnly_bind; [apply emitsOnly_callUpdate |].
  intros r. apply emitsOnly_ret.
Qed.

Lemma emitsOnly_refreshSelfRelation (mdm : ModelDataMap) (u : unit) (name : string) :
  emitsOnly notDisconnect (refreshSelfRelation env mdm u name).
Proof.
  unfold refreshSelfRelation.
  destruct (JsObj.get mdm name) as [entry |]; [| apply emitsOnly_throw].
  destruct (isSelfRelationModel (model entry));
    [apply emitsOnly_updateSelfRelationForAllRecords | apply emitsOnly_ret].
Qed.

(** [try { body } finally { await prisma.$disconnect() }] *)
Lemma tryFinally_disconnect {A : Type} (body : M W A) (s : Sys W) :
  emitsOnly notDisconnect body ->
  let r := tryFinally body (callDisconnect env) s in
  fst r <> OutOfFuel /\
  exists t, trace (snd r) = trace s ++ t ++ [CallDisconnect] /\ Forall notDisconnect t.
Proof.
  intros Hbody. cbv zeta. unfold tryFinally.
  destruct (Hbody s) as (Hfuel & t & Ht & Hall).
  destruct (body s) as [[u | e |] s1]; simpl in Hfuel, Ht; try contradiction;
    unfold callDisconnect; destruct (prisma_disconnect env (ext s1)) as [[[] | e'] w'];
    simpl; (split; [discriminate |]); exists t; (split; [| assumption]);
    now rewrite Ht, app_assoc.
Qed.

End DisconnectVariants.

(** X9.  In the second and in the third variant too, [generateSeedData] comes
    to an end whatever the schema location, the store and the state, and
    [prisma.$disconnect()] is called exactly once, as the last event of the
    run. *)
Theorem generateSeedData_variants_disconnect (W : Type) (env : Env W)
  (seedPath : string) (s : Sys W) :
  (let r := generateSeedData2 env seedPath s in
   fst r <> OutOfFuel /\
   exists t, trace (snd r) = trace s ++ t ++ [CallDisconnect] /\
             Forall notDisconnect t) /\
  (let r := generateSeedData3 env seedPath s in
   fst r <> OutOfFuel /\
   exists t, trace (snd r) = trace s ++ t ++ [CallDisconnect] /\
             Forall notDisconnect t).
Proof.
  split.
  - apply tryFinally_disconnect. apply emitsOnly_tryCatch.
    + apply emitsOnly_bind; [apply emitsOnly_callLoad |]. intros models.
      apply emitsOnly_bind; [apply emitsOnly_passes, quiet_buildCreationData |]. intros mdm.
      apply emitsOnly_bind.
      * apply emitsOnly_forEach. intros acc k. apply emitsOnly_refreshSelfRelation.
      * intros _. apply emitsOnly_emit. reflexivity.
    + intros e. apply emitsOnly_bind; [apply emitsOnly_emit; reflexivity |].
      intros _. apply emitsOnly_throw.
  - apply tryFinally_disconnect. apply emitsOnly_tryCatch.
    + apply emitsOnly_bind; [apply emitsOnly_callLoad |]. intros models.
      apply emitsOnly_bind; [apply emitsOnly_passes, quiet_assembleInline |]. intros mdm.
      apply emitsOnly_emit. reflexivity.
    + intros e. apply emitsOnly_bind; [apply emitsOnly_emit; reflexivity |].
      intros _. apply emitsOnly_throw.
Qed.

Example seed_second_variant :
  let r := generateSeedData2 (strictStore [employeeModel]) "schema.prisma" (start 0) in
  fst r = Ret tt /\
  trace (snd r)
  = [CallLoad "schema.prisma"; LogPassStart 1;
     CallCreate "Employee" [("id", VNum 123 0)] (inl [("id", VNum 0 0)]);
     LogPassStart 2; LogNoProgress;
     CallUpdate "Employee" [("id", VNum 0 0)]
       [("manager", VObj [("connect", VObj [("id", VNum 0 0)])])]
       (inl [("id", VNum 0 0);
             ("manager", VObj [("connect", VObj [("id", VNum 0 0)])])]);
     LogSeedDone; CallDisconnect].
Proof. split; reflexivity. Qed.

(** ** The self-relation step of the first variant *)

Section Resolver.
Import JsObj.

Variable W : Type.
Variable env : Env W.

Lemma bind_Ret {A B : Type} (m : M W A) (k : A -> M W B) (s s' : Sys W) (b : B) :
  bind m k s = (Ret b, s') ->
  exists a s1, m s = (Ret a, s1) /\ k a s1 = (Ret b, s').
Proof.
  unfold bind. destruct (m s) as [[a | e |] s1]; try discriminate. eauto.
Qed.

Lemma tryCatch_Ret {A : Type} (m : M W A) (h : exn -> M W A) (s s' : Sys W) (a : A) :
  tryCatch m h s = (Ret a, s') ->
  m s = (Ret a, s') \/ exists e s1, m s = (Throw e, s1) /\ h e s1 = (Ret a, s').
Proof.
  unfold tryCatch. destruct (m s) as [[a0 | e |] s1]; try discriminate; eauto.
Qed.

Lemma tryCreateOneRecord_result (assemble : ModelDataMap -> string -> M W Obj)
  (mdm : ModelDataMap) (name : string) (s s' : Sys W) (b : bool) (mdm1 : ModelDataMap) :
  tryCreateOneRecord env assemble mdm name s = (Ret (b, mdm1), s') ->
  (b = false /\ mdm1 = mdm) \/
  (b = true /\ exists rec, mdm1 = update mdm name (pushRecord rec)).
Proof.
  unfold tryCreateOneRecord. intros H.
  apply bind_Ret in H. destruct H as (data & s1 & _ & H).
  apply tryCatch_Ret in H. destruct H as [H | (e & s2 & _ & H)].
  - apply bind_Ret in H. destruct H as (rec & s2 & _ & H).
    injection H as <- <- _. right. eauto.
  - injection H as <- <- _. now left.
Qed.

Lemma appended_refl (name : string) (mdm : ModelDataMap) : appended name [] mdm mdm.
Proof.
  split; [reflexivity |]. split; [reflexivity |].
  intros [m recs c] Hget. simpl. now rewrite app_nil_r.
Qed.

Lemma appended_push (name : string) (r : Obj) (mdm : ModelDataMap) :
  appended name [r] mdm (update mdm name (pushRecord r)).
Proof.
  split; [apply keys_update |]. split.
  - intros k Hk. rewrite get_update.
    destruct (String.eqb_spec name k); [congruence | reflexivity].
  - intros entry Hget. now rewrite get_update, String.eqb_refl, Hget.
Qed.

Lemma appended_trans (name : string) (a b : list Obj) (mdm mdm1 mdm2 : ModelDataMap) :
  appended name a mdm mdm1 -> appended name b mdm1 mdm2 ->
  appended name (a ++ b) mdm mdm2.
Proof.
  intros (K1 & O1 & N1) (K2 & O2 & N2). split; [congruence |]. split.
  - intros k Hk. now rewrite O2, O1.
  - intros entry Hget. rewrite (N2 _ (N1 _ Hget)). simpl. now rewrite app_assoc.
Qed.

(** What [createAdditionalSelfRelationRecord] does to the run state. *)
Lemma createAdditionalSelfRelationRecord_appended (mdm : ModelDataMap) (name : string)
  (entry : ModelData) (s s' : Sys W) (mdm' : ModelDataMap) :
  get mdm name = Some entry ->
  createAdditionalSelfRelationRecord env mdm name s = (Ret mdm', s') ->
  exists added,
    appended name added mdm mdm' /\
    length added <= 2 /\
    (length (createdRecords entry) <> 0 -> length added <= 1).
Proof.
  intros Hget. unfold createAdditionalSelfRelationRecord. rewrite Hget. intros H.
  apply bind_Ret in H. destruct H as ([b mdm1] & s1 & Hfirst & H).
  assert (Hm1 : exists a, appended name a mdm mdm1 /\ length a <= 1 /\
                          (length (createdRecords entry) <> 0 -> a = []) /\
                          (b = false -> a = [])).
  { destruct (length (createdRecords entry) =? 0)%nat eqn:Hlen.
    - apply Nat.eqb_eq in Hlen.
      apply tryCreateOneRecord_result in Hfirst.
      destruct Hfirst as [[-> ->] | [-> [rec ->]]].
      + exists []. split; [apply appended_refl |]. simpl. repeat split; auto.
      + exists [rec]. split; [apply appended_push |]. simpl. repeat split; auto.
        * intros Hne. contradiction.
        * discriminate.
    - injection Hfirst as <- <- _. exists []. split; [apply appended_refl |].
      simpl. repeat split; auto. }
  destruct Hm1 as (a & Ha & Hla & Hnz & Hfalse).
  destruct b; simpl in H.
  - apply bind_Ret in H. destruct H as (data & s2 & _ & H).
    apply bind_Ret in H. destruct H as (data' & s3 & _ & H).
    apply tryCatch_Ret in H. destruct H as [H | (e & s4 & _ & H)].
    + apply bind_Ret in H. destruct H as (second & s4 & _ & H).
      apply bind_Ret in H. destruct H as (first & s5 & _ & H).
      apply bind_Ret in H. destruct H as (second' & s6 & _ & H).
      injection H as <- _. exists (a ++ [second']). split; [| split].
      * eapply appended_trans; [exact Ha | apply appended_push].
      * rewrite length_app. simpl. lia.
      * intros Hne. rewrite (Hnz Hne). simpl. lia.
    + injection H as <- _. exists a. split; [assumption |]. split; [lia |].
      intros Hne. rewrite (Hnz Hne). simpl. lia.
  - injection H as <- _. exists a. split; [assumption |]. split; [lia |].
    intros Hne. rewrite (Hnz Hne). simpl. lia.
Qed.

Lemma grown_refl (mdm : ModelDataMap) : grown mdm mdm.
Proof.
  split; [reflexivity |]. intros k [m recs c] Hget. exists [].
  cbn [model createdRecords created]. rewrite app_nil_r.
  split; [assumption |]. split; [reflexivity | apply Nat.le_max_r].
Qed.

Lemma grown_trans (mdm mdm1 mdm2 : ModelDataMap) :
  grown mdm mdm1 -> grown mdm1 mdm2 -> grown mdm mdm2.
Proof.
  intros [K1 G1] [K2 G2]. split; [congruence |].
  intros k entry Hget. destruct (G1 k entry Hget) as (a & Hget1 & Hself1 & Hlen1).
  destruct (G2 k _ Hget1) as (b & Hget2 & Hself2 & Hlen2).
  cbn [model createdRecords created] in *.
  exists (a ++ b). split; [now rewrite app_assoc | split].
  - intros Hs. now rewrite (Hself1 Hs), (Hself2 Hs).
  - rewrite app_assoc. lia.
Qed.

Lemma resolveSelfRelation_grown (mdm : ModelDataMap) (name : string) (s s' : Sys W)
  (mdm' : ModelDataMap) :
  resolveSelfRelation env mdm name s = (Ret mdm', s') -> grown mdm mdm'.
Proof.
  unfold resolveSelfRelation. destruct (get mdm name) as [entry |] eqn:Hget; [| discriminate].
  destruct (isSelfRelationModel (model entry)) eqn:Hself; simpl;
    [| intros [= <- _]; apply grown_refl].
  destruct (Nat.ltb_spec (length (createdRecords entry)) 2) as [Hlt | Hge];
    [| intros [= <- _]; apply grown_refl].
  intros Hrun.
  destruct (createAdditionalSelfRelationRecord_appended mdm name entry s s' mdm' Hget Hrun)
    as (added & (K & O & N) & Hle & Hnz).
  split; [assumption |]. intros k e He.
  destruct (String.eqb_spec k name) as [-> | Hne].
  - rewrite Hget in He. injection He as <-. exists added.
    split; [now apply N |]. split; [congruence |].
    rewrite length_app. destruct (length (createdRecords entry)) as [| [| n]]; lia.
  - exists []. rewrite (O k Hne), He. destruct e as [m recs c].
    cbn [model createdRecords created]. rewrite app_nil_r.
    split; [reflexivity |]. split; [reflexivity | apply Nat.le_max_r].
Qed.

End Resolver.

(** X10.  The self-relation step of the first variant, over any list of
    names: when it returns, the run state has the same types with the same
    descriptors and the same [created] flags; the records of every type are
    those it had, followed by what the step appended; nothing is appended to
    a type without a non-list relation to itself, and a type that had at most
    two records has at most two.  So the step never marks a type created,
    even when it gave the type its first record. *)
Theorem resolveSelfRelation_run_state (W : Type) (env : Env W) (names : list string)
  (mdm mdm' : ModelDataMap) (s s' : Sys W) :
  forEach (resolveSelfRelation env) names mdm s = (Ret mdm', s') ->
  JsObj.keys mdm' = JsObj.keys mdm /\
  forall k entry, JsObj.get mdm k = Some entry ->
    exists added,
      JsObj.get mdm' k
      = Some (mkModelData (model entry) (createdRecords entry ++ added) (created entry)) /\
      (isSelfRelationModel (model entry) = false -> added = []) /\
      length (createdRecords entry ++ added) <= Nat.max 2 (length (createdRecords entry)).
Proof.
  intros Hrun.
  apply (forEach_invariant W (grown mdm) (resolveSelfRelation env) names)
    with (acc := mdm) (s := s) (s' := s'); [| apply grown_refl | assumption].
  intros acc x s0 acc' s0' _ Hacc Hstep.
  eapply grown_trans; [exact Hacc |]. eapply resolveSelfRelation_grown; eauto.
Qed.

Lemma resolveSelfRelation_run_state_witness :
  let env := strictStore [employeeModel] in
  let first := [("id", VNum 0 0)] in
  let mdm := [("Employee", mkModelData employeeModel [first] true)] in
  exists mdm' s',
    forEach (resolveSelfRelation env) ["Employee"] mdm (start 1) = (Ret mdm', s') /\
    map (fun k => (isCreated mdm' k, recordCount mdm' k)) (JsObj.keys mdm') = [(true, 2)] /\
    JsObj.keys mdm' = JsObj.keys mdm /\
    forall k entry, JsObj.get mdm k = Some entry ->
      exists added,
        JsObj.get mdm' k
        = Some (mkModelData (model entry) (createdRecords entry ++ added) (created entry)) /\
        (isSelfRelationModel (model entry) = false -> added = []) /\
        length (createdRecords entry ++ added) <= Nat.max 2 (length (createdRecords entry)).
Proof.
  cbv zeta. eexists. eexists. split; [vm_compute; reflexivity |].
  split; [reflexivity |].
  eapply (resolveSelfRelation_run_state nat (strictStore [employeeModel]) ["Employee"]
            [("Employee", mkModelData employeeModel [[("id", VNum 0 0)]] true)] _
            (start 1)).
  vm_compute. reflexivity.
Defined.

(** ** Counting passes and creations *)

Section PassCount.
Import JsObj.

Lemma createdCount_set (o : ModelDataMap) (k : string) (v v0 : ModelData) :
  get o k = Some v0 ->
  createdCount (set o k v) + Nat.b2n (created v0)
  = createdCount o + Nat.b2n (created v).
Proof.
  unfold createdCount. induction o as [| [k' v'] o IH]; simpl; [discriminate |].
  destruct (String.eqb k' k).
  - intros [= ->]. simpl. destruct (created v), (created v0); simpl; lia.
  - intros H. specialize (IH H). simpl. destruct (created v'); simpl; lia.
Qed.

Lemma createdCount_update (o : ModelDataMap) (k : string) (f : ModelData -> ModelData)
  (v0 : ModelData) :
  get o k = Some v0 ->
  createdCount (update o k f) + Nat.b2n (created v0)
  = createdCount o + Nat.b2n (created (f v0)).
Proof.
  intros H. unfold update. rewrite H. now apply createdCount_set.
Qed.

Lemma createdCount_le (o : ModelDataMap) : createdCount o <= length (keys o).
Proof. unfold createdCount, keys. rewrite length_map. apply filter_length_le. Qed.

Lemma initModelDataMap_firstOccurrences (models : list Model) :
  keys (initModelDataMap models) = firstOccurrences (map mname models).
Proof.
  unfold initModelDataMap, firstOccurrences.
  enough (H : forall acc : ModelDataMap,
             keys (fold_left (fun acc m => set acc (mname m) (mkModelData m [] false))
                             models acc)
             = fold_left (fun acc x => set_add x acc) (map mname models) (keys acc))
    by apply (H empty).
  induction models as [| m models IH]; intros acc; simpl; [reflexivity |].
  rewrite IH. now rewrite keys_set_set_add.
Qed.

Lemma Forall_set {V : Type} (P : string * V -> Prop) (o : JsObj.t V) (k : string) (v : V) :
  Forall P o -> P (k, v) -> Forall P (set o k v).
Proof.
  intros Ho Hv. induction Ho as [| [k' v'] o Hx Ho IH]; simpl.
  - now constructor.
  - destruct (String.eqb k' k); constructor; assumption.
Qed.

Lemma createdCount_init (models : list Model) : createdCount (initModelDataMap models) = 0.
Proof.
  unfold createdCount. rewrite filter_none; [reflexivity |].
  apply Forall_forall. unfold initModelDataMap.
  apply (fold_left_invariant
           (fun acc : ModelDataMap => Forall (fun kv => created (snd kv) = false) acc)).
  - intros acc m _ Hacc. now apply Forall_set.
  - constructor.
Qed.

(** The creations of a trace, pass by pass. *)
Lemma creations_by_pass (t : list Event) :
  filter isCreation t
  = filter isCreation (passEvents t) ++ concat (map (filter isCreation) (passesOf t)).
Proof.
  induction t as [| e t IH]; [reflexivity |].
  destruct e; simpl; rewrite IH; try reflexivity.
  destruct result; reflexivity.
Qed.

Lemma existsb_filter_length {A : Type} (f : A -> bool) (l : list A) :
  existsb f l = true -> 1 <= length (filter f l).
Proof.
  induction l as [| x l IH]; simpl; [discriminate |].
  destruct (f x); simpl; [lia | assumption].
Qed.

Lemma passes_bound (passes : list (list Event)) :
  (forall i, S i < length passes -> existsb isCreation (nth i passes []) = true) ->
  length passes <= S (length (concat (map (filter isCreation) passes))).
Proof.
  induction passes as [| p passes IH]; intros H; simpl; [lia |].
  rewrite length_app. destruct passes as [| q passes]; [simpl; lia |].
  assert (Hp : 1 <= length (filter isCreation p)).
  { apply existsb_filter_length. apply (H 0). simpl. lia. }
  assert (Hrest := IH (fun i Hi => H (S i) (proj1 (Nat.succ_lt_mono _ _) Hi))).
  simpl in *. lia.
Qed.

Variable W : Type.
Variable env : Env W.
Variable assemble : ModelDataMap -> string -> M W Obj.
Hypothesis assemble_quiet : forall mdm name, quiet (assemble mdm name).

Lemma attempt_count (mdm : ModelDataMap) (flag : bool) (name : string) (s : Sys W)
  (r : outcome (ModelDataMap * bool) * Sys W) :
  attemptSpec env assemble mdm flag name s r ->
  forall mdm' flag', fst r = Ret (mdm', flag') ->
    keys mdm' = keys mdm /\
    exists t, trace (snd r) = trace s ++ t /\
              createdCount mdm' = createdCount mdm + length (filter isCreation t).
Proof.
  intros [e Hget | entry Hget Hc | entry e s1 Hget Hc Ha
          | entry data s1 rec w Hget Hc Ha Hp | entry data s1 e w Hget Hc Ha Hp];
    simpl; intros mdm' flag' Hr; try discriminate; injection Hr as <- _.
  - split; [reflexivity |]. exists []. rewrite app_nil_r. simpl. split; [reflexivity | lia].
  - split; [now rewrite !keys_update |].
    exists [CallCreate name data (inl rec)].
    rewrite (assemble_trace W assemble assemble_quiet _ _ _ _ _ Ha).
    split; [reflexivity |]. simpl.
    assert (H1 := createdCount_update mdm name (pushRecord rec) entry Hget).
    assert (Hget1 : get (update mdm name (pushRecord rec)) name = Some (pushRecord rec entry)).
    { now rewrite get_update, String.eqb_refl, Hget. }
    assert (H2 := createdCount_update _ name markCreated _ Hget1).
    simpl in H1, H2. rewrite Hc in H1, H2. simpl in H1, H2. lia.
  - split; [reflexivity |]. exists [CallCreate name data (inr e)].
    rewrite (assemble_trace W assemble assemble_quiet _ _ _ _ _ Ha).
    split; [reflexivity |]. simpl. lia.
Qed.

Lemma runPass_count (names : list string) :
  forall mdm flag s mdm' flag' s',
    forEach (attemptModel env assemble) names (mdm, flag) s = (Ret (mdm', flag'), s') ->
    keys mdm' = keys mdm /\
    exists t, trace s' = trace s ++ t /\
              createdCount mdm' = createdCount mdm + length (filter isCreation t).
Proof.
  induction names as [| name names IH]; intros mdm flag s mdm' flag' s' Hrun;
    simpl in Hrun.
  - injection Hrun as <- _ <-. split; [reflexivity |]. exists [].
    rewrite app_nil_r. simpl. split; [reflexivity | lia].
  - unfold bind in Hrun.
    assert (Hspec := attemptModel_spec W env assemble assemble_quiet mdm flag name s).
    destruct (attemptModel env assemble (mdm, flag) name s) as [[[mdm1 flag1] | e |] s1];
      try discriminate.
    destruct (attempt_count _ _ _ _ _ Hspec mdm1 flag1 eq_refl) as (K1 & t1 & Ht1 & Hc1).
    destruct (IH _ _ _ _ _ _ Hrun) as (K2 & t2 & Ht2 & Hc2). simpl in Ht1.
    split; [congruence |]. exists (t1 ++ t2). split.
    + now rewrite Ht2, Ht1, app_assoc.
    + rewrite filter_app, length_app. lia.
Qed.

Lemma passLoop_count (fuel : nat) (names : list string) (maxPasses : Z) :
  forall pass mdm s mdm' s',
    passLoop env assemble fuel names maxPasses pass mdm s = (Ret mdm', s') ->
    keys mdm' = keys mdm /\
    exists t, trace s' = trace s ++ t /\
              createdCount mdm' = createdCount mdm + length (filter isCreation t).
Proof.
  induction fuel as [| fuel IH]; intros pass mdm s mdm' s' Hrun;
    destruct (Z.leb_spec pass maxPasses) as [Hle | Hgt].
  - simpl in Hrun. destruct (Z.leb_spec pass maxPasses); [discriminate | lia].
  - rewrite passLoop_exit in Hrun by assumption. injection Hrun as <- <-.
    split; [reflexivity |]. exists []. rewrite app_nil_r. simpl. split; [reflexivity | lia].
  - rewrite passLoop_unfold in Hrun by assumption. unfold runPass in Hrun.
    destruct (forEach (attemptModel env assemble) names (mdm, false)
                {| ext := ext s; trace := trace s ++ [LogPassStart pass] |})
      as [[[mdm1 flag1] | e |] s1] eqn:E; try discriminate.
    destruct (runPass_count _ _ _ _ _ _ _ E) as (K1 & t1 & Ht1 & Hc1). simpl in Ht1.
    destruct flag1.
    + destruct (IH _ _ _ _ _ Hrun) as (K2 & t2 & Ht2 & Hc2).
      split; [congruence |]. exists (LogPassStart pass :: t1 ++ t2). split.
      * rewrite Ht2, Ht1. repeat (rewrite <- app_assoc; simpl). reflexivity.
      * simpl. rewrite filter_app, length_app. lia.
    + injection Hrun as <- <-. split; [assumption |].
      exists (LogPassStart pass :: t1 ++ [LogNoProgress]). split.
      * simpl. rewrite Ht1. repeat (rewrite <- app_assoc; simpl). reflexivity.
      * simpl. rewrite filter_app, length_app. simpl. lia.
  - rewrite passLoop_exit in Hrun by assumption. injection Hrun as <- <-.
    split; [reflexivity |]. exists []. rewrite app_nil_r. simpl. split; [reflexivity | lia].
Qed.

Lemma multiPassCreate_count (models : list Model) (maxPasses : Z) (s s' : Sys W)
  (mdm : ModelDataMap) :
  multiPassCreate env assemble models maxPasses s = (Ret mdm, s') ->
  exists t,
    trace s' = trace s ++ t /\
    length (filter isCreation t) = createdCount mdm /\
    createdCount mdm <= length (firstOccurrences (map mname models)) /\
    length (passesOf t) <= S (createdCount mdm).
Proof.
  intros Hrun.
  destruct (multiPassCreate_generic W env assemble assemble_quiet (fun _ => True) attemptEvent
              attemptEvent_notPassStart) with (models := models) (maxPasses := maxPasses) (s := s)
    as (_ & t0 & Ht0 & (Hhead & _ & Hprog) & _).
  { intros mdm0 flag name s0 r _ Hspec.
    destruct (attemptSpec_trace W env _ assemble_quiet _ _ _ _ _ Hspec)
      as (Ha & t & Hb & Hc & Hd).
    split; [assumption |]. exists t. split; [assumption |]. split; [assumption |].
    intros mdm' flag' Hr. split; [exact Logic.I | eapply Hd; eauto]. }
  { exact Logic.I. }
  rewrite Hrun in Ht0. simpl in Ht0.
  unfold multiPassCreate, bind, lift in Hrun.
  destruct (topologicalSort (buildDependencyGraph models)) as [sorted | e |];
    try discriminate.
  destruct (passLoop_count _ _ _ _ _ _ _ _ Hrun) as (K & t & Ht & Hc).
  assert (t0 = t) by (rewrite Ht in Ht0; now apply app_inv_head in Ht0). subst t0.
  rewrite createdCount_init in Hc. simpl in Hc.
  exists t. split; [assumption |]. split; [now symmetry |]. split.
  - rewrite <- initModelDataMap_firstOccurrences, <- K. apply createdCount_le.
  - rewrite Hc, creations_by_pass, Hhead. simpl. now apply passes_bound.
Qed.

End PassCount.

(** X11.  In a run of the pass loop that returns, the creations that the
    store accepted are as many as the types whose [created] flag is set at the
    end, so no type is created twice; and the run makes at most one pass more
    than that, hence at most one pass more than there are type names,
    whatever [maxPasses] is. *)
Theorem multiPassCreate_pass_count (W : Type) (env : Env W)
  (assemble : ModelDataMap -> string -> M W Obj) (models : list Model)
  (maxPasses : Z) (s s' : Sys W) (mdm : ModelDataMap) :
  assemble = buildCreationData env \/ assemble = assembleInline env ->
  multiPassCreate env assemble models maxPasses s = (Ret mdm, s') ->
  exists t,
    trace s' = trace s ++ t /\
    length (filter isCreation t) = createdCount mdm /\
    createdCount mdm <= length (firstOccurrences (map mname models)) /\
    length (passesOf t) <= S (createdCount mdm).
Proof.
  intros [-> | ->].
  - apply multiPassCreate_count, quiet_buildCreationData.
  - apply multiPassCreate_count, quiet_assembleInline.
Qed.

Lemma multiPassCreate_pass_count_witness :
  exists mdm s' t,
    multiPassCreate (strictStore cyclicSchema) (buildCreationData (strictStore cyclicSchema))
                    cyclicSchema 100 (start 0) = (Ret mdm, s') /\
    createdCount mdm = 3 /\
    trace s' = [] ++ t /\
    length (filter isCreation t) = createdCount mdm /\
    createdCount mdm <= length (firstOccurrences (map mname cyclicSchema)) /\
    length (passesOf t) <= S (createdCount mdm).
Proof.
  eexists. eexists.
  assert (Hrun : multiPassCreate (strictStore cyclicSchema)
                   (buildCreationData (strictStore cyclicSchema)) cyclicSchema 100 (start 0)
                 = (Ret _, _)) by (vm_compute; reflexivity).
  destruct (multiPassCreate_pass_count nat (strictStore cyclicSchema)
              (buildCreationData (strictStore cyclicSchema)) cyclicSchema 100 (start 0)
              _ _ (or_introl eq_refl) Hrun) as (t & H).
  exists t. split; [exact Hrun |]. split; [reflexivity | exact H].
Defined.

(** ** One pass is enough for an acyclic schema *)

Section LinkedSchema.

Variable models : list Model.
Hypothesis models_linked : linkedSchema models = true.

Lemma linked_names : NoDup (map mname models).
Proof.
  unfold linkedSchema in models_linked. apply andb_true_iff in models_linked.
  now apply nodupb_NoDup.
Qed.

Lemma linked_model (m : Model) :
  In m models ->
  NoDup (map fname (fields m)) /\
  forall f, In f (fields m) -> linkedField (map mname models) f = true.
Proof.
  intros Hm. unfold linkedSchema in models_linked.
  apply andb_true_iff in models_linked. destruct models_linked as [_ H].
  rewrite forallb_forall in H. specialize (H m Hm). apply andb_true_iff in H.
  destruct H as [H1 H2]. split; [now apply nodupb_NoDup |].
  now rewrite forallb_forall in H2.
Qed.

Lemma linked_relationToFields (m : Model) (f : Field) :
  In m models -> In f (fields m) -> kind f = KObject -> relationToFields f <> None.
Proof.
  intros Hm Hf Hk. destruct (linked_model m Hm) as [_ H]. specialize (H f Hf).
  unfold linkedField in H. rewrite Hk in H. simpl in H.
  apply andb_true_iff in H. destruct H as [H _].
  destruct (relationToFields f); [discriminate | discriminate H].
Qed.

Lemma linked_dependency (m : Model) (f : Field) :
  In m models -> In f (fields m) -> isDependencyField f = true ->
  kind f = KObject /\ isList f = false /\
  In (ftype f) (map mname models) /\
  (exists x xs, relationFromFields f = Some (x :: xs)) /\
  exists rks, relationToFields f = Some rks.
Proof.
  intros Hm Hf Hd. destruct (linked_model m Hm) as [_ H]. specialize (H f Hf).
  unfold linkedField in H. rewrite Hd in H. unfold isDependencyField in Hd.
  apply andb_true_iff in Hd. destruct Hd as [Hd _].
  apply andb_true_iff in Hd. destruct Hd as [Hk Hl].
  rewrite Hk in H. simpl in H.
  apply andb_true_iff in H. destruct H as [Hto H].
  apply andb_true_iff in H. destruct H as [Hty Hfrom].
  split; [destruct (kind f); try discriminate; reflexivity |].
  split; [now apply negb_true_iff |].
  split; [now apply mem_In |].
  split.
  - destruct (relationFromFields f) as [[| x xs] |]; try discriminate. eauto.
  - destruct (relationToFields f) as [rks |]; [eauto | discriminate].
Qed.

End LinkedSchema.

Lemma find_by_name (models : list Model) (m : Model) :
  NoDup (map mname models) -> In m models ->
  find (fun m' => String.eqb (mname m') (mname m)) models = Some m.
Proof.
  induction models as [| m0 models IH]; simpl; intros Hnd Hm; [destruct Hm |].
  inversion Hnd as [| ? ? Hout Hnd']; subst.
  destruct (String.eqb_spec (mname m0) (mname m)) as [Heq | Hne].
  - destruct Hm as [-> | Hm]; [reflexivity |].
    exfalso. apply Hout. rewrite Heq. now apply in_map.
  - destruct Hm as [-> | Hm]; [contradiction | now apply IH].
Qed.

(** The reference store accepts what it says it accepts. *)
Lemma strictStore_accepting (models : list Model) :
  NoDup (map mname models) -> accepting (strictStore models) models.
Proof.
  intros Hnd m data w Hm Hreq. simpl.
  rewrite (find_by_name models m Hnd Hm), Hreq. eauto.
Qed.

Section OnePass.
Import JsObj.

Variable W : Type.
Variable env : Env W.
Variable models : list Model.
Hypothesis models_linked : linkedSchema models = true.
Hypothesis models_acyclic : acyclic (buildDependencyGraph models).
Hypothesis store_accepting : accepting env models.

Lemma relation_loop_returns (mdm : ModelDataMap) (name : string) (m : Model)
  (l : list Field) :
  (forall g, In g l -> kind g = KObject -> relationToFields g <> None) ->
  forall data (s : Sys W),
  exists data',
    forEach (fun d f => lift (relationStep mdm name m d f)) l data s = (Ret data', s).
Proof.
  induction l as [| g l IH]; intros Hrtf data s; simpl; [now exists data |].
  unfold bind, lift.
  destruct (relationStep_returns mdm name m data g (Hrtf g (or_introl eq_refl))) as [d1 ->].
  apply IH. intros g' Hg'. apply Hrtf. now right.
Qed.

(** The order in which the loop attempts the types of the schema. *)
Lemma schema_order :
  exists sorted,
    topologicalSort (buildDependencyGraph models) = Ret sorted /\
    Ordered (buildDependencyGraph models) sorted /\
    NoDup sorted /\
    forall k, In k sorted <-> In k (map mname models).
Proof.
  assert (Hshape := buildDependencyGraph_shape models).
  destruct (topologicalSort_wellFormed _ Hshape)
    as (inDegree & sorted & Hrun & Hinv & Hdeg & Hord).
  assert (Hall := acyclic_all_sorted _ Hshape inDegree sorted Hinv Hdeg models_acyclic).
  exists sorted. split; [| split; [assumption | split; [exact (ki_nodup Hinv) |]]].
  - rewrite Hrun. unfold leftOut. rewrite filter_none; [now rewrite app_nil_r |].
    intros k Hk. apply negb_false_iff, mem_In. now apply Hall.
  - intros k. rewrite <- buildDependencyGraph_names. split.
    + apply (KahnInv_seen_keys _ _ _ Hinv).
    + apply Hall.
Qed.

(** With a record for every type that [a] requires, the payload of [a]
    connects all its required relations. *)
Lemma payload_connected (mdm : ModelDataMap) (a : string) (entry : ModelData)
  (s : Sys W) :
  get mdm a = Some entry -> In (model entry) models -> mname (model entry) = a ->
  (forall b, edge (buildDependencyGraph models) a b ->
             exists tgt rec rest, get mdm b = Some tgt /\ createdRecords tgt = rec :: rest) ->
  exists data s',
    buildCreationData env mdm a s = (Ret data, s') /\
    trace s' = trace s /\
    requiredConnected (model entry) data = true.
Proof.
  intros Hget Hm Hname Hdeps.
  destruct (linked_model models models_linked _ Hm) as [Hnd _].
  assert (Hrtf : forall g, In g (fields (model entry)) -> kind g = KObject ->
                           relationToFields g <> None).
  { intros g. now apply (linked_relationToFields models models_linked). }
  unfold buildCreationData. rewrite Hget. unfold bind.
  assert (Hscalar : returns (forEach (scalarStep env (model entry))
                                     (fields (model entry)) empty)).
  { apply returns_forEach. intros acc g s0.
    destruct (scalarStep_effect W env (model entry) acc g s0) as (d & s1 & E & _). eauto. }
  destruct (Hscalar s) as (d1 & s1 & E1).
  assert (Htrace : trace s1 = trace s).
  { destruct (quiet_forEach W (scalarStep env (model entry)) (fields (model entry))
                (fun acc x => quiet_scalarStep W env (model entry) acc x) empty s)
      as [_ Ht].
    now rewrite E1 in Ht. }
  rewrite E1.
  destruct (relation_loop_returns mdm a (model entry) (fields (model entry)) Hrtf d1 s1)
    as [data E2].
  rewrite E2. exists data, s1. split; [reflexivity |]. split; [assumption |].
  unfold requiredConnected. apply forallb_forall. intros f Hf.
  destruct (isDependencyField f) eqn:Hd; [| reflexivity]. simpl.
  destruct (linked_dependency models models_linked _ f Hm Hf Hd)
    as (Hk & Hli & Hty & (x & xs & Hfrom) & (rks & Hto)).
  assert (Hedge : edge (buildDependencyGraph models) a (ftype f)).
  { apply buildDependencyGraph_edges. exists (model entry), f. repeat split; assumption. }
  assert (Hne : ftype f <> a).
  { intros Heq. apply (models_acyclic a). apply t_step. now rewrite Heq in Hedge. }
  destruct (Hdeps _ Hedge) as (tgt & rec & rest & Htgt & Hrecs).
  destruct (relation_loop_connects W mdm a (model entry) (fields (model entry)) f x xs rks
              tgt rec rest Hnd Hrtf Hf Hk Hne Hli Hfrom Hto Htgt Hrecs d1 s1)
    as (data' & E' & Hg).
  rewrite E2 in E'. injection E' as <-. unfold prop. rewrite Hg. reflexivity.
Qed.

Lemma firstPassState_init : firstPassState models [] (initModelDataMap models).
Proof.
  split; [reflexivity |]. intros k entry0 Hget. exists entry0.
  split; [assumption |]. split; [reflexivity |]. simpl.
  destruct (initModelDataMap_entry models k entry0 Hget) as (Hr & Hc & _). now split.
Qed.

(** The first pass, over a list of names in which every name comes after
    those it requires. *)
Lemma first_pass (l : list string) :
  Ordered (buildDependencyGraph models) l -> NoDup l -> incl l (map mname models) ->
  forall s,
  exists mdm s' t,
    forEach (attemptModel env (buildCreationData env)) l (initModelDataMap models, false) s
    = (Ret (mdm, match l with [] => false | _ :: _ => true end), s') /\
    firstPassState models l mdm /\
    trace s' = trace s ++ t /\
    Forall (fun e => isCreation e = true) t.
Proof.
  induction 1 as [| l a Hl IH Hdeps]; intros Hnd Hincl s.
  - exists (initModelDataMap models), s, []. rewrite app_nil_r.
    split; [reflexivity |]. split; [apply firstPassState_init |]. now split.
  - assert (Hndl : NoDup l) by (now apply NoDup_app_remove_r in Hnd).
    assert (Hout : ~ In a l).
    { apply NoDup_remove_2 in Hnd. now rewrite app_nil_r in Hnd. }
    assert (Hincl' : incl l (map mname models)).
    { intros k Hk. apply Hincl, in_or_app. now left. }
    destruct (IH Hndl Hincl' s) as (mdm1 & s1 & t1 & Hrun1 & [Hkeys Hst] & Ht1 & Hall1).
    assert (Ha : In a (map mname models)).
    { apply Hincl, in_or_app. right. now left. }
    apply initModelDataMap_keys in Ha. destruct (keys_get _ _ _ Ha) as [entry0 Hget0].
    destruct (Hst a entry0 Hget0) as (entry & Hget & Hmodel & Hflags).
    apply mem_false in Hout. rewrite Hout in Hflags. destruct Hflags as [Hc Hrecs].
    destruct (initModelDataMap_entry models a entry0 Hget0) as (_ & _ & Hm & Hname).
    rewrite <- Hmodel in Hm, Hname.
    destruct (payload_connected mdm1 a entry s1 Hget Hm Hname) as (data & s2 & Hasm & Htr & Hreq).
    { intros b Hb.
      assert (Hbk : In b (keys (initModelDataMap models))).
      { apply initModelDataMap_keys, buildDependencyGraph_names.
        apply (shape_closed (buildDependencyGraph_shape models) Hb). }
      destruct (keys_get _ _ _ Hbk) as [e0 He0].
      destruct (Hst b e0 He0) as (tgt & Hgt & _ & Hfl).
      assert (Hin : mem b l = true) by (apply mem_In; now apply Hdeps).
      rewrite Hin in Hfl. destruct Hfl as [_ Hlen].
      destruct (createdRecords tgt) as [| rec rest] eqn:E; [discriminate |].
      exists tgt, rec, rest. now split. }
    destruct (store_accepting (model entry) data (ext s2) Hm Hreq) as (rec & w' & Hp).
    rewrite Hname in Hp.
    exists (update (update mdm1 a (pushRecord rec)) a markCreated),
           (mkSys w' (trace s2 ++ [CallCreate a data (inl rec)])),
           (t1 ++ [CallCreate a data (inl rec)]).
    split; [| split; [| split]].
    + rewrite forEach_app. unfold bind at 1. rewrite Hrun1. simpl forEach.
      unfold bind at 1. unfold attemptModel. cbn [fst snd]. rewrite Hget, Hc.
      unfold bind at 1. unfold tryCreateOneRecord. unfold bind at 1. rewrite Hasm.
      unfold tryCatch, bind, callCreate. rewrite Hp. simpl.
      destruct l; reflexivity.
    + split; [now rewrite !keys_update |].
      intros k e0 He0. rewrite !get_update, mem_app, mem_single.
      destruct (String.eqb_spec a k) as [<- | Hne].
      * rewrite Hget. simpl. rewrite Hget0 in He0. injection He0 as <-.
        exists (markCreated (pushRecord rec entry)). split; [reflexivity |].
        split; [assumption |]. rewrite String.eqb_refl, orb_true_r. simpl.
        rewrite Hrecs. now split.
      * destruct (Hst k e0 He0) as (e & He & Hmo & Hfl). exists e.
        split; [assumption |]. split; [assumption |].
        destruct (String.eqb_spec k a) as [-> | _]; [contradiction |].
        now rewrite orb_false_r.
    + simpl. rewrite Htr, Ht1. now rewrite app_assoc.
    + apply Forall_app. split; [assumption | repeat constructor].
Qed.

Lemma all_skipped (names : list string) (mdm : ModelDataMap) (flag : bool) (s : Sys W) :
  (forall k, In k names -> exists entry, get mdm k = Some entry /\ created entry = true) ->
  forEach (attemptModel env (buildCreationData env)) names (mdm, flag) s
  = (Ret (mdm, flag), s).
Proof.
  induction names as [| k names IH]; intros H; simpl; [reflexivity |].
  unfold bind, attemptModel. simpl.
  destruct (H k (or_introl eq_refl)) as (entry & -> & ->). simpl.
  apply IH. intros k' Hk'. apply H. now right.
Qed.

Lemma isCreation_notPassStart (t : list Event) :
  Forall (fun e => isCreation e = true) t -> Forall notPassStart t.
Proof.
  apply Forall_impl. intros e. destruct e; simpl; auto. discriminate.
Qed.

Lemma isCreation_notRejected (t : list Event) :
  Forall (fun e => isCreation e = true) t -> Forall notRejected t.
Proof.
  apply Forall_impl. intros e. destruct e; simpl; auto. destruct result; auto. discriminate.
Qed.

Lemma one_pass (maxPasses : Z) (s : Sys W) :
  (1 <= maxPasses)%Z ->
  exists mdm s' t,
    multiPassCreate env (buildCreationData env) models maxPasses s = (Ret mdm, s') /\
    trace s' = trace s ++ t /\
    firstPassState models (map mname models) mdm /\
    Forall notRejected t /\
    length (passesOf t) <= 2.
Proof.
  intros Hmax. destruct schema_order as (sorted & Htopo & Hord & Hnd & Hnames).
  unfold multiPassCreate, bind, lift. rewrite Htopo.
  destruct (Z.to_nat maxPasses) as [| fuel] eqn:Hfuel; [lia |].
  rewrite passLoop_unfold by assumption. unfold runPass.
  destruct (first_pass sorted Hord Hnd (fun k Hk => proj1 (Hnames k) Hk)
              (mkSys (ext s) (trace s ++ [LogPassStart 1])))
    as (mdm1 & s1 & t1 & Hrun1 & Hst & Ht1 & Hall).
  rewrite Hrun1. simpl in Ht1.
  assert (Hstate : firstPassState models (map mname models) mdm1).
  { destruct Hst as [Hk Hst]. split; [assumption |]. intros k e0 He0.
    destruct (Hst k e0 He0) as (e & He & Hm & Hfl). exists e.
    split; [assumption |]. split; [assumption |].
    destruct (mem k sorted) eqn:E1, (mem k (map mname models)) eqn:E2; try assumption.
    - apply mem_In, Hnames, mem_In in E1. congruence.
    - apply mem_In, Hnames, mem_In in E2. congruence. }
  assert (Hquiet := isCreation_notPassStart t1 Hall).
  assert (Hok := isCreation_notRejected t1 Hall).
  destruct (match sorted with [] => false | _ :: _ => true end) eqn:Hflag.
  - destruct (Z.leb_spec 2 maxPasses) as [Hle | Hgt].
    + destruct fuel as [| fuel]; [lia |].
      rewrite passLoop_unfold by lia. unfold runPass. rewrite all_skipped.
      * exists mdm1, (mkSys (ext s1) ((trace s1 ++ [LogPassStart (1 + 1)]) ++ [LogNoProgress])),
               (LogPassStart 1 :: t1 ++ [LogPassStart (1 + 1); LogNoProgress]).
        split; [reflexivity |]. split; [| split; [assumption | split]].
        -- simpl. rewrite Ht1. repeat (rewrite <- app_assoc; simpl). reflexivity.
        -- constructor; [exact Logic.I |]. apply Forall_app. split; [assumption |].
           repeat constructor.
        -- simpl. rewrite passesOf_quiet by assumption. simpl. lia.
      * intros k Hk. apply Hnames in Hk. apply initModelDataMap_keys in Hk.
        destruct (keys_get _ _ _ Hk) as [e0 He0].
        destruct (proj2 Hstate k e0 He0) as (e & He & _ & Hfl).
        apply initModelDataMap_keys, mem_In in Hk. rewrite Hk in Hfl.
        exists e. now split.
    + rewrite passLoop_exit by lia.
      exists mdm1, s1, (LogPassStart 1 :: t1 ++ []).
      split; [reflexivity |]. split; [| split; [assumption | split]].
      * rewrite Ht1, app_nil_r. repeat (rewrite <- app_assoc; simpl). reflexivity.
      * constructor; [exact Logic.I |]. apply Forall_app. split; [assumption | constructor].
      * simpl. rewrite passesOf_quiet by assumption. simpl. lia.
  - exists mdm1, (mkSys (ext s1) (trace s1 ++ [LogNoProgress])),
           (LogPassStart 1 :: t1 ++ [LogNoProgress]).
    split; [reflexivity |]. split; [| split; [assumption | split]].
    + simpl. rewrite Ht1. repeat (rewrite <- app_assoc; simpl). reflexivity.
    + constructor; [exact Logic.I |]. apply Forall_app. split; [assumption |].
      repeat constructor.
    + simpl. rewrite passesOf_quiet by assumption. simpl. lia.
Qed.

End OnePass.

(** X12.  Take a schema with distinct type names and distinct field names,
    whose relation fields have [relationToFields] and whose required non-list
    relations target declared types and hold the foreign key; let its graph
    be acyclic, and let the store accept every creation whose payload
    connects the required relations of its type.  Then, for every
    [maxPasses] of at least one, whatever the order of the declarations and
    the depth of the dependencies, [multiPassCreate] returns with every type
    created with exactly one record; the store rejects no creation, and the
    run takes at most two passes. *)
Theorem multiPassCreate_one_pass (W : Type) (env : Env W) (models : list Model)
  (maxPasses : Z) (s : Sys W) :
  (1 <= maxPasses)%Z ->
  linkedSchema models = true ->
  acyclic (buildDependencyGraph models) ->
  accepting env models ->
  exists mdm s' t,
    multiPassCreate env (buildCreationData env) models maxPasses s = (Ret mdm, s') /\
    trace s' = trace s ++ t /\
    (forall m, In m models ->
               isCreated mdm (mname m) = true /\ recordCount mdm (mname m) = 1) /\
    Forall notRejected t /\
    length (passesOf t) <= 2.
Proof.
  intros Hmax Hlinked Hac Hstore.
  destruct (one_pass W env models Hlinked Hac Hstore maxPasses s Hmax)
    as (mdm & s' & t & Hrun & Ht & [Hkeys Hst] & Hok & Hlen).
  exists mdm, s', t. split; [assumption |]. split; [assumption |].
  split; [| now split].
  intros m Hm.
  assert (Hin : In (mname m) (map mname models)) by now apply in_map.
  assert (Hk := proj2 (initModelDataMap_keys models (mname m)) Hin).
  destruct (keys_get _ _ _ Hk) as [e0 He0].
  destruct (Hst _ e0 He0) as (e & He & _ & Hfl).
  apply mem_In in Hin. rewrite Hin in Hfl. destruct Hfl as [Hc Hl].
  unfold isCreated, recordCount. rewrite He. now split.
Qed.

Lemma multiPassCreate_one_pass_witness :
  exists mdm s' t,
    multiPassCreate (strictStore blogSchema) (buildCreationData (strictStore blogSchema))
                    blogSchema 1 (start 0) = (Ret mdm, s') /\
    trace s' = [] ++ t /\
    (forall m, In m blogSchema ->
               isCreated mdm (mname m) = true /\ recordCount mdm (mname m) = 1) /\
    Forall notRejected t /\
    length (passesOf t) <= 2.
Proof.
  apply (multiPassCreate_one_pass nat (strictStore blogSchema) blogSchema 1 (start 0)).
  - lia.
  - reflexivity.
  - apply (rankedb_acyclic (buildDependencyGraph blogSchema) blogRank). reflexivity.
  - apply strictStore_accepting. apply nodupb_NoDup. reflexivity.
Defined.

(** ** Failures of the store do not escape *)

Section BestEffort.
Import JsObj.

Variable W : Type.
Variable env : Env W.
Variable models : list Model.
Hypothesis models_rtf :
  forall m f, In m models -> In f (fields m) -> kind f = KObject ->
              relationToFields f <> None.

Lemma buildCreationData_returns (mdm : ModelDataMap) (name : string) (entry : ModelData)
  (s : Sys W) :
  get mdm name = Some entry -> In (model entry) models ->
  exists data s', buildCreationData env mdm name s = (Ret data, s').
Proof.
  intros Hget Hm. unfold buildCreationData. rewrite Hget. unfold bind.
  assert (Hscalar : returns (forEach (scalarStep env (model entry))
                                     (fields (model entry)) empty)).
  { apply returns_forEach. intros acc g s0.
    destruct (scalarStep_effect W env (model entry) acc g s0) as (d & s1 & E & _). eauto. }
  destruct (Hscalar s) as (d1 & s1 & ->).
  destruct (relation_loop_returns W mdm name (model entry) (fields (model entry))
              (fun g Hg => models_rtf (model entry) g Hm Hg) d1 s1) as [data ->].
  eauto.
Qed.

Lemma stateOf_init : stateOf models (initModelDataMap models).
Proof.
  split; [reflexivity |]. intros k entry Hget.
  now destruct (initModelDataMap_entry models k entry Hget) as (_ & _ & Hm & _).
Qed.

Lemma stateOf_update (mdm : ModelDataMap) (name : string) (f : ModelData -> ModelData) :
  (forall d, model (f d) = model d) ->
  stateOf models mdm -> stateOf models (update mdm name f).
Proof.
  intros Hf [Hk Hm]. split; [now rewrite keys_update |].
  intros k entry. rewrite get_update.
  destruct (String.eqb name k); [| apply Hm].
  destruct (get mdm k) as [d |] eqn:E; [| discriminate].
  simpl. intros [= <-]. rewrite Hf. now apply (Hm k).
Qed.

Lemma tryCreateOneRecord_returns (mdm : ModelDataMap) (name : string) (entry : ModelData)
  (s : Sys W) :
  get mdm name = Some entry -> stateOf models mdm ->
  exists b mdm' s',
    tryCreateOneRecord env (buildCreationData env) mdm name s = (Ret (b, mdm'), s') /\
    stateOf models mdm' /\
    (b = true -> exists rec, mdm' = update mdm name (pushRecord rec)).
Proof.
  intros Hget Hst.
  destruct (buildCreationData_returns mdm name entry s Hget (proj2 Hst _ _ Hget))
    as (data & s1 & Hasm).
  unfold tryCreateOneRecord, bind. rewrite Hasm. unfold tryCatch, bind, callCreate, ret.
  destruct (prisma_create env name data (ext s1)) as [[rec | e] w]; simpl.
  - exists true. eexists. eexists. split; [reflexivity |]. split.
    + now apply stateOf_update.
    + intros _. now exists rec.
  - exists false, mdm. eexists. split; [reflexivity |]. split; [assumption | discriminate].
Qed.

Lemma attemptModel_returns (mdm : ModelDataMap) (flag : bool) (name : string) (s : Sys W) :
  stateOf models mdm -> In name (map mname models) ->
  exists mdm' flag' s',
    attemptModel env (buildCreationData env) (mdm, flag) name s = (Ret (mdm', flag'), s') /\
    stateOf models mdm'.
Proof.
  intros Hst Hname. unfold attemptModel. cbn [fst snd].
  assert (Hk : In name (keys mdm)).
  { rewrite (proj1 Hst). now apply initModelDataMap_keys. }
  destruct (keys_get _ _ _ Hk) as [entry Hget]. rewrite Hget.
  destruct (created entry); [exists mdm, flag, s; now split |].
  destruct (tryCreateOneRecord_returns mdm name entry s Hget Hst)
    as (b & mdm1 & s1 & Htry & Hst1 & _).
  unfold bind. rewrite Htry. destruct b.
  - eexists. eexists. eexists. split; [reflexivity |]. now apply stateOf_update.
  - eexists. eexists. eexists. split; [reflexivity | assumption].
Qed.

Lemma runPass_returns (names : list string) :
  incl names (map mname models) ->
  forall mdm flag s,
    stateOf models mdm ->
    exists mdm' flag' s',
      forEach (attemptModel env (buildCreationData env)) names (mdm, flag) s
      = (Ret (mdm', flag'), s') /\
      stateOf models mdm'.
Proof.
  induction names as [| name names IH]; intros Hincl mdm flag s Hst; simpl.
  - exists mdm, flag, s. now split.
  - destruct (attemptModel_returns mdm flag name s Hst (Hincl name (or_introl eq_refl)))
      as (mdm1 & flag1 & s1 & Hrun & Hst1).
    unfold bind. rewrite Hrun. apply IH; [| assumption].
    intros k Hk. apply Hincl. now right.
Qed.

Lemma passLoop_returns (names : list string) (maxPasses : Z) :
  incl names (map mname models) ->
  forall fuel pass mdm s,
    stateOf models mdm ->
    Z.to_nat (maxPasses - pass + 1) <= fuel ->
    exists mdm' s',
      passLoop env (buildCreationData env) fuel names maxPasses pass mdm s = (Ret mdm', s') /\
      stateOf models mdm'.
Proof.
  intros Hincl. induction fuel as [| fuel IH]; intros pass mdm s Hst Hfuel;
    destruct (Z.leb_spec pass maxPasses) as [Hle | Hgt].
  - exfalso. lia.
  - rewrite passLoop_exit by assumption. exists mdm, s. now split.
  - rewrite passLoop_unfold by assumption. unfold runPass.
    destruct (runPass_returns names Hincl mdm false
                (mkSys (ext s) (trace s ++ [LogPassStart pass])) Hst)
      as (mdm1 & flag1 & s1 & Hrun & Hst1).
    rewrite Hrun. destruct flag1.
    + apply IH; [assumption | lia].
    + eexists. eexists. split; [reflexivity | assumption].
  - rewrite passLoop_exit by assumption. exists mdm, s. now split.
Qed.

Lemma multiPassCreate_returns (maxPasses : Z) (s : Sys W) :
  exists mdm s',
    multiPassCreate env (buildCreationData env) models maxPasses s = (Ret mdm, s') /\
    stateOf models mdm.
Proof.
  unfold multiPassCreate, bind, lift.
  destruct (topologicalSort_schema models) as (sorted & -> & _ & Hnames).
  apply passLoop_returns.
  - intros k Hk. now apply Hnames.
  - apply stateOf_init.
  - lia.
Qed.

Lemma createAdditionalSelfRelationRecord_returns (mdm : ModelDataMap) (name : string)
  (entry : ModelData) (s : Sys W) :
  get mdm name = Some entry -> stateOf models mdm ->
  exists mdm' s', createAdditionalSelfRelationRecord env mdm name s = (Ret mdm', s').
Proof.
  intros Hget Hst. unfold createAdditionalSelfRelationRecord. rewrite Hget.
  assert (Hfirst :
    exists b mdm1 s1,
      (if (length (createdRecords entry) =? 0)%nat
       then tryCreateOneRecord env (buildCreationData env) mdm name
       else ret (true, mdm)) s = (Ret (b, mdm1), s1) /\
      stateOf models mdm1 /\
      (b = true ->
       exists entry1 first rest,
         get mdm1 name = Some entry1 /\ createdRecords entry1 = first :: rest)).
  { destruct (length (createdRecords entry) =? 0)%nat eqn:Hlen.
    - destruct (tryCreateOneRecord_returns mdm name entry s Hget Hst)
        as (b & mdm1 & s1 & Htry & Hst1 & Hb).
      exists b, mdm1, s1. split; [assumption |]. split; [assumption |].
      intros Htrue. destruct (Hb Htrue) as [rec ->].
      apply Nat.eqb_eq in Hlen. apply length_zero_iff_nil in Hlen.
      exists (pushRecord rec entry), rec, []. split.
      + now rewrite get_update, String.eqb_refl, Hget.
      + simpl. now rewrite Hlen.
    - exists true, mdm, s. split; [reflexivity |]. split; [assumption |].
      intros _. destruct (createdRecords entry) as [| first rest] eqn:E; [discriminate |].
      now exists entry, first, rest. }
  destruct Hfirst as (b & mdm1 & s1 & Hfirst & Hst1 & Hb).
  unfold bind at 1. rewrite Hfirst. destruct b; simpl; [| now exists mdm1, s1].
  destruct (Hb eq_refl) as (entry1 & first & rest & Hget1 & Hrecs1).
  rewrite Hget1, Hrecs1. simpl.
  destruct (buildCreationData_returns mdm1 name entry1 s1 Hget1 (proj2 Hst1 _ _ Hget1))
    as (data & s2 & Hasm).
  unfold bind at 1. rewrite Hasm.
  assert (Hdata' :
    exists data',
      match find (isSelfRelationField name) (fields (model entry)) with
      | Some selfRelationField =>
          bind (lift (connectByKey (relationToFields selfRelationField) (Some first)))
               (fun c => ret (set data (fname selfRelationField) c))
      | None => ret data
      end s2 = (Ret data', s2)).
  { destruct (find (isSelfRelationField name) (fields (model entry))) as [f |] eqn:Hfind;
      [| now exists data].
    apply find_some in Hfind. destruct Hfind as [Hf Hself].
    unfold isSelfRelationField in Hself.
    apply andb_true_iff in Hself. destruct Hself as [Hself _].
    apply andb_true_iff in Hself. destruct Hself as [Hk _].
    assert (Hkind : kind f = KObject) by (destruct (kind f); try discriminate; reflexivity).
    destruct (relationToFields f) as [rks |] eqn:Hrks.
    - rewrite connectByKey_Some. unfold bind, lift, ret. eauto.
    - exfalso. now apply (models_rtf (model entry) f (proj2 Hst _ _ Hget) Hf Hkind). }
  destruct Hdata' as [data' Hdata'].
  unfold bind at 1. rewrite Hdata'.
  unfold tryCatch, bind, callCreate, callUpdate, ret.
  destruct (prisma_create env name data' (ext s2)) as [[second | e] w]; simpl; [| eauto].
  match goal with
  | |- context [prisma_update env ?n ?wh ?d ?x] =>
      destruct (prisma_update env n wh d x) as [[second' | e] w2]
  end; simpl; eauto.
Qed.

Lemma stateOf_appended (name : string) (added : list Obj) (mdm mdm' : ModelDataMap) :
  stateOf models mdm -> appended name added mdm mdm' -> stateOf models mdm'.
Proof.
  intros [Hk Hm] (K & O & N). split; [congruence |].
  intros k entry Hget. destruct (String.eqb_spec k name) as [-> | Hne].
  - assert (Hin : In name (keys mdm)).
    { rewrite <- K. eapply get_Some_keys; eauto. }
    destruct (keys_get _ _ _ Hin) as [e He]. rewrite (N e He) in Hget.
    injection Hget as <-. simpl. now apply (Hm name).
  - rewrite (O k Hne) in Hget. now apply (Hm k).
Qed.

Lemma resolveSelfRelation_returns (mdm : ModelDataMap) (name : string) (s : Sys W) :
  stateOf models mdm -> In name (keys mdm) ->
  exists mdm' s',
    resolveSelfRelation env mdm name s = (Ret mdm', s') /\ stateOf models mdm'.
Proof.
  intros Hst Hk. unfold resolveSelfRelation.
  destruct (keys_get _ _ _ Hk) as [entry Hget]. rewrite Hget.
  destruct (isSelfRelationModel (model entry) && (length (createdRecords entry) <? 2)%nat);
    [| exists mdm, s; now split].
  destruct (createAdditionalSelfRelationRecord_returns mdm name entry s Hget Hst)
    as (mdm' & s' & Hrun).
  exists mdm', s'. split; [assumption |].
  destruct (createAdditionalSelfRelationRecord_appended W env mdm name entry s s' mdm' Hget Hrun)
    as (added & Happ & _).
  eapply stateOf_appended; eauto.
Qed.

Lemma resolver_returns (names : list string) :
  forall mdm s,
    stateOf models mdm -> incl names (keys mdm) ->
    exists mdm' s', forEach (resolveSelfRelation env) names mdm s = (Ret mdm', s').
Proof.
  induction names as [| name names IH]; intros mdm s Hst Hincl; simpl;
    [now exists mdm, s |].
  destruct (resolveSelfRelation_returns mdm name s Hst (Hincl name (or_introl eq_refl)))
    as (mdm1 & s1 & Hrun & Hst1).
  unfold bind. rewrite Hrun. apply IH; [assumption |].
  intros k Hk. rewrite (proj1 Hst1), <- (proj1 Hst). apply Hincl. now right.
Qed.

End BestEffort.

(** X13.  When the schema can be loaded, its relation fields have
    [relationToFields], and closing the session succeeds, [generateSeedData]
    returns normally whatever the store answers to the creations and the
    updates: a failure of the store is logged and swallowed, never rethrown.
    The run ends with the success line followed by the disconnection. *)
Theorem generateSeedData_best_effort (W : Type) (env : Env W) (seedPath : string)
  (s : Sys W) (models : list Model) (w : W) :
  load_schema env seedPath (ext s) = (inl models, w) ->
  (forall m f, In m models -> In f (fields m) -> kind f = KObject ->
               relationToFields f <> None) ->
  (forall w0, exists w1, prisma_disconnect env w0 = (inl tt, w1)) ->
  exists s' t,
    generateSeedData env seedPath s = (Ret tt, s') /\
    trace s' = trace s ++ CallLoad seedPath :: t ++ [LogSeedDone; CallDisconnect].
Proof.
  intros Hload Hrtf Hdisc.
  set (s0 := mkSys w (trace s ++ [CallLoad seedPath])).
  destruct (multiPassCreate_returns W env models Hrtf 5 s0) as (mdm & s1 & Hrun & Hst).
  destruct (resolver_returns W env models Hrtf (JsObj.keys mdm) mdm s1 Hst (incl_refl _))
    as (mdm2 & s2 & Hres).
  destruct (Hdisc (ext s2)) as [w3 Hd].
  assert (Ht1 : exists t1, trace s1 = trace s0 ++ t1).
  { destruct (emitsOnly_multiPassCreate W env models 5 s0) as (_ & t1 & H & _).
    rewrite Hrun in H. eauto. }
  assert (Ht2 : exists t2, trace s2 = trace s1 ++ t2).
  { destruct (emitsOnly_forEach W notDisconnect (resolveSelfRelation env) (JsObj.keys mdm)
                (fun acc k => emitsOnly_resolveSelfRelation W env acc k) mdm s1)
      as (_ & t2 & H & _).
    rewrite Hres in H. eauto. }
  destruct Ht1 as [t1 Ht1], Ht2 as [t2 Ht2].
  exists (mkSys w3 ((trace s2 ++ [LogSeedDone]) ++ [CallDisconnect])), (t1 ++ t2).
  split.
  - unfold generateSeedData, tryFinally, tryCatch. unfold bind at 1. unfold callLoad.
    rewrite Hload. fold s0. unfold bind at 1. rewrite Hrun.
    unfold bind at 1. rewrite Hres. unfold emit, callDisconnect. simpl. rewrite Hd.
    reflexivity.
  - simpl. rewrite Ht2, Ht1. unfold s0. simpl.
    repeat (rewrite <- app_assoc; simpl). reflexivity.
Qed.

Lemma generateSeedData_best_effort_witness :
  exists s' t,
    generateSeedData (strictStore [categoryModel]) "schema.prisma" (start 0) = (Ret tt, s') /\
    trace s' = [] ++ CallLoad "schema.prisma" :: t ++ [LogSeedDone; CallDisconnect].
Proof.
  apply (generateSeedData_best_effort nat (strictStore [categoryModel]) "schema.prisma"
           (start 0) [categoryModel] 0).
  - reflexivity.
  - intros m f Hm Hf Hk. simpl in Hm. destruct Hm as [<- | []].
    simpl in Hf. destruct Hf as [<- | [<- | [<- | [<- | []]]]]; simpl in *; discriminate.
  - intros w0. now exists w0.
Defined.

(** ** What a strict store lets the loop create *)

Section ConnectOrigin.
Import JsObj.

Variable W : Type.
Variable env : Env W.

Lemma fake_not_connect (field : Field) (s s' : Sys W) (v : Value) :
  generateFakeValueForField env field s = (Ret v, s') -> isConnect v = false.
Proof.
  unfold generateFakeValueForField.
  split_ifs; unfold bind, randomToken, currentTime, ret; cbv beta;
    try destruct (random_token env (ext s)) as [tok w1];
    try destruct (clock env (ext s)) as [t w2];
    intros H; inversion H; reflexivity.
Qed.

Lemma scalarStep_value (m : Model) (data : Obj) (field : Field) (s s' : Sys W)
  (data' : Obj) :
  scalarStep env m data field s = (Ret data', s') ->
  data' = data \/ exists v, data' = set data (fname field) v /\ isConnect v = false.
Proof.
  unfold scalarStep.
  destruct (FieldKind_eqb (kind field) KScalar && negb (isReadOnly field));
    [| intros [= <- _]; now left].
  destruct (isForeignKey m field); [intros [= <- _]; now left |].
  intros H. unfold bind in H.
  destruct (generateFakeValueForField env field s) as [[v | e |] s1] eqn:E; try discriminate.
  injection H as <- _. right. exists v. split; [reflexivity |].
  eapply fake_not_connect; eauto.
Qed.

Lemma relationStep_value (mdm : ModelDataMap) (name : string) (m : Model)
  (data data' : Obj) (field : Field) :
  relationStep mdm name m data field = Ret data' ->
  data' = data \/
  data' = set data (fname field) VUndefined \/
  (kind field = KObject /\ ftype field <> name /\
   exists tgt rec rest v,
     get mdm (ftype field) = Some tgt /\ createdRecords tgt = rec :: rest /\
     data' = set data (fname field) v).
Proof.
  unfold relationStep.
  destruct (kind field) eqn:Hk; simpl; try (intros [= <-]; now left).
  destruct (String.eqb_spec (ftype field) name) as [| Hne]; [intros [= <-]; now left |].
  destruct (isList field); [intros [= <-]; now left |].
  destruct (relationFromFields field) as [[| x from] |]; try (intros [= <-]; now left).
  destruct (get mdm (ftype field)) as [related |] eqn:Hrel.
  - destruct (createdRecords related) as [| r rest] eqn:Hrecs.
    + intros [= <-]. right. now left.
    + destruct (connectByKey (relationToFields field) (Some r)); intros [= <-].
      right. right. split; [reflexivity |]. split; [assumption |].
      exists related, r, rest, a. auto.
  - destruct (anyFKrequired m (x :: from)); intros [= <-]; [right; now left | now left].
Qed.

(** A connect instruction in a payload comes from a relation to another
    type that has a record. *)
Lemma connect_origin (mdm : ModelDataMap) (name : string) (entry : ModelData)
  (s s' : Sys W) (data : Obj) (f : Field) :
  get mdm name = Some entry ->
  NoDup (map fname (fields (model entry))) ->
  buildCreationData env mdm name s = (Ret data, s') ->
  In f (fields (model entry)) ->
  isConnect (prop data (fname f)) = true ->
  ftype f <> name /\
  exists tgt rec rest, get mdm (ftype f) = Some tgt /\ createdRecords tgt = rec :: rest.
Proof.
  intros Hget Hnd Hrun Hf Hconn.
  set (J := fun d : Obj =>
              forall k, isConnect (prop d k) = true ->
                exists g, In g (fields (model entry)) /\ fname g = k /\
                          ftype g <> name /\
                          exists tgt rec rest,
                            get mdm (ftype g) = Some tgt /\ createdRecords tgt = rec :: rest).
  assert (Hset : forall d g v,
             J d -> In g (fields (model entry)) ->
             (isConnect v = true ->
              ftype g <> name /\
              exists tgt rec rest,
                get mdm (ftype g) = Some tgt /\ createdRecords tgt = rec :: rest) ->
             J (set d (fname g) v)).
  { intros d g v Hd Hg Hv k. unfold prop. rewrite get_set.
    destruct (String.eqb_spec (fname g) k) as [<- | Hne]; [| apply Hd].
    intros Hc. destruct (Hv Hc) as [H1 H2]. exists g. auto. }
  assert (HJ : J data).
  { unfold buildCreationData in Hrun. rewrite Hget in Hrun. unfold bind in Hrun.
    destruct (forEach (scalarStep env (model entry)) (fields (model entry)) empty s)
      as [[d1 | e |] s1] eqn:E1; try discriminate.
    assert (H1 : J d1).
    { apply (forEach_invariant W J (scalarStep env (model entry)) (fields (model entry)))
        with (acc := empty) (s := s) (s' := s1); [| | assumption].
      - intros acc g s0 acc' s0' Hg Hacc Hstep.
        apply scalarStep_value in Hstep. destruct Hstep as [-> | (v & -> & Hv)];
          [assumption |].
        apply Hset; [assumption | assumption |]. congruence.
      - intros k Hk. discriminate Hk. }
    apply (forEach_invariant W J
             (fun d g => lift (relationStep mdm name (model entry) d g))
             (fields (model entry)))
      with (acc := d1) (s := s1) (s' := s'); [| assumption | assumption].
    intros acc g s0 acc' s0' Hg Hacc Hstep. unfold lift in Hstep.
    injection Hstep as Hstep _. apply relationStep_value in Hstep.
    destruct Hstep as [-> | [-> | (Hk & Hne & tgt & rec & rest & v & Ht & Hr & ->)]].
    - assumption.
    - apply Hset; [assumption | assumption |]. discriminate.
    - apply Hset; [assumption | assumption |]. intros _. split; [assumption |]. eauto. }
  destruct (HJ (fname f) Hconn) as (g & Hg & Hname & Hne & Htgt).
  assert (g = f) by (eapply NoDup_fname_inj; eauto). subst g. now split.
Qed.

Lemma scalarStepInline_value (data : Obj) (field : Field) (s s' : Sys W) (data' : Obj) :
  scalarStepInline env data field s = (Ret data', s') ->
  data' = data \/ exists v, data' = set data (fname field) v /\ isConnect v = false.
Proof.
  unfold scalarStepInline.
  destruct (FieldKind_eqb (kind field) KScalar && negb (isReadOnly field));
    [| intros [= <- _]; now left].
  intros H. unfold bind in H.
  destruct (generateFakeValueForField env field s) as [[v | e |] s1] eqn:E; try discriminate.
  injection H as <- _. right. exists v. split; [reflexivity |].
  eapply fake_not_connect; eauto.
Qed.

(** The same in the third variant, where the other type may be the type
    itself. *)
Lemma connect_origin_inline (mdm : ModelDataMap) (name : string) (entry : ModelData)
  (s s' : Sys W) (data : Obj) (f : Field) :
  get mdm name = Some entry ->
  NoDup (map fname (fields (model entry))) ->
  assembleInline env mdm name s = (Ret data, s') ->
  In f (fields (model entry)) ->
  isConnect (prop data (fname f)) = true ->
  exists tgt rec rest, get mdm (ftype f) = Some tgt /\ createdRecords tgt = rec :: rest.
Proof.
  intros Hget Hnd Hrun Hf Hconn.
  set (J := fun d : Obj =>
              forall k, isConnect (prop d k) = true ->
                exists g, In g (fields (model entry)) /\ fname g = k /\
                          exists tgt rec rest,
                            get mdm (ftype g) = Some tgt /\ createdRecords tgt = rec :: rest).
  assert (Hset : forall d g v,
             J d -> In g (fields (model entry)) ->
             (isConnect v = true ->
              exists tgt rec rest,
                get mdm (ftype g) = Some tgt /\ createdRecords tgt = rec :: rest) ->
             J (set d (fname g) v)).
  { intros d g v Hd Hg Hv k. unfold prop. rewrite get_set.
    destruct (String.eqb_spec (fname g) k) as [<- | Hne]; [| apply Hd].
    intros Hc. exists g. auto. }
  assert (HJ : J data).
  { unfold assembleInline in Hrun. rewrite Hget in Hrun. unfold bind in Hrun.
    destruct (forEach (scalarStepInline env) (fields (model entry)) empty s)
      as [[d1 | e |] s1] eqn:E1; try discriminate.
    assert (H1 : J d1).
    { apply (forEach_invariant W J (scalarStepInline env) (fields (model entry)))
        with (acc := empty) (s := s) (s' := s1); [| | assumption].
      - intros acc g s0 acc' s0' Hg Hacc Hstep.
        apply scalarStepInline_value in Hstep. destruct Hstep as [-> | (v & -> & Hv)];
          [assumption |].
        apply Hset; [assumption | assumption |]. congruence.
      - intros k Hk. discriminate Hk. }
    apply (forEach_invariant W J
             (fun d g => lift (relationStepInline mdm (model entry) d g))
             (fields (model entry)))
      with (acc := d1) (s := s1) (s' := s'); [| assumption | assumption].
    intros acc g s0 acc' s0' Hg Hacc Hstep. unfold lift in Hstep.
    injection Hstep as Hstep _. apply relationStepInline_effect in Hstep.
    destruct Hstep as [-> | (Hk & [-> | (tgt & rec & rest & v & Ht & Hr & ->)])].
    - assumption.
    - apply Hset; [assumption | assumption |]. discriminate.
    - apply Hset; [assumption | assumption |]. intros _. eauto. }
  destruct (HJ (fname f) Hconn) as (g & Hg & Hname & Htgt).
  assert (g = f) by (eapply NoDup_fname_inj; eauto). now subst g.
Qed.

End ConnectOrigin.

Lemma NoDup_mname_inj (l : list Model) (a b : Model) :
  NoDup (map mname l) -> In a l -> In b l -> mname a = mname b -> a = b.
Proof.
  induction l as [| x l IH]; simpl; intros Hnd Ha Hb Heq; [contradiction |].
  inversion Hnd as [| ? ? Hx Hl]; subst.
  destruct Ha as [-> | Ha], Hb as [-> | Hb]; auto.
  - exfalso. apply Hx. rewrite Heq. now apply in_map.
  - exfalso. apply Hx. rewrite <- Heq. now apply in_map.
Qed.

Section StrictStore.
Import JsObj.

Variable W : Type.
Variable env : Env W.
Variable assemble : ModelDataMap -> string -> M W Obj.
Hypothesis assemble_quiet : forall mdm name, quiet (assemble mdm name).
Hypothesis assemble_origin :
  forall mdm name entry s s' data f,
    get mdm name = Some entry ->
    NoDup (map fname (fields (model entry))) ->
    assemble mdm name s = (Ret data, s') ->
    In f (fields (model entry)) ->
    isConnect (prop data (fname f)) = true ->
    exists tgt rec rest, get mdm (ftype f) = Some tgt /\ createdRecords tgt = rec :: rest.
Variable models : list Model.
Hypothesis models_names : NoDup (map mname models).
Hypothesis models_fields : forall m, In m models -> NoDup (map fname (fields m)).
Hypothesis store_strict : strict env models.

Lemma isCreated_attempt (mdm : ModelDataMap) (name : string) (entry : ModelData)
  (rec : Obj) (k : string) :
  get mdm name = Some entry ->
  isCreated (update (update mdm name (pushRecord rec)) name markCreated) k
  = if String.eqb name k then true else isCreated mdm k.
Proof.
  intros Hget. unfold isCreated. rewrite !get_update.
  destruct (String.eqb_spec name k) as [<- | Hne]; [| reflexivity].
  now rewrite Hget.
Qed.

Lemma attempt_step_strict :
  forall mdm flag name s r,
    strictLoopInv models mdm ->
    attemptSpec env assemble mdm flag name s r ->
    fst r <> OutOfFuel /\
    exists t, trace (snd r) = trace s ++ t /\ Forall attemptEvent t /\
              forall mdm' flag', fst r = Ret (mdm', flag') ->
                                 strictLoopInv models mdm' /\
                                 flag' = flag || existsb isCreation t.
Proof.
  intros mdm flag name s r [[Hok Hsame] (l & Hord & Hnd & Hl)] Hspec.
  destruct (attemptSpec_trace W env _ assemble_quiet _ _ _ _ _ Hspec)
    as (H1 & t & H2 & H3 & H4).
  assert (Hok' := attemptSpec_runStateOk W env _ _ _ _ _ _ Hok Hspec).
  split; [assumption |]. exists t. split; [assumption |]. split; [assumption |].
  intros mdm' flag' Hr. split; [| now apply (H4 mdm' flag')].
  specialize (Hok' mdm' flag' Hr). clear H1 H2 H3 H4.
  destruct Hspec as [e Hget | entry Hget Hc | entry e s1 Hget Hc Ha
                     | entry data s1 rec w Hget Hc Ha Hp | entry data s1 e w Hget Hc Ha Hp];
    simpl in Hr; try discriminate;
    try (injection Hr as <- _; split; [now split | now exists l]).
  injection Hr as <- _.
  destruct (Hsame name entry Hget) as (entry0 & Hget0 & Hmodel).
  destruct (initModelDataMap_entry models name entry0 Hget0) as (_ & _ & Hm & Hname).
  rewrite <- Hmodel in Hm, Hname.
  assert (Hreq : requiredConnected (model entry) data = true).
  { destruct (requiredConnected (model entry) data) eqn:E; [reflexivity |].
    destruct (store_strict (model entry) data (ext s1) Hm E) as (e & w' & He).
    rewrite Hname, Hp in He. discriminate. }
  assert (Hdeps : forall b, edge (buildDependencyGraph models) name b -> In b l).
  { intros b Hb. apply buildDependencyGraph_edges in Hb.
    destruct Hb as (m' & f & Hm' & Hn' & Hf & Hd & Hty & _).
    assert (m' = model entry).
    { apply (NoDup_mname_inj models); try assumption. congruence. }
    subst m'. unfold requiredConnected in Hreq. rewrite forallb_forall in Hreq.
    specialize (Hreq f Hf). rewrite Hd in Hreq. simpl in Hreq.
    destruct (assemble_origin mdm name entry s s1 data f Hget
                (models_fields _ Hm) Ha Hf Hreq)
      as (tgt & r0 & rest & Htgt & Hrecs).
    apply Hl. unfold isCreated. rewrite <- Hty, Htgt.
    apply (proj1 (Hok _ tgt Htgt)). rewrite Hrecs. discriminate. }
  assert (Hout : ~ In name l).
  { intros Hin. apply Hl in Hin. unfold isCreated in Hin. rewrite Hget in Hin. congruence. }
  split; [split; [assumption |] |].
  - intros k entry'. rewrite !get_update.
    destruct (String.eqb_spec name k) as [<- | Hne]; [| apply Hsame].
    rewrite Hget. simpl. intros [= <-]. simpl. eauto.
  - exists (l ++ [name]). split; [now constructor |]. split.
    + apply NoDup_app; [assumption | repeat constructor; auto |].
      intros x Hx [<- | []]. contradiction.
    + intros k. rewrite (isCreated_attempt mdm name entry rec k Hget), in_app_iff, Hl.
      simpl. destruct (String.eqb_spec name k) as [<- | Hne]; intuition congruence.
Qed.

Lemma strictLoopInv_init : strictLoopInv models (initModelDataMap models).
Proof.
  split; [split; [apply initModelDataMap_runStateOk | intros k e He; eauto] |].
  exists []. split; [constructor |]. split; [constructor |].
  intros k. split; [intros [] |]. unfold isCreated.
  destruct (get (initModelDataMap models) k) as [entry |] eqn:E; [| discriminate].
  destruct (initModelDataMap_entry models k entry E) as (_ & Hc & _). congruence.
Qed.

Lemma multiPassCreate_strict (maxPasses : Z) (s s' : Sys W) (mdm : ModelDataMap) :
  multiPassCreate env assemble models maxPasses s = (Ret mdm, s') ->
  exists l, creationOrder models mdm l.
Proof.
  intros Hrun.
  destruct (multiPassCreate_generic W env assemble
              assemble_quiet (strictLoopInv models) attemptEvent
              attemptEvent_notPassStart attempt_step_strict models maxPasses s
              strictLoopInv_init)
    as (_ & t & _ & _ & _ & Hres).
  rewrite Hrun in Hres. now destruct (Hres mdm eq_refl).
Qed.

End StrictStore.

(** X14.  Take a schema with distinct type names and distinct field names,
    and a store that rejects every creation whose payload leaves a required
    relation of its type unconnected.  When the pass loop returns, in the
    first two variants as in the third, the types
    marked created can be listed with every type after the types it requires:
    a type is created only once all the types it requires are.  So a type
    that requires itself, or that depends, directly or not, on a cycle of
    required relations, is never created, whatever [maxPasses] is. *)
Theorem multiPassCreate_strict_store (W : Type) (env : Env W)
  (assemble : ModelDataMap -> string -> M W Obj) (models : list Model)
  (maxPasses : Z) (s s' : Sys W) (mdm : ModelDataMap) :
  assemble = buildCreationData env \/ assemble = assembleInline env ->
  nodupb (map mname models) = true ->
  forallb (fun m => nodupb (map fname (fields m))) models = true ->
  strict env models ->
  multiPassCreate env assemble models maxPasses s = (Ret mdm, s') ->
  (exists l, creationOrder models mdm l) /\
  forall a, isCreated mdm a = true ->
    (forall b, edge (buildDependencyGraph models) a b -> isCreated mdm b = true) /\
    (forall b, a = b \/ clos_trans string (edge (buildDependencyGraph models)) a b ->
               ~ clos_trans string (edge (buildDependencyGraph models)) b b).
Proof.
  intros Hasm Hnames Hfields Hstrict Hrun.
  apply nodupb_NoDup in Hnames.
  assert (Hf : forall m, In m models -> NoDup (map fname (fields m))).
  { intros m Hm. rewrite forallb_forall in Hfields. apply nodupb_NoDup. now apply Hfields. }
  assert (Horder : exists l, creationOrder models mdm l).
  { destruct Hasm as [-> | ->].
    - apply (multiPassCreate_strict W env (buildCreationData env)
               (quiet_buildCreationData W env)) with (maxPasses := maxPasses) (s := s) (s' := s');
        try assumption.
      intros mdm0 name entry s0 s0' data f Hget Hn Ha Hin Hc.
      now destruct (connect_origin W env mdm0 name entry s0 s0' data f Hget Hn Ha Hin Hc).
    - apply (multiPassCreate_strict W env (assembleInline env)
               (quiet_assembleInline W env)) with (maxPasses := maxPasses) (s := s) (s' := s');
        try assumption.
      apply connect_origin_inline. }
  destruct Horder as (l & Hord & Hnd & Hl).
  split; [exists l; now split |].
  intros a Ha. apply Hl in Ha. split.
  - intros b Hb. apply Hl. eapply Ordered_deps; eauto.
  - intros b Hab Hcyc. apply clos_trans_t1n in Hcyc.
    assert (Hb : In b l).
    { destruct Hab as [<- | Hab]; [assumption |].
      apply clos_trans_t1n in Hab. eapply Ordered_reach; eauto. }
    exact (Ordered_no_cycle _ l Hord Hnd b Hb Hcyc).
Qed.

Lemma strictStore_strict (models : list Model) :
  NoDup (map mname models) -> strict (strictStore models) models.
Proof.
  intros Hnd m data w Hm Hreq. simpl.
  rewrite (find_by_name models m Hnd Hm), Hreq. eauto.
Qed.

Lemma multiPassCreate_strict_store_witness :
  exists mdm s',
    multiPassCreate (strictStore cyclicSchema) (buildCreationData (strictStore cyclicSchema))
                    cyclicSchema 5 (start 0) = (Ret mdm, s') /\
    map (isCreated mdm) ["Husband"; "Post"; "Wife"; "User"; "Level"]
    = [false; true; false; true; true] /\
    (exists l, creationOrder cyclicSchema mdm l) /\
    forall a, isCreated mdm a = true ->
      (forall b, edge (buildDependencyGraph cyclicSchema) a b -> isCreated mdm b = true) /\
      (forall b, a = b \/ clos_trans string (edge (buildDependencyGraph cyclicSchema)) a b ->
                 ~ clos_trans string (edge (buildDependencyGraph cyclicSchema)) b b).
Proof.
  eexists. eexists. split; [vm_compute; reflexivity |]. split; [reflexivity |].
  eapply (multiPassCreate_strict_store nat (strictStore cyclicSchema)
            (buildCreationData (strictStore cyclicSchema)) cyclicSchema 5 (start 0)).
  - now left.
  - reflexivity.
  - reflexivity.
  - apply strictStore_strict. apply nodupb_NoDup. reflexivity.
  - vm_compute. reflexivity.
Defined.

(** ** The keys of a payload in the third variant *)

Section PayloadKeysInline.
Import JsObj.

Variable W : Type.
Variable env : Env W.

Lemma scalarStepInline_writes (data : Obj) (field : Field) (s : Sys W) :
  exists data' s',
    scalarStepInline env data field s = (Ret data', s') /\
    if FieldKind_eqb (kind field) KScalar && assignableInline field
    then exists v, data' = set data (fname field) v
    else data' = data.
Proof.
  unfold scalarStepInline, assignableInline.
  destruct (kind field) eqn:Hk; simpl; try (exists data, s; now auto).
  destruct (isReadOnly field); simpl; [exists data, s; now auto |].
  unfold bind. destruct (returns_generateFakeValueForField W env field s) as (v & s1 & ->).
  exists (set data (fname field) v), s1. split; [reflexivity |]. eauto.
Qed.

Lemma scalarStepInline_keys :
  forall d f (s : Sys W) d' s', scalarStepInline env d f s = (Ret d', s') ->
    d' = d \/ (assignableInline f = true /\ exists v, d' = set d (fname f) v).
Proof.
  intros d f s d' s' Hrun.
  destruct (scalarStepInline_writes d f s) as (d1 & s1 & E & Heff).
  rewrite E in Hrun. injection Hrun as <- _.
  destruct (FieldKind_eqb (kind f) KScalar && assignableInline f) eqn:Hc; [| now left].
  right. apply andb_true_iff in Hc. now split.
Qed.

Lemma relationStepInline_writes (mdm : ModelDataMap) (m : Model)
  (data data' : Obj) (field : Field) :
  relationStepInline mdm m data field = Ret data' ->
  data' = data \/
  (assignableInline field = true /\ exists v, data' = set data (fname field) v).
Proof.
  unfold relationStepInline, assignableInline.
  destruct (kind field) eqn:Hk; simpl; try (intros [= <-]; now left).
  destruct (isList field); simpl; [intros [= <-]; now left |].
  destruct (relationFromFields field) as [[| x from] |]; try (intros [= <-]; now left).
  destruct (get mdm (ftype field)) as [related |].
  - destruct (createdRecords related) as [| r rest].
    + intros [= <-]. right. split; [reflexivity | eauto].
    + destruct (connectByKey (relationToFields field) (Some r)); intros [= <-].
      right. split; [reflexivity | eauto].
  - destruct (anyFKrequired m (x :: from)); intros [= <-];
      [right; split; [reflexivity | eauto] | now left].
Qed.

Lemma scalar_loop_inline_covers (l : list Field) :
  forall data (s : Sys W) data' s',
    forEach (scalarStepInline env) l data s = (Ret data', s') ->
    forall f, In f l -> kind f = KScalar -> isReadOnly f = false ->
              In (fname f) (keys data').
Proof.
  induction l as [| g l IH]; intros data s data' s' Hrun f Hin Hk Hro; [destruct Hin |].
  simpl in Hrun. unfold bind in Hrun.
  destruct (scalarStepInline_writes data g s) as (d1 & s1 & E & Heff).
  rewrite E in Hrun. destruct Hin as [-> | Hin]; [| now apply (IH d1 s1 data' s' Hrun)].
  unfold assignableInline in Heff. rewrite Hk, Hro in Heff. simpl in Heff.
  destruct Heff as [v ->].
  apply (proj2 (loop_keys W _ _ scalarStepInline_keys l _ _ _ _ Hrun)).
  apply keys_set_In. now left.
Qed.

End PayloadKeysInline.

(** X15.  In the third variant, the keys of the payload that
    [tryCreateOneRecord] assembles are names of fields of the type that are
    scalar columns not read-only, or non-list relations with a non-empty
    [relationFromFields]; and every scalar column that is not read-only is a
    key of the payload, the foreign-key columns included: unlike
    [buildCreationData], this variant sends a foreign-key column next to the
    relation that owns it. *)
Theorem assembleInline_payload_keys (W : Type) (env : Env W) (mdm : ModelDataMap)
  (name : string) (entry : ModelData) (s s' : Sys W) (data : Obj) :
  JsObj.get mdm name = Some entry ->
  assembleInline env mdm name s = (Ret data, s') ->
  (forall k, In k (JsObj.keys data) ->
     exists f, In f (fields (model entry)) /\ fname f = k /\ assignableInline f = true) /\
  (forall f, In f (fields (model entry)) -> kind f = KScalar -> isReadOnly f = false ->
             In (fname f) (JsObj.keys data)).
Proof.
  intros Hget. unfold assembleInline. rewrite Hget. unfold bind.
  destruct (forEach (scalarStepInline env) (fields (model entry)) JsObj.empty s)
    as [[d1 | e |] s1] eqn:E1; try discriminate.
  intros E2.
  destruct (loop_keys W _ _ (scalarStepInline_keys W env) _ _ _ _ _ E1) as [H1 _].
  destruct (loop_keys W (fun d g => lift (relationStepInline mdm (model entry) d g))
              (fun g => assignableInline g = true)) with
    (l := fields (model entry)) (data := d1) (s := s1) (data' := data) (s' := s')
    as [H2 H3].
  { intros d f s0 d' s0' Hstep. unfold lift in Hstep. injection Hstep as Hstep _.
    now apply relationStepInline_writes in Hstep. }
  { assumption. }
  split.
  - intros k Hk. destruct (H2 k Hk) as [H | H]; [| assumption].
    destruct (H1 k H) as [[] | H']. assumption.
  - intros f Hf Hkind Hro. apply H3.
    now apply (scalar_loop_inline_covers W env _ _ _ _ _ E1 f).
Qed.

Lemma assembleInline_payload_keys_witness :
  let data := [("id", VNum 123 0); ("levelId", VNum 123 0); ("level", VUndefined)] in
  (forall k, In k (JsObj.keys data) ->
     exists f, In f (fields userModel) /\ fname f = k /\ assignableInline f = true) /\
  (forall f, In f (fields userModel) -> kind f = KScalar -> isReadOnly f = false ->
             In (fname f) (JsObj.keys data)).
Proof.
  cbv zeta.
  apply (assembleInline_payload_keys nat (strictStore blogSchema)
           (initModelDataMap blogSchema) "User" (mkModelData userModel [] false)
           (start 0) (start 0)
           [("id", VNum 123 0); ("levelId", VNum 123 0); ("level", VUndefined)]).
  - reflexivity.
  - reflexivity.
Defined.

(** ** The pass loop at its bounds *)

(** X16.  With [maxPasses] below one the pass loop does not start: for every
    schema, [multiPassCreate] returns the initial run state, in which no type
    is created, and adds no event, so the store is never called.  With an
    empty schema and [maxPasses] of at least one, it makes a single pass that
    attempts nothing, and returns an empty run state. *)
Theorem multiPassCreate_bounds (W : Type) (env : Env W)
  (assemble : ModelDataMap -> string -> M W Obj) (maxPasses : Z) (s : Sys W) :
  (forall models,
      (maxPasses < 1)%Z ->
      multiPassCreate env assemble models maxPasses s = (Ret (initModelDataMap models), s) /\
      forall k, isCreated (initModelDataMap models) k = false) /\
  ((1 <= maxPasses)%Z ->
   multiPassCreate env assemble [] maxPasses s
   = (Ret [], mkSys (ext s) (trace s ++ [LogPassStart 1; LogNoProgress]))).
Proof.
  split.
  - intros models Hmax. split.
    + unfold multiPassCreate, bind, lift.
      destruct (topologicalSort_schema models) as (sorted & -> & _).
      apply passLoop_exit. lia.
    + intros k. unfold isCreated.
      destruct (JsObj.get (initModelDataMap models) k) as [entry |] eqn:E; [| reflexivity].
      now destruct (initModelDataMap_entry models k entry E) as (_ & Hc & _).
  - intros Hmax. unfold multiPassCreate, bind, lift.
    change (topologicalSort (buildDependencyGraph [])) with (@Ret (list string) []).
    cbv iota beta.
    destruct (Z.to_nat maxPasses) as [| fuel] eqn:Hfuel; [lia |].
    rewrite passLoop_unfold by assumption. simpl.
    now rewrite <- app_assoc.
Qed.

Lemma multiPassCreate_bounds_witness :
  multiPassCreate (strictStore blogSchema) (buildCreationData (strictStore blogSchema))
                  blogSchema 0 (start 0)
  = (Ret (initModelDataMap blogSchema), start 0) /\
  multiPassCreate (strictStore []) (buildCreationData (strictStore [])) [] 5 (start 0)
  = (Ret [], mkSys 0 ([] ++ [LogPassStart 1; LogNoProgress])).
Proof.
  split.
  - apply (proj1 (multiPassCreate_bounds nat (strictStore blogSchema)
                    (buildCreationData (strictStore blogSchema)) 0 (start 0)) blogSchema).
    lia.
  - apply (proj2 (multiPassCreate_bounds nat (strictStore [])
                    (buildCreationData (strictStore [])) 5 (start 0))).
    lia.
Defined.

(** ** What a pass sends to the store *)

Section PassAttempts.
Import JsObj.

Variable W : Type.
Variable env : Env W.
Variable assemble : ModelDataMap -> string -> M W Obj.
Hypothesis assemble_quiet : forall mdm name, quiet (assemble mdm name).

Lemma attempt_attempted (mdm : ModelDataMap) (flag : bool) (name : string) (s : Sys W)
  (r : outcome (ModelDataMap * bool) * Sys W) :
  attemptSpec env assemble mdm flag name s r ->
  forall mdm' flag', fst r = Ret (mdm', flag') ->
    exists t,
      trace (snd r) = trace s ++ t /\ Forall attemptEvent t /\
      attempted t = (if isCreated mdm name then [] else [name]) /\
      flag' = flag || existsb isCreation t /\
      forall k, k <> name -> isCreated mdm' k = isCreated mdm k.
Proof.
  intros [e Hget | entry Hget Hc | entry e s1 Hget Hc Ha
          | entry data s1 rec w Hget Hc Ha Hp | entry data s1 e w Hget Hc Ha Hp];
    simpl; intros mdm' flag' Hr; try discriminate; injection Hr as <- <-;
    unfold isCreated at 1; rewrite Hget, Hc.
  - exists []. rewrite app_nil_r, orb_false_r. repeat split. constructor.
  - exists [CallCreate name data (inl rec)].
    rewrite (assemble_trace W assemble assemble_quiet _ _ _ _ _ Ha), orb_true_r.
    repeat split; [repeat constructor |].
    intros k Hk. rewrite (isCreated_attempt mdm name entry rec k Hget).
    destruct (String.eqb_spec name k); [congruence | reflexivity].
  - exists [CallCreate name data (inr e)].
    rewrite (assemble_trace W assemble assemble_quiet _ _ _ _ _ Ha). simpl.
    rewrite orb_false_r. repeat split. repeat constructor.
Qed.

Lemma pass_attempts (names : list string) :
  NoDup names ->
  forall mdm flag s mdm' flag' s',
    forEach (attemptModel env assemble) names (mdm, flag) s = (Ret (mdm', flag'), s') ->
    exists t,
      trace s' = trace s ++ t /\ Forall attemptEvent t /\
      attempted t = filter (fun k => negb (isCreated mdm k)) names /\
      flag' = flag || existsb isCreation t.
Proof.
  induction names as [| name names IH]; intros Hnd mdm flag s mdm' flag' s' Hrun;
    simpl in Hrun.
  - injection Hrun as _ <- <-. exists []. rewrite app_nil_r, orb_false_r.
    repeat split. constructor.
  - inversion Hnd as [| ? ? Hout Hnd']; subst.
    unfold bind in Hrun.
    assert (Hspec := attemptModel_spec W env assemble assemble_quiet mdm flag name s).
    destruct (attemptModel env assemble (mdm, flag) name s) as [[[mdm1 flag1] | e |] s1];
      try discriminate.
    destruct (attempt_attempted _ _ _ _ _ Hspec mdm1 flag1 eq_refl)
      as (t1 & Ht1 & Hall1 & Hat1 & Hflag1 & Hsame).
    destruct (IH Hnd' _ _ _ _ _ _ Hrun) as (t2 & Ht2 & Hall2 & Hat2 & Hflag2).
    simpl in Ht1. exists (t1 ++ t2). split; [| split; [| split]].
    + now rewrite Ht2, Ht1, app_assoc.
    + apply Forall_app. now split.
    + unfold attempted in *. rewrite flat_map_app, Hat1, Hat2. simpl.
      rewrite (filter_ext_in (fun k => negb (isCreated mdm1 k))
                 (fun k => negb (isCreated mdm k)) names).
      * now destruct (isCreated mdm name).
      * intros k Hk. rewrite Hsame; [reflexivity |]. intros ->. contradiction.
    + now rewrite Hflag2, Hflag1, existsb_app, orb_assoc.
Qed.

End PassAttempts.

(** X17.  A pass over distinct names that returns sends to the store one
    creation for each name whose type is not yet marked created, in the order
    of the names, whether the earlier creations of the pass were accepted or
    rejected, and nothing else; types already created are not sent again.
    The progress flag of the pass says whether one of these creations was
    accepted. *)
Theorem runPass_attempts (W : Type) (env : Env W)
  (assemble : ModelDataMap -> string -> M W Obj) (names : list string)
  (mdm mdm' : ModelDataMap) (flag : bool) (s s' : Sys W) :
  assemble = buildCreationData env \/ assemble = assembleInline env ->
  NoDup names ->
  runPass env assemble names mdm s = (Ret (mdm', flag), s') ->
  exists t,
    trace s' = trace s ++ t /\
    Forall attemptEvent t /\
    attempted t = filter (fun k => negb (isCreated mdm k)) names /\
    flag = existsb isCreation t.
Proof.
  intros Hasm Hnd Hrun. unfold runPass in Hrun.
  destruct Hasm as [-> | ->].
  - apply (pass_attempts W env _ (quiet_buildCreationData W env) names Hnd) in Hrun.
    exact Hrun.
  - apply (pass_attempts W env _ (quiet_assembleInline W env) names Hnd) in Hrun.
    exact Hrun.
Qed.

Lemma runPass_attempts_witness :
  let env := strictStore cyclicSchema in
  let mdm := [("Husband", mkModelData husbandModel [] false);
              ("Level", mkModelData levelModel [[("id", VNum 0 0)]] true);
              ("User", mkModelData userModel [] false)] in
  exists mdm' flag s' t,
    runPass env (buildCreationData env) ["Level"; "User"; "Husband"] mdm (start 1)
    = (Ret (mdm', flag), s') /\
    trace s' = [] ++ t /\
    Forall attemptEvent t /\
    attempted t = ["User"; "Husband"] /\
    flag = existsb isCreation t.
Proof.
  cbv zeta. eexists. eexists. eexists.
  assert (Hrun : runPass (strictStore cyclicSchema)
                   (buildCreationData (strictStore cyclicSchema))
                   ["Level"; "User"; "Husband"]
                   [("Husband", mkModelData husbandModel [] false);
                    ("Level", mkModelData levelModel [[("id", VNum 0 0)]] true);
                    ("User", mkModelData userModel [] false)] (start 1)
                 = (Ret (_, _), _)) by (vm_compute; reflexivity).
  destruct (runPass_attempts nat (strictStore cyclicSchema)
              (buildCreationData (strictStore cyclicSchema)) ["Level"; "User"; "Husband"]
              _ _ _ (start 1) _ (or_introl eq_refl)
              (proj1 (nodupb_NoDup ["Level"; "User"; "Husband"]) eq_refl) Hrun)
    as (t & H).
  exists t. split; [exact Hrun | exact H].
Defined.
